(** * MPD: archive database update, UPnP reference counting, xmp module loading

    A shallow embedding of three pieces of the Music Player Daemon sources:

    - [src/db/update/Archive.cxx]: [UpdateWalk::UpdateArchiveTree] and the two
      [UpdateWalk::UpdateArchiveFile] overloads (module [Archive]);
    - [src/lib/upnp/Init.cxx]: [UpnpGlobalInit] / [UpnpGlobalFinish]
      (module [Upnp]);
    - [src/decoder/plugins/XmpDecoderPlugin.cxx]: [Xmp::load_module], the [Xmp]
      constructor, [libxmp_stream_decode] and [libxmp_scan_stream]
      (module [Xmp]).

    C++ objects that are mutated in place are modelled by explicit state
    passing; a C++ exception that leaves a function is an explicit
    [Thrown] completion which carries the state reached so far. *)

From Stdlib Require Import ZArith Lia String Ascii.
From stdpp Require Import base list strings.
From Equations Require Import Equations.

Open Scope string_scope.
Open Scope list_scope.

Set Warnings "-register-all".

(** ** C strings *)

(** [strchr(s, c)]: the offset of the first occurrence of [c] in [s], or
    [None] for the null pointer. *)
Fixpoint strchr (s : string) (c : ascii) : option nat :=
  match s with
  | EmptyString => None
  | String a s' => if Ascii.eqb a c then Some 0 else S <$> strchr s' c
  end.

(** [std::string(s, s + n)]: the first [n] characters of [s]. *)
Fixpoint str_take (n : nat) (s : string) : string :=
  match n, s with
  | S n', String a s' => String a (str_take n' s')
  | _, _ => EmptyString
  end.

(** The pointer [s + n], read as a C string. *)
Fixpoint str_drop (n : nat) (s : string) : string :=
  match n, s with
  | S n', String _ s' => str_drop n' s'
  | _, _ => s
  end.

(** [StringIsEmpty(s)], that is [*s == 0]. *)
Definition StringIsEmpty (s : string) : bool :=
  match s with
  | EmptyString => true
  | String _ _ => false
  end.

Lemma strchr_lt s c i : strchr s c = Some i -> i < String.length s.
Proof.
  revert i; induction s as [|a s IH]; intros i; simpl; [done|].
  destruct (Ascii.eqb a c); [intros [= <-]; lia|].
  destruct (strchr s c) as [j|]; simpl; [|done].
  intros [= <-]. specialize (IH j eq_refl). lia.
Qed.

Lemma str_drop_length n s : String.length (str_drop n s) = String.length s - n.
Proof. revert s; induction n; intros [|a s]; simpl; auto. Qed.

Definition inspect {A} (a : A) : {b | a = b} := exist _ a eq_refl.

(** The '/'-separated segments of a path, first to last; never empty. *)
Fixpoint split_slash (s : string) : list string :=
  match s with
  | EmptyString => [EmptyString]
  | String a s' =>
      if Ascii.eqb a "/" then EmptyString :: split_slash s'
      else match split_slash s' with
           | seg :: segs => String a seg :: segs
           | [] => [String a EmptyString]
           end
  end.

(** All segments but the last: the directories of an entry path. *)
Fixpoint dirs_of (segs : list string) : list string :=
  match segs with
  | [] => []
  | seg :: rest =>
      match rest with
      | [] => []
      | _ :: _ => seg :: dirs_of rest
      end
  end.

(** The last segment: the leaf of an entry path. *)
Fixpoint leaf_of (segs : list string) : string :=
  match segs with
  | [] => EmptyString
  | seg :: rest =>
      match rest with
      | [] => seg
      | _ :: _ => leaf_of rest
      end
  end.

(** ** src/db/update/Archive.cxx *)

Module Archive.

Section Model.

(** The metadata of a song is opaque to the update walk. *)
Context {Tag : Type}.

(** Modelled from the spec: the [device] field of [Directory]
    (db/plugins/simple/Directory.hxx is not under src/): section 3 gives
    [device_marker] as an ordinary device id or the sentinel [IN_ARCHIVE]. *)
Inductive Device :=
| DeviceId (id : N)
| DEVICE_INARCHIVE.

(** Modelled from the spec: [Song] (db/plugins/simple/Song.hxx is not under
    src/): a leaf has a name and opaque metadata. *)
Record Song := mkSong {
  uri : string;
  tag : Tag
}.

(** Modelled from the spec: [Directory] (Directory.hxx is not under src/):
    name, modification time, device marker, child directories and songs.  The
    children and the songs are kept in the order of their creation; a child is
    addressed by its position among its siblings. *)
Inductive Directory := mkDirectory {
  GetName : string;
  mtime : Z;
  device : Device;
  children : list Directory;
  songs : list Song
}.

Definition set_mtime (d : Directory) (t : Z) : Directory :=
  mkDirectory (GetName d) t (device d) (children d) (songs d).

Definition set_device (d : Directory) (dev : Device) : Directory :=
  mkDirectory (GetName d) (mtime d) dev (children d) (songs d).

Definition set_children (d : Directory) (cs : list Directory) : Directory :=
  mkDirectory (GetName d) (mtime d) (device d) cs (songs d).

Definition set_songs (d : Directory) (ss : list Song) : Directory :=
  mkDirectory (GetName d) (mtime d) (device d) (children d) ss.

(** Writing through a [Directory *] that points to the child at position [i]. *)
Definition put_child (d : Directory) (i : nat) (c : Directory) : Directory :=
  set_children d (<[i := c]> (children d)).

(** Modelled from the spec: [Directory::FindChild] ("find-child-by-name"):
    the first child of that name, with its position. *)
Definition FindChild (d : Directory) (n : string) : option (nat * Directory) :=
  list_find (λ c, GetName c = n) (children d).

(** Modelled from the spec: [Directory::CreateChild] ("create-child"): a new,
    empty directory of that name, its modification time not set yet. *)
Definition new_directory (n : string) : Directory :=
  mkDirectory n 0 (DeviceId 0) [] [].

Definition CreateChild (d : Directory) (n : string) : Directory * nat * Directory :=
  (set_children d (children d ++ [new_directory n]),
   length (children d), new_directory n).

(** Modelled from the spec: [Directory::MakeChild] ("find-or-create"). The
    result is the parent, the position of the child and the child. *)
Definition MakeChild (d : Directory) (n : string) : Directory * nat * Directory :=
  match FindChild d n with
  | Some (i, c) => (d, i, c)
  | None => CreateChild d n
  end.

(** Modelled from the spec: [Directory::FindSong] ("find-leaf-by-name"). *)
Definition FindSong (d : Directory) (n : string) : option Song :=
  snd <$> list_find (λ s, uri s = n) (songs d).

(** Modelled from the spec: [Directory::AddSong] ("add-leaf"). *)
Definition AddSong (d : Directory) (s : Song) : Directory :=
  set_songs d (songs d ++ [s]).

(** Modelled from the spec: [DatabaseEditor::LockDeleteDirectory]
    ("delete-subtree"): the child at position [i] leaves its parent, and all
    its descendants with it. *)
Definition LockDeleteDirectory (parent : Directory) (i : nat) : Directory :=
  set_children parent (delete i (children parent)).

(** [Directory::GetPath] of a child: the parent's path (carried beside the
    directory, where the code follows the parent pointers), a slash, the
    name; the root's path is empty. *)
Definition path_build (dpath n : string) : string :=
  if StringIsEmpty dpath then n else dpath ++ "/" ++ n.

(** The three wrappers of Archive.cxx take the database lock around one
    accessor; locking has no effect on the values. *)
Definition LockFindChild := FindChild.
Definition LockMakeChild := MakeChild.
Definition LockFindSong := FindSong.

(** What the walk does that is visible outside the tree. *)
Inductive Event :=
| LogWarning (msg : string)
| LogError
| LogDefault (msg : string)
| LogDebug (msg : string)
| ArchiveOpen (path_fs : string)
| ArchiveClose.

(** The members of [UpdateWalk] that Archive.cxx reads or writes, and the
    events so far, oldest first. *)
Record UpdateWalk := mkWalk {
  walk_discard : bool;
  modified : bool;
  trace : list Event
}.

Definition emit (w : UpdateWalk) (e : Event) : UpdateWalk :=
  mkWalk (walk_discard w) (modified w) (trace w ++ [e]).

Definition set_modified (w : UpdateWalk) : UpdateWalk :=
  mkWalk (walk_discard w) true (trace w).

(** How a call ends: by returning, or by an exception that leaves it. *)
Inductive Completion := Returned | Thrown.

Record Result := mkResult {
  r_walk : UpdateWalk;
  r_dir : Directory;
  r_completion : Completion
}.

(** Modelled from the spec: [Song::LoadFile] (Song.cxx is not under src/):
    "given storage context, entry name, parent directory, returns a populated
    leaf or none on failure to parse"; section 5 also lets a leaf load throw.
    The parent serves "for path reconstruction only", so the storage answers
    for a directory path and a name. *)
Inductive Loaded :=
| LoadSong (t : Tag)
| LoadNull
| LoadThrows.

(** The storage collaborator: [Storage::MapChildFS] ([None] for a null
    path), and what loading a song finds. *)
Record Storage := mkStorage {
  MapChildFS : string -> string -> option string;
  load_tag : string -> string -> Loaded
}.

Inductive LoadFileResult :=
| SongLoaded (s : Song)
| SongNull
| SongThrows.

(** [Song::LoadFile(storage, name, directory)]: the song it returns has the
    name it was asked for and the metadata found in the storage. *)
Definition Song_LoadFile (storage : Storage) (n : string) (dpath : string)
  : LoadFileResult :=
  match load_tag storage dpath n with
  | LoadSong t => SongLoaded (mkSong n t)
  | LoadNull => SongNull
  | LoadThrows => SongThrows
  end.

(** An open archive: the entry paths its [Visit] reports, in order. *)
Record ArchiveFile := mkArchiveFile {
  entries : list string
}.

(** An archive plugin: [archive_file_open] returns the open archive or
    [None] for a null pointer (with [Error] set). *)
Record ArchivePlugin := mkPlugin {
  plugin_open : string -> option ArchiveFile
}.

Definition archive_file_open (plugin : ArchivePlugin) (path_fs : string)
  : option ArchiveFile :=
  plugin_open plugin path_fs.

Record StorageFileInfo := mkInfo {
  info_mtime : Z
}.

Variable storage : Storage.

(** [UpdateWalk::UpdateArchiveTree(Directory &directory, const char *name)].
    [dpath] is [directory.GetPath()]. *)
Equations? UpdateArchiveTree (walk : UpdateWalk) (dpath : string)
  (directory : Directory) (name : string) : Result
  by wf (String.length name) lt :=
UpdateArchiveTree walk dpath directory name with inspect (strchr name "/") := {
  | exist _ (Some tmp) Htmp =>
      let child_name := str_take tmp name in
      (* add dir is not there already *)
      let made := LockMakeChild directory child_name in
      let subdir := set_device (snd made) DEVICE_INARCHIVE in
      (* create directories first *)
      let r := UpdateArchiveTree walk (path_build dpath child_name) subdir
                 (str_drop (S tmp) name) in
      mkResult (r_walk r)
               (put_child (fst (fst made)) (snd (fst made)) (r_dir r))
               (r_completion r)
  | exist _ None _ =>
      if StringIsEmpty name then
        mkResult (emit walk (LogWarning "archive returned directory only"))
                 directory Returned
      else
        (* add file *)
        match LockFindSong directory name with
        | Some _ => mkResult walk directory Returned
        | None =>
            match Song_LoadFile storage name dpath with
            | SongThrows => mkResult walk directory Thrown
            | SongNull => mkResult walk directory Returned
            | SongLoaded song =>
                mkResult
                  (emit (set_modified walk)
                        (LogDefault ("added " ++ dpath ++ "/" ++ name)))
                  (AddSong directory song) Returned
            end
        end }.
Proof.
  apply strchr_lt in Htmp.
  pose proof (str_drop_length (S tmp) name) as E. simpl in E. lia.
Qed.

(** [ArchiveFile::Visit] with an [UpdateArchiveVisitor]: one
    [VisitArchiveEntry] per entry; an exception ends the visit. *)
Fixpoint Visit (paths : list string) (walk : UpdateWalk) (dpath : string)
  (directory : Directory) : Result :=
  match paths with
  | [] => mkResult walk directory Returned
  | path_utf8 :: rest =>
      let walk := emit walk (LogDebug ("adding archive file: " ++ path_utf8)) in
      let r := UpdateArchiveTree walk dpath directory path_utf8 in
      match r_completion r with
      | Thrown => r
      | Returned => Visit rest (r_walk r) dpath (r_dir r)
      end
  end.

(** [UpdateWalk::UpdateArchiveFile(Directory &parent, const char *name,
    const StorageFileInfo &info, const ArchivePlugin &plugin)].
    [ppath] is [parent.GetPath()]. *)
Definition UpdateArchiveFile (walk : UpdateWalk) (ppath : string)
  (parent : Directory) (n : string) (info : StorageFileInfo)
  (plugin : ArchivePlugin) : Result :=
  let directory := LockFindChild parent n in
  if match directory with
     | Some (_, d) => (mtime d =? info_mtime info)%Z && negb (walk_discard walk)
     | None => false
     end
  then
    (* MPD has already scanned the archive, and it hasn't changed since *)
    mkResult walk parent Returned
  else
    match MapChildFS storage ppath n with
    | None =>
        (* not a local file: skip *)
        mkResult walk parent Returned
    | Some path_fs =>
        (* open archive *)
        let walk := emit walk (ArchiveOpen path_fs) in
        match archive_file_open plugin path_fs with
        | None =>
            let walk := emit walk LogError in
            match directory with
            | Some (i, _) => mkResult walk (LockDeleteDirectory parent i) Returned
            | None => mkResult walk parent Returned
            end
        | Some file =>
            let walk := emit walk (LogDebug ("archive " ++ path_fs ++ " opened")) in
            let '(walk, parent, i, d) :=
              match directory with
              | None =>
                  let walk :=
                    emit walk (LogDebug ("creating archive directory: " ++ n)) in
                  let '(parent, i, d) := CreateChild parent n in
                  (* mark this directory as archive *)
                  (walk, parent, i, set_device d DEVICE_INARCHIVE)
              | Some (i, d) => (walk, parent, i, d)
              end in
            let d := set_mtime d (info_mtime info) in
            let r := Visit (entries file) walk (path_build ppath n) d in
            let parent := put_child parent i (r_dir r) in
            match r_completion r with
            | Thrown => mkResult (r_walk r) parent Thrown
            | Returned => mkResult (emit (r_walk r) ArchiveClose) parent Returned
            end
        end
    end.

(** The plugin registry: [archive_plugin_from_suffix]. *)
Variable archive_plugin_from_suffix : string -> option ArchivePlugin.

(** [bool UpdateWalk::UpdateArchiveFile(Directory &directory, const char
    *name, const char *suffix, const StorageFileInfo &info)]. *)
Definition UpdateArchiveFile_suffix (walk : UpdateWalk) (ppath : string)
  (directory : Directory) (n suffix : string) (info : StorageFileInfo)
  : bool * Result :=
  match archive_plugin_from_suffix suffix with
  | None => (false, mkResult walk directory Returned)
  | Some plugin => (true, UpdateArchiveFile walk ppath directory n info plugin)
  end.

(** *** Notions the properties are stated with *)

(** [GetPath()] of the directory reached from [dpath] through [dirs]. *)
Definition path_under (dpath : string) (dirs : list string) : string :=
  foldl path_build dpath dirs.

(** Under [d] there is a chain of directories named by all segments but the
    last, each marked [DEVICE_INARCHIVE], and in the last of them a song
    named by the last segment. *)
Fixpoint has_chain (d : Directory) (segs : list string) : Prop :=
  match segs with
  | [] => False
  | seg :: rest =>
      match rest with
      | [] => ∃ s, s ∈ songs d ∧ uri s = seg
      | _ :: _ =>
          ∃ i c, children d !! i = Some c ∧ GetName c = seg ∧
                 device c = DEVICE_INARCHIVE ∧ has_chain c rest
      end
  end.

(** The directory the database's own lookup reaches from [d] through the
    names [dirs]. *)
Fixpoint descend (d : Directory) (dirs : list string) : option Directory :=
  match dirs with
  | [] => Some d
  | seg :: rest =>
      match FindChild d seg with
      | Some (_, c) => descend c rest
      | None => None
      end
  end.

(** The number of songs of [d] named [n]. *)
Definition count_songs (d : Directory) (n : string) : nat :=
  length (filter (λ s, uri s = n) (songs d)).

(** The invariant of section 3: no two sibling directories share a name, no
    two sibling songs share a name, in the whole tree. *)
Inductive wf_directory : Directory → Prop :=
| wf_directory_intro d :
    NoDup (uri <$> songs d) →
    NoDup (GetName <$> children d) →
    Forall wf_directory (children d) →
    wf_directory d.

(** [extends d d']: every directory and every song of the tree [d] is still
    in [d'], each directory at its old position under its old name. *)
Inductive extends : Directory → Directory → Prop :=
| extends_intro d d' :
    GetName d' = GetName d →
    (∀ s, s ∈ songs d → s ∈ songs d') →
    (∀ i c, children d !! i = Some c →
            ∃ c', children d' !! i = Some c' ∧ extends c c') →
    extends d d'.

Definition is_open (e : Event) : bool :=
  match e with
  | ArchiveOpen _ => true
  | _ => false
  end.

Definition is_close (e : Event) : bool :=
  match e with
  | ArchiveClose => true
  | _ => false
  end.

(** Logging: neither an open nor a close. *)
Definition is_log (e : Event) : bool := negb (is_open e) && negb (is_close e).

(** The [archive_file_open] calls and the [Close] calls of a trace. *)
Definition opens (t : list Event) : nat := length (filter (λ e, is_open e) t).
Definition closes (t : list Event) : nat := length (filter (λ e, is_close e) t).

(** The call is not ended by one of the two early returns: the archive is
    new, changed or rescanned by force, and it has the local path
    [path_fs]. *)
Definition reaches_open (walk : UpdateWalk) (ppath : string)
  (parent : Directory) (n : string) (info : StorageFileInfo)
  (path_fs : string) : Prop :=
  (∀ i d, LockFindChild parent n = Some (i, d) →
          mtime d ≠ info_mtime info ∨ walk_discard walk = true) ∧
  MapChildFS storage ppath n = Some path_fs.

End Model.

(** *** A small database to run the model on *)

(** A storage where every archive is local and every song loads. *)
Definition ex_storage : @Storage unit :=
  mkStorage (λ _ _, Some "/music/mods.zip") (λ _ _, LoadSong ()).

(** The same storage, but no song can be parsed. *)
Definition ex_storage_null : @Storage unit :=
  mkStorage (λ _ _, Some "/music/mods.zip") (λ _ _, LoadNull).

(** The same storage, but loading a song throws. *)
Definition ex_storage_throws : @Storage unit :=
  mkStorage (λ _ _, Some "/music/mods.zip") (λ _ _, LoadThrows).

(** A storage with no local files. *)
Definition ex_storage_remote : @Storage unit :=
  mkStorage (λ _ _, None) (λ _ _, LoadSong ()).

Definition ex_walk : UpdateWalk := mkWalk false false [].

(** An archive directory with nothing in it yet. *)
Definition ex_root : @Directory unit :=
  mkDirectory "mods.zip" 7 DEVICE_INARCHIVE [] [].

(** A music directory that holds the archive directory of an earlier scan,
    with one song in it, beside an ordinary directory. *)
Definition ex_music : @Directory unit :=
  mkDirectory "" 0 (DeviceId 1)
    [mkDirectory "albums" 3 (DeviceId 1) [] [];
     mkDirectory "mods.zip" 7 DEVICE_INARCHIVE [] [mkSong "old.mod" ()]]
    [].

Definition ex_file : ArchiveFile := mkArchiveFile ["a/b.it"; "a/c.it"; "d.mod"].

(** A plugin that opens every archive as [ex_file], and one that fails. *)
Definition ex_plugin : ArchivePlugin := mkPlugin (λ _, Some ex_file).
Definition ex_plugin_fails : ArchivePlugin := mkPlugin (λ _, None).

End Archive.

(** ** src/lib/upnp/Init.cxx *)

Module Upnp.

(** [static unsigned upnp_ref]: 32 bits, arithmetic modulo [2^32]. *)
Definition UINT_MODULUS : Z := 2 ^ 32.

Definition wrap (z : Z) : Z := z mod UINT_MODULUS.

Definition UPNP_E_SUCCESS : Z := 0.

(** The calls into libupnp and ixml, [UpnpInit] with the code it returned. *)
Inductive LibCall :=
| UpnpInit (code : Z)
| UpnpSetMaxContentLength (n : Z)
| ixmlRelaxParser (flag : Z)
| UpnpFinish.

(** The static state of Init.cxx and the library calls made so far, oldest
    first.  [upnp_init_mutex] serializes the two functions; it has no state
    of its own here. *)
Record State := mkState {
  upnp_ref : Z;
  calls : list LibCall
}.

Definition initial : State := mkState 0 [].

Definition call (s : State) (c : LibCall) : State :=
  mkState (upnp_ref s) (calls s ++ [c]).

Definition set_ref (s : State) (r : Z) : State :=
  mkState r (calls s).

(** How a call ends: it returns, it throws (the [FormatRuntimeError] of
    [DoInit]), or its [assert] fails. *)
Inductive Outcome :=
| Returned (s : State)
| Thrown (s : State)
| AssertionFailed.

(** [DoInit()]; [code] is what [UpnpInit(0, 0)] returns. *)
Definition DoInit (code : Z) (s : State) : Outcome :=
  let s := call s (UpnpInit code) in
  if negb (code =? UPNP_E_SUCCESS)%Z then Thrown s
  else
    let s := call s (UpnpSetMaxContentLength (2000 * 1024)) in
    (* Servers sometimes make error (e.g.: minidlna returns bad utf-8) *)
    Returned (call s (ixmlRelaxParser 1)).

(** [UpnpGlobalInit()]. *)
Definition UpnpGlobalInit (code : Z) (s : State) : Outcome :=
  match (if (upnp_ref s =? 0)%Z then DoInit code s else Returned s) with
  | Returned s => Returned (set_ref s (wrap (upnp_ref s + 1)))
  | Thrown s => Thrown s
  | AssertionFailed => AssertionFailed
  end.

(** [UpnpGlobalFinish()]. *)
Definition UpnpGlobalFinish (s : State) : Outcome :=
  if negb (0 <? upnp_ref s)%Z then AssertionFailed
  else
    let s := set_ref s (wrap (upnp_ref s - 1)) in
    if (upnp_ref s =? 0)%Z then Returned (call s UpnpFinish) else Returned s.

(** Whether libupnp is initialized after the calls [cs], starting from
    [b]: a successful [UpnpInit] initializes it, [UpnpFinish] ends it. *)
Definition lib_initialized (b : bool) (cs : list LibCall) : bool :=
  foldl (λ b c,
           match c with
           | UpnpInit code => if (code =? UPNP_E_SUCCESS)%Z then true else b
           | UpnpFinish => false
           | _ => b
           end) b cs.

(** The use a program makes of Init.cxx: a sequence of calls, each
    [UpnpGlobalInit] with the code [UpnpInit] returns should it be called. *)
Inductive ApiCall :=
| GlobalInit (code : Z)
| GlobalFinish.

(** The state after the calls; an exception is the caller's to handle and
    the program goes on, a failed assertion ends it ([None]). *)
Fixpoint run (cs : list ApiCall) (s : State) : option State :=
  match cs with
  | [] => Some s
  | GlobalInit code :: cs' =>
      match UpnpGlobalInit code s with
      | Returned s' | Thrown s' => run cs' s'
      | AssertionFailed => None
      end
  | GlobalFinish :: cs' =>
      match UpnpGlobalFinish s with
      | Returned s' | Thrown s' => run cs' s'
      | AssertionFailed => None
      end
  end.

Definition is_init (c : ApiCall) : bool :=
  match c with
  | GlobalInit _ => true
  | GlobalFinish => false
  end.

(** The numbers of [UpnpGlobalInit] and of [UpnpGlobalFinish] calls. *)
Definition inits (cs : list ApiCall) : Z :=
  Z.of_nat (length (filter (λ c, is_init c) cs)).

Definition finishes (cs : list ApiCall) : Z :=
  Z.of_nat (length (filter (λ c, negb (is_init c)) cs)).

(** Balanced: at no point more finishes than inits. *)
Definition balanced (cs : list ApiCall) : Prop :=
  ∀ k, (finishes (take k cs) ≤ inits (take k cs))%Z.

(** Every [UpnpInit] that may be called succeeds. *)
Definition all_succeed (cs : list ApiCall) : Prop :=
  ∀ code, GlobalInit code ∈ cs → code = UPNP_E_SUCCESS.

(** A value an [unsigned] can hold. *)
Definition valid (s : State) : Prop := (0 ≤ upnp_ref s < UINT_MODULUS)%Z.

(** The invariant of the counter: it is a value of its type, and libupnp
    is initialized exactly when it is positive. *)
Definition consistent (s : State) : Prop :=
  valid s ∧ (lib_initialized false (calls s) = true ↔ (0 < upnp_ref s)%Z).

(** The library call [c] is made on the way from [s] to [s']. *)
Definition invoked (c : LibCall) (s s' : State) : Prop :=
  c ∈ drop (length (calls s)) (calls s').

End Upnp.

(** ** src/decoder/plugins/XmpDecoderPlugin.cxx *)

Module Xmp.

Definition LIBXMP_FILE_LIMIT : Z := 100 * 1024 * 1024.

Definition DEFAULT_PANNING_AMPLITUDE : Z := 50.
Definition DEFAULT_STEREO_SEPARATION : Z := 70.

(** An [InputStream] as [decoder_read] and [LockIsEOF] see it: the bytes
    not read yet, and for the reads to come how many bytes the transport
    will hand over at most ([0]: the read fails or is interrupted by a
    decoder command; no entry: as many as asked for). *)
Record InputStream := mkStream {
  content : list Byte.byte;
  transport : list Z
}.

(** [decoder_read(decoder, is, buffer, length)]: the bytes read (their
    number is the return value) and the stream after the read. *)
Definition decoder_read (input : InputStream) (len : Z)
  : list Byte.byte * InputStream :=
  let n := match transport input with
           | [] => len
           | cap :: _ => (len `min` cap)%Z
           end in
  (take (Z.to_nat n) (content input),
   mkStream (drop (Z.to_nat n) (content input)) (tail (transport input))).

(** [is.LockIsEOF()]. *)
Definition LockIsEOF (input : InputStream) : bool :=
  match content input with
  | [] => true
  | _ :: _ => false
  end.

(** A value, or the [std::runtime_error] thrown, with its [what()]. *)
Inductive Try (A : Type) :=
| Ok (a : A)
| Throw (what : string).
Arguments Ok {A} a.
Arguments Throw {A} what.

Lemma decoder_read_content input len chunk input' :
  decoder_read input len = (chunk, input') →
  content input = chunk ++ content input'.
Proof.
  unfold decoder_read. intros [= <- <-]. simpl. by rewrite take_drop.
Qed.

(** The loop of [Xmp::load_module(Decoder *decoder, InputStream &is)],
    entered with what [buffer] holds so far. *)
Equations? load_module_loop (input : InputStream) (buffer : list Byte.byte)
  : Try (list Byte.byte) * InputStream by wf (length (content input)) lt :=
load_module_loop input buffer with inspect (decoder_read input 8192) := {
  | exist _ (chunk, input') Hread with chunk => {
      | [] =>
          if LockIsEOF input' then (Ok buffer, input')
          else (Throw "i/o error while reading file", input')
      | b :: chunk' =>
          let buffer := buffer ++ b :: chunk' in
          if (LIBXMP_FILE_LIMIT <? Z.of_nat (length buffer))%Z
          then (Throw "file is too large", input')
          else load_module_loop input' buffer } }.
Proof.
  revert H0. generalize (Z.to_nat match transport input with
                                  | [] => 8192
                                  | cap :: _ => 8192 `min` cap
                                  end)%Z.
  intros n Hn. rewrite length_drop. destruct n as [|n]; [done|].
  destruct (content input); [done|]. simpl. lia.
Qed.

Definition load_module (input : InputStream) : Try (list Byte.byte) * InputStream :=
  load_module_loop input [].

(** One step of the player: the return code of [xmp_play_frame] and the
    [xmp_frame_info] that [xmp_get_frame_info] fills in. *)
Record FrameInfo := mkFrameInfo {
  play_code : Z;
  loop_count : Z;
  buffer_size : Z;
  frame_buffer : list Byte.byte
}.

(** libxmp as the plugin meets it: whether [xmp_create_context] gives a
    context, the codes of [xmp_load_module_from_memory] and
    [xmp_start_player], the module information and the frames the player
    delivers. *)
Record LibXmp := mkLibXmp {
  create_context_ok : bool;
  load_module_from_memory : list Byte.byte → Z;
  start_player : Z;
  seq_duration : Z;
  mod_name : option string;
  mod_comment : option string;
  player_frames : list FrameInfo
}.

Inductive DecoderCommand := NONE | START | STOP | SEEK.

(** What the plugin does to the decoder, to the tag handler and to the log. *)
Inductive Event :=
| LogWarning (what : string)
| decoder_initialized (rate channels duration_ms : Z)
| decoder_data (n : Z)
| xmp_seek
| decoder_command_finished
| tag_handler_invoke_duration (duration_ms : Z)
| tag_handler_invoke_tag_title (value : string)
| tag_handler_invoke_tag_comment (value : string).

(** [Xmp::Frame]. *)
Record Frame := mkFrame {
  frame_n : Z;
  frame_buf : list Byte.byte
}.

(** [Xmp::play_frame()] on the next step of the player; past the last
    frame the player has ended. *)
Definition play_frame (fi : option FrameInfo) : Frame :=
  match fi with
  | None => mkFrame 0 []
  | Some fi =>
      if negb (play_code fi =? 0)%Z then mkFrame 0 []
      else if (0 <? loop_count fi)%Z then mkFrame 0 []
      else mkFrame (buffer_size fi) (frame_buffer fi)
  end.

(** The constructor [Xmp::Xmp(Decoder *decoder, InputStream &is)]: the
    object is the loaded module, or the constructor throws. *)
Definition Xmp_new (lib : LibXmp) (input : InputStream)
  : Try (list Byte.byte) * InputStream :=
  if negb (create_context_ok lib)
  then (Throw "cannot create xmp context", input)
  else
    match load_module input with
    | (Throw what, input) => (Throw what, input)
    | (Ok buffer, input) =>
        if negb (load_module_from_memory lib buffer =? 0)%Z
        then (Throw "cannot load module", input)
        else if negb (start_player lib =? 0)%Z
        then (Throw "cannot start playing module", input)
        else (Ok buffer, input)
    end.

(** The playing loop of [libxmp_stream_decode]; [commands] are the answers
    of [decoder_data], frame by frame ([NONE] when they run out). *)
Fixpoint play (frames : list FrameInfo) (commands : list DecoderCommand)
  : list Event :=
  match frames with
  | [] => []
  | fi :: frames' =>
      let frame := play_frame (Some fi) in
      if (frame_n frame =? 0)%Z then []
      else
        let cmd := default NONE (head commands) in
        decoder_data (frame_n frame) ::
        match cmd with
        | STOP => []
        | SEEK => xmp_seek :: decoder_command_finished :: play frames' (tail commands)
        | _ => play frames' (tail commands)
        end
  end.

(** [libxmp_stream_decode(Decoder &decoder, InputStream &is)]. *)
Definition libxmp_stream_decode (lib : LibXmp) (commands : list DecoderCommand)
  (input : InputStream) : list Event :=
  match Xmp_new lib input with
  | (Throw what, _) => [LogWarning what]
  | (Ok _, _) =>
      decoder_initialized 44100 2 (seq_duration lib) ::
      play (player_frames lib) commands
  end.

(** [libxmp_scan_stream(InputStream &is, handler, handler_ctx)]. *)
Definition libxmp_scan_stream (lib : LibXmp) (input : InputStream)
  : bool * list Event :=
  match Xmp_new lib input with
  | (Throw _, _) => (false, [])
  | (Ok _, _) =>
      (true,
       tag_handler_invoke_duration (seq_duration lib) ::
       match mod_name lib with
       | Some title => [tag_handler_invoke_tag_title title]
       | None => []
       end ++
       match mod_comment lib with
       | Some comment => [tag_handler_invoke_tag_comment comment]
       | None => []
       end)
  end.

(** Decoded output: what reaches the decoder. *)
Definition is_output (e : Event) : bool :=
  match e with
  | decoder_initialized _ _ _ | decoder_data _ => true
  | _ => false
  end.

(** A libxmp that accepts every module and plays two frames. *)
Definition ex_lib : LibXmp :=
  mkLibXmp true (λ _, 0%Z) 0 1000 (Some "title") None
    [mkFrameInfo 0 0 4 []; mkFrameInfo 0 0 4 []].

(** A stream of [n] zero bytes that is read without hindrance. *)
Definition ex_stream (n : nat) : InputStream :=
  mkStream (replicate n Byte.x00) [].

End Xmp.

(** ** More notions for Archive.cxx *)

Module ArchiveMore.
Import Archive.

Section More.
Context {Tag : Type}.

(** Every directory below [d], at any depth, is marked
    [DEVICE_INARCHIVE]. *)
Inductive all_in_archive : @Directory Tag → Prop :=
| all_in_archive_intro d :
    Forall (λ c, device c = DEVICE_INARCHIVE) (children d) →
    Forall all_in_archive (children d) →
    all_in_archive d.

(** The number of songs in the tree [d], at any depth. *)
Fixpoint song_count (d : @Directory Tag) : nat :=
  match d with
  | mkDirectory _ _ _ cs ss =>
      length ss +
      (fix below (l : list Directory) : nat :=
         match l with
         | [] => 0
         | c :: l' => song_count c + below l'
         end) cs
  end.

End More.
End ArchiveMore.

(** ** More notions for Init.cxx *)

Module UpnpMore.
Import Upnp.

(** The calls [cs] use libupnp in order, [up] telling whether it is
    initialized before them: [UpnpInit] only while it is not initialized,
    the two settings and [UpnpFinish] only while it is. *)
Fixpoint orderly (up : bool) (cs : list LibCall) : bool :=
  match cs with
  | [] => true
  | UpnpInit code :: cs' =>
      negb up && orderly (code =? UPNP_E_SUCCESS)%Z cs'
  | UpnpFinish :: cs' => up && orderly false cs'
  | UpnpSetMaxContentLength _ :: cs' | ixmlRelaxParser _ :: cs' =>
      up && orderly up cs'
  end.

(** The counter is a value of its type, libupnp is initialized exactly
    when it is positive, and libupnp has been used in order. *)
Definition sound (s : State) : Prop :=
  consistent s ∧ orderly false (calls s) = true.

End UpnpMore.

(** ** More notions for XmpDecoderPlugin.cxx *)

Module XmpMore.
Import Xmp.

Definition is_data (e : Event) : bool :=
  match e with
  | decoder_data _ => true
  | _ => false
  end.

(** What the playing loop may do: hand over a frame that is not empty,
    seek, and report the seek as finished. *)
Definition is_playing (e : Event) : bool :=
  match e with
  | decoder_data n => negb (n =? 0)%Z
  | xmp_seek | decoder_command_finished => true
  | _ => false
  end.

(** A frame that [Xmp::play_frame()] hands over and the loop goes on with:
    the player succeeded, the module has not looped, the frame is not
    empty. *)
Definition playable (fi : FrameInfo) : bool :=
  (play_code fi =? 0)%Z && negb (0 <? loop_count fi)%Z &&
  negb (buffer_size fi =? 0)%Z.

(** The frames before the first one that is not [playable]. *)
Fixpoint played (frames : list FrameInfo) : list FrameInfo :=
  match frames with
  | [] => []
  | fi :: frames' => if playable fi then fi :: played frames' else []
  end.

(** A command the loop does not react to. *)
Definition is_calm (c : DecoderCommand) : bool :=
  match c with
  | NONE | START => true
  | STOP | SEEK => false
  end.

Definition is_SEEK (c : DecoderCommand) : bool :=
  match c with
  | SEEK => true
  | _ => false
  end.

(** What the loop does for the frames [ds] it hands over, in order: each
    frame and, right after it, when the answer to it is [SEEK], the seek
    and [decoder_command_finished]. *)
Definition answered (commands : list DecoderCommand) (ds : list Event)
  : list Event :=
  mjoin (imap (λ j d,
                 d :: if is_SEEK (default NONE (commands !! j))
                      then [xmp_seek; decoder_command_finished] else [])
              ds).

(** libxmp answers the same to the module [b] from [lib'] as from [lib]. *)
Definition same_answer (lib lib' : LibXmp) (b : list Byte.byte) : Prop :=
  create_context_ok lib' = create_context_ok lib ∧
  load_module_from_memory lib' b = load_module_from_memory lib b ∧
  start_player lib' = start_player lib.

End XmpMore.

(** ** src/decoder/plugins/OptimfrogDecoderPlugin.cxx *)

Module Optimfrog.

Local Open Scope Z_scope.

(** The fields of [OptimFROG_Info] the plugin reads, as the numbers and
    the string they hold. *)
Record OptimFROG_Info := mkInfo {
  info_channels : Z;
  samplerate : Z;
  bitspersample : Z;
  length_ms : Z;
  sampleType : string
}.

(** The members of [OFR] beside the library's handle. *)
Record OFR := mkOFR {
  info : OptimFROG_Info;
  is_signed : bool
}.

Inductive SampleFormat := S8 | S16.

(** A value, or the [std::runtime_error] thrown, with its [what()]. *)
Inductive Try (A : Type) :=
| Ok (a : A)
| Throw (what : string).
Arguments Ok {A} a.
Arguments Throw {A} what.

(** [std::strncmp(s, t, 4) != 0] for a [t] of four characters. *)
Definition strncmp4_differs (s t : string) : bool := negb (String.prefix t s).

(** The constructor [OFR::OFR(InputStream &file)]; [instance] tells whether
    [OptimFROG_createInstance] gives a decoder, [opened] what
    [OptimFROG_openExt] returns and [got] what [OptimFROG_getInfo] fills
    in. *)
Definition OFR_new (instance opened : bool) (got : OptimFROG_Info) : Try OFR :=
  if negb instance then Throw "cannot create decoder instance"
  else if negb opened then Throw "cannot open file"
  else
    (* 24- and 32-bit audio is converted to 16-bit. *)
    let info :=
      if 16 <? bitspersample got
      then mkInfo (info_channels got) (samplerate got) 16 (length_ms got)
                  (sampleType got)
      else got in
    if strncmp4_differs (sampleType info) "SINT" &&
       strncmp4_differs (sampleType info) "UINT"
    then Throw "invalid sample type"
    else Ok (mkOFR info
               (match sampleType info with
                | String c _ => Ascii.eqb c "S"
                | EmptyString => false
                end)).

Definition depth (ofr : OFR) : Z := bitspersample (info ofr).
Definition channels (ofr : OFR) : Z := info_channels (info ofr).
Definition rate (ofr : OFR) : Z := samplerate (info ofr).
Definition duration (ofr : OFR) : Z := length_ms (info ofr).
Definition format (ofr : OFR) : SampleFormat :=
  if depth ofr =? 16 then S16 else S8.

(** A value an [sInt32_t] holds. *)
Definition fits_sInt32 (z : Z) : bool := (- 2 ^ 31 <=? z) && (z <? 2 ^ 31).

(** The loop [for (sInt32_t i = bytes - 1; i < n; i += bytes)
    overlay[i] ^= 0x80;] of [OFR::read], entered with [i].  [None]: the
    loop reads outside the buffer or does not advance. *)
Equations? convert_loop (bytes n i : Z) (overlay : list Z) : option (list Z)
  by wf (Z.to_nat (n - i)) lt :=
convert_loop bytes n i overlay with decide (i < n) := {
  | right _ => Some overlay
  | left _ with decide (0 ≤ i < Z.of_nat (length overlay) ∧ 0 < bytes) := {
      | right _ => None
      | left _ =>
          convert_loop bytes n (i + bytes)
            (alter (λ b, Z.lxor b 0x80) (Z.to_nat i) overlay) } }.
Proof. lia. Qed.

(** [OFR::read(std::vector<std::uint8_t> &buffer)]: the return value and
    the buffer afterwards.  [OptimFROG_read], given the number of points
    asked for, tells the number it returns and the bytes it has written to
    the start of the buffer.  [None]: the behaviour is undefined or not
    fixed by the language (division by zero, a number that does not fit
    its type, an access outside the buffer). *)
Definition read (ofr : OFR) (OptimFROG_read : Z → Z * list Z) (buffer : list Z)
  : option (Z * list Z) :=
  let bytes := depth ofr ÷ 8 in
  let point_conversion := bytes * channels ofr in
  if negb (fits_sInt32 bytes && fits_sInt32 point_conversion) then None
  else if point_conversion =? 0 then None
  else
    let '(n, written) :=
      OptimFROG_read (Z.of_nat (length buffer) / (point_conversion `mod` 2 ^ 64)) in
    if (length buffer <? length written)%nat then None
    else
      let buffer := written ++ drop (length written) buffer in
      if (0 <? n) && negb (fits_sInt32 (n * point_conversion)) then None
      else
        let n := if 0 <? n then n * point_conversion else 0 in
        (* mpd doesn't support unsigned samples, so convert here. *)
        if negb (is_signed ofr) then
          match convert_loop bytes n (bytes - 1) buffer with
          | Some overlay => Some (n, overlay)
          | None => None
          end
        else Some (n, buffer).

Inductive DecoderCommand := NONE | START | STOP | SEEK.

(** What the plugin does to the decoder and to the log; [decoder_data]
    with the bytes it is given. *)
Inductive Event :=
| LogDebug (what : string)
| decoder_initialized (rate : Z) (fmt : SampleFormat) (channels duration_ms : Z)
| decoder_data (data : list Z)
| ofr_seek
| decoder_command_finished.

(** [std::vector<std::uint8_t> buffer(16384)]. *)
Definition fresh_buffer : list Z := replicate (Z.to_nat 16384) 0.

(** The loop of [optimfrog_decode]; [reads] is what [OptimFROG_read] does
    call by call (when they run out it returns 0: the end of the file),
    [commands] are the answers of [decoder_data] ([NONE] when they run
    out). *)
Fixpoint decode_loop (ofr : OFR) (reads : list (Z → Z * list Z))
  (commands : list DecoderCommand) : option (list Event) :=
  match reads with
  | [] =>
      match read ofr (λ _, (0, [])) fresh_buffer with
      | None => None
      | Some _ => Some []
      end
  | OptimFROG_read :: reads' =>
      match read ofr OptimFROG_read fresh_buffer with
      | None => None
      | Some (r, buffer) =>
          if r =? 0 then Some []
          else
            match default NONE (head commands) with
            | STOP => Some [decoder_data buffer]
            | SEEK =>
                (λ es, decoder_data buffer :: ofr_seek ::
                       decoder_command_finished :: es) <$>
                decode_loop ofr reads' (tail commands)
            | _ =>
                (λ es, decoder_data buffer :: es) <$>
                decode_loop ofr reads' (tail commands)
            end
      end
  end.

(** [optimfrog_decode(Decoder &decoder, InputStream &is)]. *)
Definition optimfrog_decode (instance opened : bool) (got : OptimFROG_Info)
  (reads : list (Z → Z * list Z)) (commands : list DecoderCommand)
  : option (list Event) :=
  match OFR_new instance opened got with
  | Throw what => Some [LogDebug what]
  | Ok ofr =>
      (λ es, decoder_initialized (rate ofr) (format ofr) (channels ofr)
               (duration ofr) :: es) <$>
      decode_loop ofr reads commands
  end.

(** The value of the bytes [bs] read as one little-endian number, without
    a sign and in two's complement. *)
Fixpoint le_unsigned (bs : list Z) : Z :=
  match bs with
  | [] => 0
  | b :: bs' => b + 256 * le_unsigned bs'
  end.

Definition le_signed (bs : list Z) : Z :=
  let u := le_unsigned bs in
  if u <? 256 ^ Z.of_nat (length bs) / 2 then u
  else u - 256 ^ Z.of_nat (length bs).

(** The bytes of the sample number [k] (from 0) in [buffer], [bytes] bytes
    each. *)
Definition sample (bytes : Z) (k : nat) (buffer : list Z) : list Z :=
  take (Z.to_nat bytes) (drop (k * Z.to_nat bytes) buffer).

Definition is_byte (b : Z) : Prop := 0 ≤ b < 256.

(** An unsigned 16 bit stereo stream. *)
Definition ex_info : OptimFROG_Info := mkInfo 2 44100 16 1000 "UINT16".
Definition ex_ofr : OFR := mkOFR ex_info false.

(** A library that reads one point: the samples 32768 and 65535. *)
Definition ex_read : Z → Z * list Z := λ _, (1, [0; 128; 255; 255]).

(** A signed 8 bit mono stream. *)
Definition ex_info_signed : OptimFROG_Info := mkInfo 1 8000 8 1000 "SINT8".

End Optimfrog.

(** * Properties *)

(** ** Archive.cxx *)

Module ArchiveProofs.
Import Archive.

(** *** Splitting at the first slash *)

Lemma strchr_take_drop s i :
  strchr s "/" = Some i → s = (str_take i s ++ String "/" (str_drop (S i) s))%string.
Proof.
  revert i; induction s as [|a s IH]; intros i; simpl; [done|].
  destruct (Ascii.eqb_spec a "/") as [->|Hne].
  - intros [= <-]. reflexivity.
  - destruct (strchr s "/") as [j|] eqn:E; simpl; [|done].
    intros [= <-].
    change (String a s = String a (str_take j s ++ String "/" (str_drop (S j) s))%string).
    f_equal. apply (IH j eq_refl).
Qed.

Lemma split_slash_not_nil s : split_slash s ≠ [].
Proof.
  destruct s as [|a s]; simpl; [done|].
  destruct (Ascii.eqb a "/"); [done|]. by destruct (split_slash s).
Qed.

Lemma split_slash_None s : strchr s "/" = None → split_slash s = [s].
Proof.
  induction s as [|a s IH]; simpl; [done|].
  destruct (Ascii.eqb a "/"); [done|].
  destruct (strchr s "/"); simpl; [done|]. intros _. by rewrite IH.
Qed.

Lemma split_slash_Some s i :
  strchr s "/" = Some i →
  split_slash s = str_take i s :: split_slash (str_drop (S i) s).
Proof.
  revert i; induction s as [|a s IH]; intros i; simpl; [done|].
  destruct (Ascii.eqb a "/").
  - by intros [= <-].
  - destruct (strchr s "/") as [j|]; simpl; [|done].
    intros [= <-]. by rewrite (IH j eq_refl).
Qed.

(** Induction along the recursion of [UpdateArchiveTree]. *)
Lemma slash_ind (P : string → Prop) :
  (∀ s, strchr s "/" = None → P s) →
  (∀ s i, strchr s "/" = Some i → P (str_drop (S i) s) → P s) →
  ∀ s, P s.
Proof.
  intros Hleaf Hdir s.
  remember (String.length s) as n eqn:Hn. revert s Hn.
  induction n as [n IH] using lt_wf_ind. intros s ->.
  destruct (strchr s "/") as [i|] eqn:E; [|by apply Hleaf].
  apply (Hdir s i E). apply (IH (String.length (str_drop (S i) s))); [|done].
  apply strchr_lt in E. rewrite str_drop_length. lia.
Qed.

Section Proofs.
Context {Tag : Type} (storage : @Storage Tag).
Implicit Types (d c : @Directory Tag) (w walk : UpdateWalk) (n name dpath : string).

Lemma UpdateArchiveTree_dir walk dpath d name tmp :
  strchr name "/" = Some tmp →
  UpdateArchiveTree storage walk dpath d name =
  let child_name := str_take tmp name in
  let made := LockMakeChild d child_name in
  let subdir := set_device (snd made) DEVICE_INARCHIVE in
  let r := UpdateArchiveTree storage walk (path_build dpath child_name) subdir
             (str_drop (S tmp) name) in
  mkResult (r_walk r) (put_child (fst (fst made)) (snd (fst made)) (r_dir r))
           (r_completion r).
Proof.
  intros H. rewrite UpdateArchiveTree_equation_1. unfold inspect.
  generalize (@eq_refl _ (strchr name "/")).
  generalize (strchr name "/") at 2 4. intros o e. destruct o as [t|]; [|congruence].
  assert (t = tmp) as -> by congruence. reflexivity.
Qed.

Lemma UpdateArchiveTree_leaf walk dpath d name :
  strchr name "/" = None →
  UpdateArchiveTree storage walk dpath d name =
  if StringIsEmpty name then
    mkResult (emit walk (LogWarning "archive returned directory only")) d Returned
  else
    match LockFindSong d name with
    | Some _ => mkResult walk d Returned
    | None =>
        match Song_LoadFile storage name dpath with
        | SongThrows => mkResult walk d Thrown
        | SongNull => mkResult walk d Returned
        | SongLoaded song =>
            mkResult
              (emit (set_modified walk)
                    (LogDefault ("added " ++ dpath ++ "/" ++ name)))
              (AddSong d song) Returned
        end
    end.
Proof.
  intros H. rewrite UpdateArchiveTree_equation_1. unfold inspect.
  generalize (@eq_refl _ (strchr name "/")).
  generalize (strchr name "/") at 2 4. intros o e. destruct o; [congruence|].
  reflexivity.
Qed.

(** *** The accessors of [Directory] *)

Lemma set_device_id d dev : device d = dev → set_device d dev = d.
Proof. intros <-. by destruct d. Qed.

Lemma FindChild_Some d n i c :
  FindChild d n = Some (i, c) ↔
  children d !! i = Some c ∧ GetName c = n ∧
  ∀ j y, children d !! j = Some y → j < i → GetName y ≠ n.
Proof. apply (list_find_Some (λ c, GetName c = n)). Qed.

Lemma FindChild_None d n :
  FindChild d n = None ↔ Forall (λ c, GetName c ≠ n) (children d).
Proof. apply (list_find_None (λ c, GetName c = n)). Qed.

Lemma FindChild_MakeChild d n :
  FindChild (MakeChild d n).1.1 n = Some ((MakeChild d n).1.2, (MakeChild d n).2).
Proof.
  unfold MakeChild. destruct (FindChild d n) as [[i c]|] eqn:E; simpl; [done|].
  apply FindChild_Some. simpl. split_and!.
  - by rewrite lookup_app_r, Nat.sub_diag.
  - done.
  - intros j y Hj Hlt. rewrite lookup_app_l in Hj by done.
    apply FindChild_None in E. by eapply Forall_lookup_1 in E.
Qed.

Lemma MakeChild_fields d n :
  GetName (MakeChild d n).1.1 = GetName d ∧
  mtime (MakeChild d n).1.1 = mtime d ∧
  device (MakeChild d n).1.1 = device d ∧
  songs (MakeChild d n).1.1 = songs d.
Proof. unfold MakeChild. by destruct (FindChild d n) as [[i c]|]. Qed.

Lemma FindChild_put_child d n i c c' :
  FindChild d n = Some (i, c) → GetName c' = n →
  FindChild (put_child d i c') n = Some (i, c').
Proof.
  intros (Hi & _ & Hmin)%FindChild_Some Hc'. apply FindChild_Some. simpl.
  split_and!; [|done|].
  - apply list_lookup_insert_eq. by eapply lookup_lt_Some.
  - intros j y Hj Hlt. rewrite list_lookup_insert_ne in Hj by lia. eauto.
Qed.

(** *** What [UpdateArchiveTree] leaves alone *)

Lemma UpdateArchiveTree_fields walk dpath d name :
  GetName (r_dir (UpdateArchiveTree storage walk dpath d name)) = GetName d ∧
  mtime (r_dir (UpdateArchiveTree storage walk dpath d name)) = mtime d ∧
  device (r_dir (UpdateArchiveTree storage walk dpath d name)) = device d.
Proof.
  revert walk dpath d. induction name as [name E|name tmp E IH] using slash_ind;
    intros walk dpath d.
  - rewrite (UpdateArchiveTree_leaf _ _ _ _ E).
    destruct (StringIsEmpty name); [done|].
    destruct (LockFindSong d name); [done|].
    by destruct (Song_LoadFile storage name dpath).
  - rewrite (UpdateArchiveTree_dir _ _ _ _ _ E). simpl.
    unfold LockMakeChild. by destruct (MakeChild_fields d (str_take tmp name)) as (-> & -> & -> & _).
Qed.

Lemma strchr_app_slash x :
  strchr x "/" = None → strchr (x ++ "/") "/" = Some (String.length x).
Proof.
  induction x as [|a x IH]; simpl; [done|].
  destruct (Ascii.eqb a "/"); [done|].
  destruct (strchr x "/"); simpl; [done|]. intros _. by rewrite IH.
Qed.

Lemma str_take_app x y : str_take (String.length x) (x ++ y)%string = x.
Proof. induction x as [|a x IH]; simpl; [by destruct y|]. by rewrite IH. Qed.

Lemma str_drop_app x a y : str_drop (S (String.length x)) (x ++ String a y) = y.
Proof. induction x as [|b x IH]; simpl; [by destruct y|]. apply IH. Qed.

(** *** Trees that only grow *)

Lemma Directory_nested_ind (P : @Directory Tag → Prop) :
  (∀ d, Forall P (children d) → P d) → ∀ d, P d.
Proof.
  intros H. fix IH 1. intros d. apply H. destruct d as [n m dv cs ss]. simpl.
  clear n m dv ss. revert cs. fix IHcs 1.
  intros [|c cs]; constructor; [apply IH|apply IHcs].
Qed.

Lemma extends_refl d : extends d d.
Proof.
  induction d as [d IH] using Directory_nested_ind.
  constructor; [done..|]. intros i c Hi. exists c. split; [done|].
  by eapply Forall_lookup_1 in IH.
Qed.

Lemma extends_trans d1 d2 d3 : extends d1 d2 → extends d2 d3 → extends d1 d3.
Proof.
  revert d2 d3. induction d1 as [d1 IH] using Directory_nested_ind.
  intros d2 d3 H12 H23. destruct H12 as [d1 d2 Hn12 Hs12 Hc12].
  destruct H23 as [d2 d3 Hn23 Hs23 Hc23].
  constructor; [congruence|auto|]. intros i c Hi.
  destruct (Hc12 i c Hi) as (c2 & Hi2 & E12).
  destruct (Hc23 i c2 Hi2) as (c3 & Hi3 & E23).
  exists c3. split; [done|]. eapply Forall_lookup_1 in IH; [|done]. eauto.
Qed.

Lemma extends_same d d' :
  GetName d' = GetName d → songs d' = songs d → children d' = children d →
  extends d d'.
Proof.
  intros Hn Hs Hc. constructor; [done|by rewrite Hs|].
  intros i c Hi. exists c. rewrite Hc. eauto using extends_refl.
Qed.

Lemma extends_put_child d i c c' :
  children d !! i = Some c → extends c c' → extends d (put_child d i c').
Proof.
  intros Hi Hc. constructor; [done..|]. simpl. intros j y Hj.
  destruct (decide (i = j)) as [->|Hne].
  - exists c'. rewrite list_lookup_insert_eq by (by eapply lookup_lt_Some).
    split; [done|]. congruence.
  - exists y. rewrite list_lookup_insert_ne by done. eauto using extends_refl.
Qed.

Lemma extends_MakeChild d n : extends d (MakeChild d n).1.1.
Proof.
  unfold MakeChild. destruct (FindChild d n) as [[i c]|]; simpl.
  - apply extends_refl.
  - constructor; [done..|]. simpl. intros i c Hi. exists c.
    eauto using lookup_app_l_Some, extends_refl.
Qed.

Lemma extends_AddSong d s : extends d (AddSong d s).
Proof.
  constructor; [done| |].
  - simpl. intros s' Hs'. apply elem_of_app. by left.
  - simpl. eauto using extends_refl.
Qed.

Lemma UpdateArchiveTree_extends walk dpath d name :
  extends d (r_dir (UpdateArchiveTree storage walk dpath d name)).
Proof.
  revert walk dpath d. induction name as [name E|name tmp E IH] using slash_ind;
    intros walk dpath d.
  - rewrite (UpdateArchiveTree_leaf _ _ _ _ E).
    destruct (StringIsEmpty name); [apply extends_refl|].
    destruct (LockFindSong d name); [apply extends_refl|].
    destruct (Song_LoadFile storage name dpath); simpl;
      auto using extends_refl, extends_AddSong.
  - rewrite (UpdateArchiveTree_dir _ _ _ _ _ E). cbv zeta. unfold LockMakeChild.
    cbn [r_dir]. eapply extends_trans; [apply (extends_MakeChild d (str_take tmp name))|].
    pose proof (FindChild_MakeChild d (str_take tmp name)) as (Hi & _ & _)%FindChild_Some.
    eapply extends_put_child; [done|].
    eapply extends_trans; [|apply IH]. by apply extends_same.
Qed.

Lemma Visit_extends paths walk dpath d :
  extends d (r_dir (Visit storage paths walk dpath d)).
Proof.
  revert walk d. induction paths as [|p paths IH]; intros walk d; simpl.
  - apply extends_refl.
  - destruct (r_completion _) eqn:E.
    + eapply extends_trans; [|apply IH]. apply UpdateArchiveTree_extends.
    + apply UpdateArchiveTree_extends.
Qed.

Lemma Visit_fields paths walk dpath d :
  GetName (r_dir (Visit storage paths walk dpath d)) = GetName d ∧
  mtime (r_dir (Visit storage paths walk dpath d)) = mtime d ∧
  device (r_dir (Visit storage paths walk dpath d)) = device d.
Proof.
  revert walk d. induction paths as [|p paths IH]; intros walk d; simpl; [done|].
  pose proof (UpdateArchiveTree_fields
    (emit walk (LogDebug ("adding archive file: " ++ p))) dpath d p) as (Hn & Hm & Hd).
  destruct (r_completion _) eqn:E; [|done].
  destruct (IH (r_walk (UpdateArchiveTree storage
    (emit walk (LogDebug ("adding archive file: " ++ p))) dpath d p))
    (r_dir (UpdateArchiveTree storage
    (emit walk (LogDebug ("adding archive file: " ++ p))) dpath d p))) as (-> & -> & ->).
  done.
Qed.

(** *** The trace of a visit *)

Lemma UpdateArchiveTree_trace walk dpath d name :
  ∃ l, trace (r_walk (UpdateArchiveTree storage walk dpath d name)) = trace walk ++ l ∧
       Forall (λ e, is_log e) l.
Proof.
  revert walk dpath d. induction name as [name E|name tmp E IH] using slash_ind;
    intros walk dpath d.
  - rewrite (UpdateArchiveTree_leaf _ _ _ _ E).
    destruct (StringIsEmpty name); [by eexists [_]; split; [done|repeat constructor]|].
    destruct (LockFindSong d name);
      [by exists []; split; [by rewrite app_nil_r|constructor]|].
    destruct (Song_LoadFile storage name dpath); simpl;
      [by eexists [_]; split; [done|repeat constructor]
      |by exists []; split; [by rewrite app_nil_r|constructor]..].
  - rewrite (UpdateArchiveTree_dir _ _ _ _ _ E). cbv zeta. cbn [r_walk]. apply IH.
Qed.

Lemma Visit_trace paths walk dpath d :
  ∃ l, trace (r_walk (Visit storage paths walk dpath d)) = trace walk ++ l ∧
       Forall (λ e, is_log e) l.
Proof.
  revert walk d. induction paths as [|p paths IH]; intros walk d; simpl.
  - exists []. split; [by rewrite app_nil_r|constructor].
  - destruct (UpdateArchiveTree_trace
      (emit walk (LogDebug ("adding archive file: " ++ p))) dpath d p) as (l1 & H1 & F1).
    simpl in H1. destruct (r_completion _) eqn:E.
    + destruct (IH (r_walk (UpdateArchiveTree storage
        (emit walk (LogDebug ("adding archive file: " ++ p))) dpath d p))
        (r_dir (UpdateArchiveTree storage
        (emit walk (LogDebug ("adding archive file: " ++ p))) dpath d p))) as (l2 & H2 & F2).
      exists (LogDebug ("adding archive file: " ++ p) :: l1 ++ l2).
      rewrite H2, H1, <- !app_assoc. split; [done|].
      constructor; [done|]. by apply Forall_app.
    + exists (LogDebug ("adding archive file: " ++ p) :: l1).
      rewrite H1, <- app_assoc. split; [done|]. by constructor.
Qed.

Lemma UpdateArchiveTree_returns walk dpath d name :
  (∀ dp e, load_tag storage dp e ≠ LoadThrows) →
  r_completion (UpdateArchiveTree storage walk dpath d name) = Returned.
Proof.
  intros Hload. revert walk dpath d.
  induction name as [name E|name tmp E IH] using slash_ind; intros walk dpath d.
  - rewrite (UpdateArchiveTree_leaf _ _ _ _ E).
    destruct (StringIsEmpty name); [done|].
    destruct (LockFindSong d name); [done|].
    unfold Song_LoadFile. specialize (Hload dpath name).
    by destruct (load_tag storage dpath name).
  - rewrite (UpdateArchiveTree_dir _ _ _ _ _ E). cbv zeta. cbn [r_completion]. apply IH.
Qed.

Lemma Visit_returns paths walk dpath d :
  (∀ dp e, load_tag storage dp e ≠ LoadThrows) →
  r_completion (Visit storage paths walk dpath d) = Returned.
Proof.
  intros Hload. revert walk d. induction paths as [|p paths IH]; intros walk d; simpl; [done|].
  rewrite UpdateArchiveTree_returns by done. apply IH.
Qed.

(** *** Entries that name a directory only *)

Lemma put_child_id d i c : children d !! i = Some c → put_child d i c = d.
Proof.
  intros Hi. unfold put_child. rewrite list_insert_id by done. by destruct d.
Qed.

(** C1 (as amended): grafting ["x/"], one segment and a trailing slash,
    returns after the warning "archive returned directory only" without
    adding a song or setting [modified]; but before the empty last segment
    is seen, the directory [x] has been found or created under the given
    directory and marked [DEVICE_INARCHIVE].  So the tree after the call is
    the tree before it exactly when it had a child [x] marked
    [DEVICE_INARCHIVE] already. *)
Theorem C1_directory_only_entry walk dpath d x :
  strchr x "/" = None →
  UpdateArchiveTree storage walk dpath d (x ++ "/") =
    mkResult (emit walk (LogWarning "archive returned directory only"))
             (put_child (LockMakeChild d x).1.1 (LockMakeChild d x).1.2
                        (set_device (LockMakeChild d x).2 DEVICE_INARCHIVE))
             Returned ∧
  (r_dir (UpdateArchiveTree storage walk dpath d (x ++ "/")) = d ↔
   ∃ i c, FindChild d x = Some (i, c) ∧ device c = DEVICE_INARCHIVE).
Proof.
  intros Hx.
  assert (UpdateArchiveTree storage walk dpath d (x ++ "/") =
    mkResult (emit walk (LogWarning "archive returned directory only"))
             (put_child (LockMakeChild d x).1.1 (LockMakeChild d x).1.2
                        (set_device (LockMakeChild d x).2 DEVICE_INARCHIVE))
             Returned) as ->.
  { rewrite (UpdateArchiveTree_dir _ _ _ _ _ (strchr_app_slash x Hx)).
    cbv zeta. rewrite str_take_app, str_drop_app.
    by rewrite UpdateArchiveTree_leaf. }
  split; [done|]. cbn [r_dir]. unfold LockMakeChild, MakeChild.
  destruct (FindChild d x) as [[i c]|] eqn:Hfind; cbn [fst snd CreateChild].
  - pose proof Hfind as (Hi & _ & _)%FindChild_Some. split.
    + intros Heq. exists i, c. split; [done|].
      apply (f_equal children) in Heq. simpl in Heq.
      apply (f_equal (λ l, l !! i)) in Heq.
      rewrite list_lookup_insert_eq, Hi in Heq by (by eapply lookup_lt_Some).
      injection Heq as Heq. by rewrite <- Heq.
    + intros (i' & c' & [= <- <-] & Hdev).
      rewrite (set_device_id _ _ Hdev). by apply put_child_id.
  - split; [|by intros (i & c & ? & _)].
    intros Heq. apply (f_equal (λ d0, length (children d0))) in Heq.
    simpl in Heq. rewrite length_insert, length_app in Heq. simpl in Heq. lia.
Qed.

(** *** The two early returns of [UpdateArchiveFile] *)

(** C3: an existing child directory whose stored modification time is the
    file's, with [walk_discard] off: the call returns at once; the tree is
    the one before the call and the trace is unchanged, so there was no
    [archive_file_open]. *)
Theorem C3_unchanged_archive_is_skipped walk ppath parent n info plugin i d :
  LockFindChild parent n = Some (i, d) →
  mtime d = info_mtime info →
  walk_discard walk = false →
  UpdateArchiveFile storage walk ppath parent n info plugin =
    mkResult walk parent Returned ∧
  opens (trace (r_walk (UpdateArchiveFile storage walk ppath parent n info plugin)))
    = opens (trace walk).
Proof.
  intros Hfind Hmtime Hdiscard.
  assert (UpdateArchiveFile storage walk ppath parent n info plugin =
          mkResult walk parent Returned) as ->; [|done].
  unfold UpdateArchiveFile. rewrite Hfind, Hmtime, Hdiscard.
  by rewrite Z.eqb_refl.
Qed.

(** C7: when [MapChildFS] gives no local path, the call returns without an
    [archive_file_open] and without touching the tree. *)
Theorem C7_not_local_is_skipped walk ppath parent n info plugin :
  MapChildFS storage ppath n = None →
  UpdateArchiveFile storage walk ppath parent n info plugin =
    mkResult walk parent Returned ∧
  opens (trace (r_walk (UpdateArchiveFile storage walk ppath parent n info plugin)))
    = opens (trace walk).
Proof.
  intros Hmap.
  assert (UpdateArchiveFile storage walk ppath parent n info plugin =
          mkResult walk parent Returned) as ->; [|done].
  unfold UpdateArchiveFile. rewrite Hmap.
  by destruct (LockFindChild parent n) as [[i d]|];
    [destruct ((mtime d =? info_mtime info)%Z && negb (walk_discard walk))|].
Qed.

(** *** [UpdateArchiveFile] once the archive is open *)

Lemma reaches_open_not_skipped walk ppath parent n info path_fs i d :
  reaches_open storage walk ppath parent n info path_fs →
  LockFindChild parent n = Some (i, d) →
  (mtime d =? info_mtime info)%Z && negb (walk_discard walk) = false.
Proof.
  intros [Hskip _] Hfind. destruct (Hskip i d Hfind) as [Hne|Hd].
  - apply Z.eqb_neq in Hne. by rewrite Hne.
  - by rewrite Hd, andb_false_r.
Qed.

Lemma UpdateArchiveFile_reuse walk ppath parent n info plugin path_fs file i d :
  reaches_open storage walk ppath parent n info path_fs →
  archive_file_open plugin path_fs = Some file →
  LockFindChild parent n = Some (i, d) →
  UpdateArchiveFile storage walk ppath parent n info plugin =
  let r := Visit storage (entries file)
             (emit (emit walk (ArchiveOpen path_fs))
                   (LogDebug ("archive " ++ path_fs ++ " opened")))
             (path_build ppath n) (set_mtime d (info_mtime info)) in
  mkResult (match r_completion r with
            | Thrown => r_walk r
            | Returned => emit (r_walk r) ArchiveClose
            end)
           (put_child parent i (r_dir r)) (r_completion r).
Proof.
  intros Hreach Hopen Hfind. unfold UpdateArchiveFile.
  rewrite Hfind, (reaches_open_not_skipped _ _ _ _ _ _ _ _ Hreach Hfind).
  destruct Hreach as [_ ->]. rewrite Hopen.
  cbv zeta. by destruct (r_completion _).
Qed.

Lemma UpdateArchiveFile_create walk ppath parent n info plugin path_fs file :
  reaches_open storage walk ppath parent n info path_fs →
  archive_file_open plugin path_fs = Some file →
  LockFindChild parent n = None →
  UpdateArchiveFile storage walk ppath parent n info plugin =
  let r := Visit storage (entries file)
             (emit (emit (emit walk (ArchiveOpen path_fs))
                         (LogDebug ("archive " ++ path_fs ++ " opened")))
                   (LogDebug ("creating archive directory: " ++ n)))
             (path_build ppath n)
             (set_mtime (set_device (new_directory n) DEVICE_INARCHIVE)
                        (info_mtime info)) in
  mkResult (match r_completion r with
            | Thrown => r_walk r
            | Returned => emit (r_walk r) ArchiveClose
            end)
           (put_child (set_children parent (children parent ++ [new_directory n]))
                      (length (children parent)) (r_dir r))
           (r_completion r).
Proof.
  intros [Hskip Hmap] Hopen Hfind. unfold UpdateArchiveFile.
  rewrite Hfind, Hmap, Hopen. cbv zeta. cbn [CreateChild].
  by destruct (r_completion _).
Qed.

(** C2 (as amended): once the archive is open, the reader is closed when the
    visit of the entries returns, and [Close] is then the last step of the
    call, after one open and logging only; entries whose song fails to load
    ([nullptr]) do not change that.  [Close] is called after [Visit], it is
    not a scoped release: it is reached when no song load throws. *)
Theorem C2_archive_closed_when_visit_returns
  walk ppath parent n info plugin path_fs file :
  reaches_open storage walk ppath parent n info path_fs →
  archive_file_open plugin path_fs = Some file →
  (r_completion (UpdateArchiveFile storage walk ppath parent n info plugin)
     = Returned →
   ∃ l, trace (r_walk (UpdateArchiveFile storage walk ppath parent n info plugin))
          = trace walk ++ [ArchiveOpen path_fs] ++ l ++ [ArchiveClose] ∧
        Forall (λ e, is_log e) l) ∧
  ((∀ dp e, load_tag storage dp e ≠ LoadThrows) →
   r_completion (UpdateArchiveFile storage walk ppath parent n info plugin)
     = Returned).
Proof.
  intros Hreach Hopen.
  destruct (LockFindChild parent n) as [[i d]|] eqn:Hfind.
  - rewrite (UpdateArchiveFile_reuse _ _ _ _ _ _ _ _ _ _ Hreach Hopen Hfind).
    cbv zeta. cbn [r_completion r_walk]. split; [|apply Visit_returns].
    intros ->. match goal with |- context [Visit storage ?ps ?w ?dp ?d0] =>
      destruct (Visit_trace ps w dp d0) as (l & Hl & Fl) end.
    eexists (_ :: l). simpl in *. rewrite Hl, <- !app_assoc. split; [done|].
    by constructor.
  - rewrite (UpdateArchiveFile_create _ _ _ _ _ _ _ _ Hreach Hopen Hfind).
    cbv zeta. cbn [r_completion r_walk]. split; [|apply Visit_returns].
    intros ->. match goal with |- context [Visit storage ?ps ?w ?dp ?d0] =>
      destruct (Visit_trace ps w dp d0) as (l & Hl & Fl) end.
    eexists (_ :: _ :: l). simpl in *. rewrite Hl, <- !app_assoc. split; [done|].
    by repeat constructor.
Qed.

Lemma NoDup_fmap_lookup {A B} (f : A → B) (l : list A) i j x y :
  NoDup (f <$> l) → l !! i = Some x → l !! j = Some y → f x = f y → i = j.
Proof.
  intros Hnd Hi Hj Hf. eapply (NoDup_lookup _ i j (f x)); [done|..].
  - by rewrite list_lookup_fmap, Hi.
  - by rewrite list_lookup_fmap, Hj, Hf.
Qed.

(** C4: when the archive cannot be opened and a child directory for it
    exists, that child leaves its parent with everything below it, and the
    call returns; with unique sibling names no lookup through the archive's
    name reaches anything afterwards.  Every call that does not end in this
    branch keeps every directory and every song of the tree. *)
Theorem C4_open_failure_deletes_the_subtree walk ppath parent n info plugin :
  (∀ i d path_fs,
     LockFindChild parent n = Some (i, d) →
     reaches_open storage walk ppath parent n info path_fs →
     archive_file_open plugin path_fs = None →
     r_completion (UpdateArchiveFile storage walk ppath parent n info plugin)
       = Returned ∧
     r_dir (UpdateArchiveFile storage walk ppath parent n info plugin)
       = set_children parent (delete i (children parent)) ∧
     (NoDup (GetName <$> children parent) →
      ∀ dirs, descend (r_dir (UpdateArchiveFile storage walk ppath parent n
                                info plugin)) (n :: dirs) = None)) ∧
  (extends parent
     (r_dir (UpdateArchiveFile storage walk ppath parent n info plugin)) ∨
   ∃ i d path_fs,
     LockFindChild parent n = Some (i, d) ∧
     reaches_open storage walk ppath parent n info path_fs ∧
     archive_file_open plugin path_fs = None).
Proof.
  split.
  - intros i d path_fs Hfind Hreach Hopen.
    assert (UpdateArchiveFile storage walk ppath parent n info plugin =
            mkResult (emit (emit walk (ArchiveOpen path_fs)) LogError)
                     (LockDeleteDirectory parent i) Returned) as ->.
    { unfold UpdateArchiveFile.
      rewrite Hfind, (reaches_open_not_skipped _ _ _ _ _ _ _ _ Hreach Hfind).
      destruct Hreach as [_ ->]. by rewrite Hopen. }
    split_and!; [done..|]. intros Hnd dirs. cbn [r_dir descend].
    assert (FindChild (LockDeleteDirectory parent i) n = None) as ->; [|done].
    apply FindChild_None, Forall_lookup. cbn [LockDeleteDirectory set_children children].
    intros j c Hj Hname. apply FindChild_Some in Hfind as (Hi & Hd & _).
    rewrite list_lookup_delete in Hj. destruct (decide (j < i)).
    + assert (j = i); [|lia]. eapply (NoDup_fmap_lookup GetName); eauto. congruence.
    + assert (S j = i); [|lia]. eapply (NoDup_fmap_lookup GetName); eauto. congruence.
  - unfold UpdateArchiveFile.
    destruct (LockFindChild parent n) as [[i d]|] eqn:Hfind.
    + destruct ((mtime d =? info_mtime info)%Z && negb (walk_discard walk)) eqn:Hskip;
        [left; apply extends_refl|].
      destruct (MapChildFS storage ppath n) as [path_fs|] eqn:Hmap;
        [|left; apply extends_refl].
      assert (reaches_open storage walk ppath parent n info path_fs) as Hreach.
      { split; [|done]. intros i' d'. rewrite Hfind. intros [= <- <-].
        apply andb_false_iff in Hskip as [Hne|Hd].
        - left. by apply Z.eqb_neq.
        - right. by apply negb_false_iff. }
      destruct (archive_file_open plugin path_fs) as [file|] eqn:Hopen.
      * left. cbv zeta. apply FindChild_Some in Hfind as (Hi & _ & _).
        assert (extends parent (put_child parent i (r_dir (Visit storage
          (entries file)
          (emit (emit walk (ArchiveOpen path_fs))
                (LogDebug ("archive " ++ path_fs ++ " opened")))
          (path_build ppath n) (set_mtime d (info_mtime info)))))) as He.
        { eapply extends_put_child; [done|].
          eapply extends_trans; [|apply Visit_extends]. by apply extends_same. }
        by destruct (r_completion _).
      * right. eauto 10.
    + simpl. destruct (MapChildFS storage ppath n) as [path_fs|] eqn:Hmap;
        [|left; apply extends_refl].
      destruct (archive_file_open plugin path_fs) as [file|] eqn:Hopen;
        [|left; apply extends_refl].
      left. cbv zeta. cbn [CreateChild].
      match goal with |- context [Visit storage ?ps ?w ?dp ?d0] =>
        generalize (Visit storage ps w dp d0) end.
      intros r.
      assert (extends parent
        (put_child (set_children parent (children parent ++ [new_directory n]))
                   (length (children parent)) (r_dir r))) as He;
        [|by destruct (r_completion r)].
      constructor; [done..|]. simpl. intros j c Hj. exists c.
      split; [|apply extends_refl].
      rewrite list_lookup_insert_ne by (apply lookup_lt_Some in Hj; lia).
      by apply lookup_app_l_Some.
Qed.

(** C8: an archive that opens.  If its directory exists with another
    modification time, the call works on that very child: the parent is the
    old parent with the child at the same position replaced by its updated
    state, which has the file's modification time, the old name and device
    marker, and still every directory and every song it had (at any depth).
    A lookup of the archive's name still leads to that position.
    If there is no such directory, one is appended, marked
    [DEVICE_INARCHIVE], and it gets the file's modification time too. *)
Theorem C8_changed_archive_reuses_its_directory
  walk ppath parent n info plugin path_fs file :
  MapChildFS storage ppath n = Some path_fs →
  archive_file_open plugin path_fs = Some file →
  (∀ i d,
     LockFindChild parent n = Some (i, d) → mtime d ≠ info_mtime info →
     ∃ d',
       r_dir (UpdateArchiveFile storage walk ppath parent n info plugin)
         = put_child parent i d' ∧
       LockFindChild (put_child parent i d') n = Some (i, d') ∧
       mtime d' = info_mtime info ∧
       GetName d' = GetName d ∧ device d' = device d ∧
       extends d d') ∧
  (LockFindChild parent n = None →
   ∃ d',
     r_dir (UpdateArchiveFile storage walk ppath parent n info plugin)
       = set_children parent (children parent ++ [d']) ∧
     mtime d' = info_mtime info ∧
     GetName d' = n ∧ device d' = DEVICE_INARCHIVE).
Proof.
  intros Hmap Hopen. split.
  - intros i d Hfind Hne.
    assert (reaches_open storage walk ppath parent n info path_fs) as Hreach.
    { split; [|done]. intros i' d'. rewrite Hfind. intros [= <- <-]. by left. }
    rewrite (UpdateArchiveFile_reuse _ _ _ _ _ _ _ _ _ _ Hreach Hopen Hfind).
    cbv zeta. cbn [r_dir].
    match goal with |- context [Visit storage ?ps ?w ?dp ?d0] =>
      pose proof (Visit_fields ps w dp d0) as (Hn & Hm & Hd);
      pose proof (Visit_extends ps w dp d0) as He;
      exists (r_dir (Visit storage ps w dp d0)) end.
    split_and!; [done| |done..|].
    + apply (FindChild_put_child parent n i d); [done|].
      apply FindChild_Some in Hfind as (_ & <- & _). by rewrite Hn.
    + eapply extends_trans; [|apply He]. by apply extends_same.
  - intros Hfind.
    assert (reaches_open storage walk ppath parent n info path_fs) as Hreach.
    { split; [|done]. intros i' d'. by rewrite Hfind. }
    rewrite (UpdateArchiveFile_create _ _ _ _ _ _ _ _ Hreach Hopen Hfind).
    cbv zeta. cbn [r_dir].
    match goal with |- context [Visit storage ?ps ?w ?dp ?d0] =>
      pose proof (Visit_fields ps w dp d0) as (Hn & Hm & Hd);
      exists (r_dir (Visit storage ps w dp d0)) end.
    split_and!; [|done..]. unfold put_child. cbn [set_children children].
    f_equal. rewrite insert_app_r_alt, Nat.sub_diag by done. done.
Qed.

(** *** An entry path becomes a chain of directories and a song *)

Lemma dirs_of_cons x l : l ≠ [] → dirs_of (x :: l) = x :: dirs_of l.
Proof. by destruct l. Qed.

Lemma leaf_of_cons x l : l ≠ [] → leaf_of (x :: l) = leaf_of l.
Proof. by destruct l. Qed.

Lemma has_chain_cons d x l :
  l ≠ [] →
  has_chain d (x :: l) ↔
  ∃ i c, children d !! i = Some c ∧ GetName c = x ∧
         device c = DEVICE_INARCHIVE ∧ has_chain c l.
Proof. by destruct l. Qed.

Lemma FindSong_Some d n s :
  FindSong d n = Some s → s ∈ songs d ∧ uri s = n.
Proof.
  unfold FindSong. intros ([i s'] & Hfind & Heq)%fmap_Some.
  simpl in Heq. subst s.
  apply (list_find_Some (λ s, uri s = n)) in Hfind as (Hi & Hn & _).
  split; [|done]. by eapply list_elem_of_lookup_2.
Qed.

Lemma FindSong_None d n :
  FindSong d n = None ↔ Forall (λ s, uri s ≠ n) (songs d).
Proof.
  unfold FindSong. rewrite fmap_None. apply (list_find_None (λ s, uri s = n)).
Qed.

Lemma FindSong_AddSong d n s :
  FindSong d n = None → uri s = n → FindSong (AddSong d s) n = Some s.
Proof.
  intros Hnone%FindSong_None Hs. unfold FindSong, AddSong. cbn [set_songs songs].
  apply fmap_Some. exists (length (songs d), s). split; [|done].
  apply (list_find_Some (λ s, uri s = n)). split_and!; [|done|].
  - by rewrite lookup_app_r, Nat.sub_diag.
  - intros j y Hj Hlt. rewrite lookup_app_l in Hj by done.
    by eapply Forall_lookup_1 in Hnone.
Qed.

Lemma UpdateArchiveTree_child walk dpath d name tmp :
  strchr name "/" = Some tmp →
  ∃ i c d1,
    MakeChild d (str_take tmp name) = (d1, i, c) ∧
    FindChild d1 (str_take tmp name) = Some (i, c) ∧
    UpdateArchiveTree storage walk dpath d name =
      let r := UpdateArchiveTree storage walk
                 (path_build dpath (str_take tmp name))
                 (set_device c DEVICE_INARCHIVE) (str_drop (S tmp) name) in
      mkResult (r_walk r) (put_child d1 i (r_dir r)) (r_completion r).
Proof.
  intros E. pose proof (FindChild_MakeChild d (str_take tmp name)) as Hf.
  rewrite (UpdateArchiveTree_dir _ _ _ _ _ E). unfold LockMakeChild.
  destruct (MakeChild d (str_take tmp name)) as [[d1 i] c].
  by exists i, c, d1.
Qed.

(** C5: for an entry path whose last segment is not empty and whose song
    loads, the tree after [UpdateArchiveTree] holds, below the directory,
    one directory per segment before the last, named by it and marked
    [DEVICE_INARCHIVE], each in the one before, and in the last of them a
    song named by the last segment. *)
Theorem C5_entry_path_becomes_a_chain walk dpath d p t :
  leaf_of (split_slash p) ≠ "" →
  load_tag storage (path_under dpath (dirs_of (split_slash p)))
                   (leaf_of (split_slash p)) = LoadSong t →
  r_completion (UpdateArchiveTree storage walk dpath d p) = Returned ∧
  has_chain (r_dir (UpdateArchiveTree storage walk dpath d p)) (split_slash p).
Proof.
  revert walk dpath d. induction p as [p E|p tmp E IH] using slash_ind;
    intros walk dpath d.
  - rewrite (split_slash_None _ E). cbn [leaf_of dirs_of path_under foldl has_chain].
    intros Hne Hload. rewrite (UpdateArchiveTree_leaf _ _ _ _ E).
    destruct p as [|a p]; [done|]. cbn [StringIsEmpty].
    destruct (LockFindSong d (String a p)) as [s|] eqn:Hfind.
    + split; [done|]. exists s. by apply FindSong_Some.
    + unfold Song_LoadFile. rewrite Hload. split; [done|].
      exists (mkSong (String a p) t). split; [|done]. simpl.
      apply elem_of_app. right. by apply list_elem_of_singleton.
  - rewrite (split_slash_Some _ _ E).
    pose proof (split_slash_not_nil (str_drop (S tmp) p)) as Hnil.
    rewrite dirs_of_cons, leaf_of_cons, has_chain_cons by done.
    cbn [path_under foldl]. intros Hne Hload.
    destruct (UpdateArchiveTree_child walk dpath d p tmp E) as (i & c & d1 & _ & Hf & ->).
    cbv zeta. cbn [r_completion r_dir].
    destruct (IH walk (path_build dpath (str_take tmp p))
                 (set_device c DEVICE_INARCHIVE) Hne Hload) as [Hret Hchain].
    split; [done|].
    pose proof (UpdateArchiveTree_fields walk (path_build dpath (str_take tmp p))
      (set_device c DEVICE_INARCHIVE) (str_drop (S tmp) p)) as (Hn & _ & Hd).
    apply FindChild_Some in Hf as (Hi & Hc & _).
    eexists i, _. split_and!; [|by rewrite Hn|by rewrite Hd|done].
    simpl. apply list_lookup_insert_eq. by eapply lookup_lt_Some.
Qed.

(** *** Visiting an entry twice *)

Lemma put_child_put_child d i c : put_child (put_child d i c) i c = put_child d i c.
Proof. unfold put_child. simpl. by rewrite list_insert_insert_eq. Qed.

Lemma filter_Forall_not {A} (P : A → Prop) `{!∀ x, Decision (P x)} (l : list A) :
  Forall (λ x, ¬ P x) l → filter P l = [].
Proof. induction 1; [done|]. by rewrite filter_cons_False. Qed.

Lemma count_songs_found d n s :
  NoDup (uri <$> songs d) → FindSong d n = Some s → count_songs d n = 1.
Proof.
  unfold count_songs. intros Hnd (Hin & Hn)%FindSong_Some.
  induction (songs d) as [|x l IH]; [by apply elem_of_nil in Hin|].
  rewrite fmap_cons in Hnd. apply NoDup_cons in Hnd as [Hx Hnd].
  rewrite filter_cons. destruct (decide (uri x = n)) as [Hxn|Hxn].
  - simpl. f_equal. rewrite filter_Forall_not; [done|].
    apply Forall_forall. intros y Hy Hyn. apply Hx.
    rewrite Hxn, <- Hyn. by apply list_elem_of_fmap_2.
  - apply elem_of_cons in Hin as [->|Hin]; [done|]. by apply IH.
Qed.

Lemma count_songs_added d n s :
  FindSong d n = None → uri s = n → count_songs (AddSong d s) n = 1.
Proof.
  unfold count_songs. intros Hnone%FindSong_None Hs. simpl.
  rewrite filter_app, length_app, filter_Forall_not by done.
  by rewrite filter_cons_True.
Qed.

Lemma wf_new_directory n : wf_directory (new_directory (Tag:=Tag) n).
Proof. constructor; simpl; constructor. Qed.

Lemma wf_set_device d dev : wf_directory d → wf_directory (set_device d dev).
Proof. intros [d' ? ? ?]. by constructor. Qed.

Lemma wf_MakeChild d n : wf_directory d → wf_directory (MakeChild d n).2.
Proof.
  intros [d' _ _ Hc]. unfold MakeChild.
  destruct (FindChild d' n) as [[i c]|] eqn:E; simpl; [|apply wf_new_directory].
  apply FindChild_Some in E as (Hi & _ & _). by eapply Forall_lookup_1 in Hc.
Qed.

Lemma UpdateArchiveTree_one_song walk dpath d p t :
  wf_directory d →
  leaf_of (split_slash p) ≠ "" →
  load_tag storage (path_under dpath (dirs_of (split_slash p)))
                   (leaf_of (split_slash p)) = LoadSong t →
  ∃ dfin,
    descend (r_dir (UpdateArchiveTree storage walk dpath d p))
            (dirs_of (split_slash p)) = Some dfin ∧
    count_songs dfin (leaf_of (split_slash p)) = 1.
Proof.
  revert walk dpath d. induction p as [p E|p tmp E IH] using slash_ind;
    intros walk dpath d Hwf.
  - rewrite (split_slash_None _ E). cbn [leaf_of dirs_of path_under foldl descend].
    intros Hne Hload. rewrite (UpdateArchiveTree_leaf _ _ _ _ E).
    destruct p as [|a p]; [done|]. cbn [StringIsEmpty].
    destruct (LockFindSong d (String a p)) as [s|] eqn:Hfind.
    + eexists. split; [done|]. cbn [r_dir]. destruct Hwf as [d Hs _ _].
      by eapply count_songs_found.
    + unfold Song_LoadFile. rewrite Hload. eexists. split; [done|].
      by apply count_songs_added.
  - rewrite (split_slash_Some _ _ E).
    pose proof (split_slash_not_nil (str_drop (S tmp) p)) as Hnil.
    rewrite dirs_of_cons, leaf_of_cons by done.
    cbn [path_under foldl descend]. intros Hne Hload.
    destruct (UpdateArchiveTree_child walk dpath d p tmp E) as (i & c & d1 & Hmk & Hf & ->).
    cbv zeta. cbn [r_dir].
    pose proof (UpdateArchiveTree_fields walk (path_build dpath (str_take tmp p))
      (set_device c DEVICE_INARCHIVE) (str_drop (S tmp) p)) as (Hn & _ & _).
    cbn [GetName set_device] in Hn.
    assert (GetName c = str_take tmp p) as Hc
      by (by apply FindChild_Some in Hf as (_ & ? & _)).
    rewrite Hc in Hn.
    rewrite (FindChild_put_child d1 _ i c _ Hf Hn).
    apply IH; [|done..]. apply wf_set_device.
    pose proof (wf_MakeChild d (str_take tmp p) Hwf) as Hw. by rewrite Hmk in Hw.
Qed.

End Proofs.

(** *** Visiting an entry a second time *)

Section Revisit.
Context {Tag : Type} (storage storage2 : @Storage Tag).
Implicit Types (d c : @Directory Tag) (w walk : UpdateWalk) (n name dpath : string).

Lemma StringIsEmpty_false n : n ≠ "" → StringIsEmpty n = false.
Proof. by destruct n. Qed.

Lemma count_songs_none d n : FindSong d n = None ↔ count_songs d n = 0.
Proof.
  rewrite FindSong_None. unfold count_songs. split.
  - intros H. by rewrite filter_Forall_not.
  - intros H. apply Forall_forall. intros s Hs Hn.
    assert (s ∈ filter (λ s, uri s = n) (songs d)) as Hin
      by (by apply list_elem_of_filter).
    destruct (filter (λ s, uri s = n) (songs d)); [by apply elem_of_nil in Hin|done].
Qed.

(** The second visit of [p], with a storage that may answer differently
    from the one of the first visit. *)
Lemma UpdateArchiveTree_revisit walk1 walk2 dpath d p :
  ∃ dfin,
    descend (r_dir (UpdateArchiveTree storage walk1 dpath d p))
            (dirs_of (split_slash p)) = Some dfin ∧
    (leaf_of (split_slash p) = "" ∨
     FindSong dfin (leaf_of (split_slash p)) ≠ None ∨
     (∀ t, load_tag storage2 (path_under dpath (dirs_of (split_slash p)))
                    (leaf_of (split_slash p)) ≠ LoadSong t) →
     r_dir (UpdateArchiveTree storage2 walk2 dpath
              (r_dir (UpdateArchiveTree storage walk1 dpath d p)) p) =
       r_dir (UpdateArchiveTree storage walk1 dpath d p) ∧
     modified (r_walk (UpdateArchiveTree storage2 walk2 dpath
              (r_dir (UpdateArchiveTree storage walk1 dpath d p)) p)) =
       modified walk2) ∧
    (∀ t,
       leaf_of (split_slash p) ≠ "" →
       FindSong dfin (leaf_of (split_slash p)) = None →
       load_tag storage2 (path_under dpath (dirs_of (split_slash p)))
                (leaf_of (split_slash p)) = LoadSong t →
       modified (r_walk (UpdateArchiveTree storage2 walk2 dpath
                (r_dir (UpdateArchiveTree storage walk1 dpath d p)) p)) = true ∧
       ∃ dfin2,
         descend (r_dir (UpdateArchiveTree storage2 walk2 dpath
                    (r_dir (UpdateArchiveTree storage walk1 dpath d p)) p))
                 (dirs_of (split_slash p)) = Some dfin2 ∧
         count_songs dfin2 (leaf_of (split_slash p)) = 1).
Proof.
  revert walk1 walk2 dpath d. induction p as [p E|p tmp E IH] using slash_ind;
    intros walk1 walk2 dpath d.
  - rewrite (split_slash_None _ E). cbn [leaf_of dirs_of path_under foldl descend].
    set (d1 := r_dir (UpdateArchiveTree storage walk1 dpath d p)).
    exists d1. split; [done|].
    rewrite (UpdateArchiveTree_leaf storage2 walk2 _ _ _ E). split.
    + intros Hcase. destruct (StringIsEmpty p) eqn:Hp; [done|].
      unfold LockFindSong. destruct (FindSong d1 p) as [s|] eqn:Hfind; [done|].
      unfold Song_LoadFile.
      destruct (load_tag storage2 dpath p) as [t| |] eqn:Hload; [|done..].
      destruct Hcase as [->|[Hsong|Hno]]; [done|done|]. by destruct (Hno t).
    + intros t Hne Hfind Hload. rewrite (StringIsEmpty_false _ Hne).
      unfold LockFindSong, Song_LoadFile. rewrite Hfind, Hload. cbn.
      split; [done|]. eexists. split; [done|]. by apply count_songs_added.
  - rewrite (split_slash_Some _ _ E).
    pose proof (split_slash_not_nil (str_drop (S tmp) p)) as Hnil.
    rewrite dirs_of_cons, leaf_of_cons by done.
    cbn [path_under foldl descend].
    destruct (UpdateArchiveTree_child storage walk1 dpath d p tmp E)
      as (i & c & d1 & _ & Hf & ->).
    cbv zeta. cbn [r_dir].
    pose proof (UpdateArchiveTree_fields storage walk1
      (path_build dpath (str_take tmp p))
      (set_device c DEVICE_INARCHIVE) (str_drop (S tmp) p)) as (Hn & _ & Hd).
    cbn [GetName device set_device] in Hn, Hd.
    assert (GetName c = str_take tmp p) as Hc
      by (by apply FindChild_Some in Hf as (_ & ? & _)).
    rewrite Hc in Hn.
    set (c1 := r_dir (UpdateArchiveTree storage walk1
                        (path_build dpath (str_take tmp p))
                        (set_device c DEVICE_INARCHIVE) (str_drop (S tmp) p))) in *.
    pose proof (FindChild_put_child d1 _ i c c1 Hf Hn) as Hf1.
    rewrite Hf1.
    rewrite (UpdateArchiveTree_dir storage2 walk2 _ _ _ _ E). cbv zeta.
    unfold LockMakeChild, MakeChild. rewrite Hf1. cbn [fst snd r_dir r_walk].
    rewrite (set_device_id _ _ Hd).
    destruct (IH walk1 walk2 (path_build dpath (str_take tmp p))
                (set_device c DEVICE_INARCHIVE)) as (dfin & Hdesc & Hsame & Hadd).
    fold c1 in Hdesc, Hsame, Hadd.
    exists dfin. split; [done|]. split.
    + intros Hcase. destruct (Hsame Hcase) as [H1 H2].
      rewrite H1, H2. by rewrite put_child_put_child.
    + intros t Hne Hfind Hload.
      destruct (Hadd t Hne Hfind Hload) as (Hm & dfin2 & Hdesc2 & Hcount).
      split; [done|]. exists dfin2. split; [|done].
      pose proof (UpdateArchiveTree_fields storage2 walk2
        (path_build dpath (str_take tmp p)) c1 (str_drop (S tmp) p)) as (Hn2 & _ & _).
      rewrite Hn in Hn2.
      by rewrite (FindChild_put_child _ _ i c1 _ Hf1 Hn2).
Qed.

(** C6 (as amended): after a first visit of an entry path, a second visit,
    whose [Song::LoadFile] may answer differently, changes neither the tree
    nor the [modified] flag whenever the last segment is empty, or the
    first visit left a song of that name in the directory the path leads
    to, or the load again yields no song.  Only when the first visit left
    no song there and the load now succeeds does the second visit add the
    song, once, and set [modified].  When the last segment is not empty,
    the first load succeeds and no two siblings of the tree share a name,
    that directory holds exactly one song of that name after the first
    visit and after both.  (An entry whose last segment is empty, or whose
    song never loads, gets no song at all.) *)
Theorem C6_second_visit_changes_nothing walk1 walk2 dpath d p :
  ∃ dfin,
    descend (r_dir (UpdateArchiveTree storage walk1 dpath d p))
            (dirs_of (split_slash p)) = Some dfin ∧
    (leaf_of (split_slash p) = "" ∨
     0 < count_songs dfin (leaf_of (split_slash p)) ∨
     (∀ t, load_tag storage2 (path_under dpath (dirs_of (split_slash p)))
                    (leaf_of (split_slash p)) ≠ LoadSong t) →
     r_dir (UpdateArchiveTree storage2 walk2 dpath
              (r_dir (UpdateArchiveTree storage walk1 dpath d p)) p) =
       r_dir (UpdateArchiveTree storage walk1 dpath d p) ∧
     modified (r_walk (UpdateArchiveTree storage2 walk2 dpath
              (r_dir (UpdateArchiveTree storage walk1 dpath d p)) p)) =
       modified walk2) ∧
    (∀ t,
       leaf_of (split_slash p) ≠ "" →
       count_songs dfin (leaf_of (split_slash p)) = 0 →
       load_tag storage2 (path_under dpath (dirs_of (split_slash p)))
                (leaf_of (split_slash p)) = LoadSong t →
       modified (r_walk (UpdateArchiveTree storage2 walk2 dpath
                (r_dir (UpdateArchiveTree storage walk1 dpath d p)) p)) = true ∧
       ∃ dfin2,
         descend (r_dir (UpdateArchiveTree storage2 walk2 dpath
                    (r_dir (UpdateArchiveTree storage walk1 dpath d p)) p))
                 (dirs_of (split_slash p)) = Some dfin2 ∧
         count_songs dfin2 (leaf_of (split_slash p)) = 1) ∧
    (∀ t,
       wf_directory d →
       leaf_of (split_slash p) ≠ "" →
       load_tag storage (path_under dpath (dirs_of (split_slash p)))
                (leaf_of (split_slash p)) = LoadSong t →
       count_songs dfin (leaf_of (split_slash p)) = 1 ∧
       r_dir (UpdateArchiveTree storage2 walk2 dpath
                (r_dir (UpdateArchiveTree storage walk1 dpath d p)) p) =
         r_dir (UpdateArchiveTree storage walk1 dpath d p)).
Proof.
  destruct (UpdateArchiveTree_revisit walk1 walk2 dpath d p)
    as (dfin & Hdesc & Hsame & Hadd).
  assert (∀ n, 0 < count_songs dfin n → FindSong dfin n ≠ None) as Hpos.
  { intros n Hn Hnone. apply count_songs_none in Hnone. lia. }
  exists dfin. split; [done|]. split_and!.
  - intros [H|[H|H]]; apply Hsame; [by left|right; left; by apply Hpos|by right; right].
  - intros t Hne Hzero. apply Hadd; [done|]. by apply count_songs_none.
  - intros t Hwf Hne Hload.
    destruct (UpdateArchiveTree_one_song storage walk1 dpath d p t Hwf Hne Hload)
      as (dfin' & Hdesc' & Hone).
    assert (dfin' = dfin) as -> by congruence. split; [done|].
    apply Hsame. right. left. apply Hpos. lia.
Qed.

End Revisit.

(** *** The model at work *)

(** Scenario A of the spec. *)
Example scenario_A :
  r_dir (Visit ex_storage ["a/b.it"; "a/c.it"; "d.mod"] ex_walk "mods.zip" ex_root) =
  mkDirectory "mods.zip" 7 DEVICE_INARCHIVE
    [mkDirectory "a" 0 DEVICE_INARCHIVE [] [mkSong "b.it" (); mkSong "c.it" ()]]
    [mkSong "d.mod" ()].
Proof. by vm_compute. Qed.

(** C1 as the specification states it (scenario B) does not hold: on an
    empty archive directory the entry ["x/"] creates the directory [x]. *)
Lemma C1_counterexample :
  r_dir (UpdateArchiveTree ex_storage ex_walk "mods.zip" ex_root "x/") =
    mkDirectory "mods.zip" 7 DEVICE_INARCHIVE
      [mkDirectory "x" 0 DEVICE_INARCHIVE [] []] [] ∧
  r_dir (UpdateArchiveTree ex_storage ex_walk "mods.zip" ex_root "x/") ≠ ex_root.
Proof. split; [by vm_compute|]. vm_compute. discriminate. Qed.

Lemma C1_witness :
  strchr "x" "/" = None ∧
  UpdateArchiveTree ex_storage ex_walk "mods.zip" ex_root ("x" ++ "/") =
  mkResult (emit ex_walk (LogWarning "archive returned directory only"))
           (put_child (LockMakeChild ex_root "x").1.1 (LockMakeChild ex_root "x").1.2
                      (set_device (LockMakeChild ex_root "x").2 DEVICE_INARCHIVE))
           Returned.
Proof.
  split; [reflexivity|].
  apply (C1_directory_only_entry ex_storage ex_walk "mods.zip" ex_root "x").
  reflexivity.
Defined.

Lemma ex_music_reaches_open st walk t :
  t ≠ 7%Z →
  MapChildFS st "" "mods.zip" = Some "/music/mods.zip" →
  reaches_open st walk "" ex_music "mods.zip" (mkInfo t) "/music/mods.zip".
Proof.
  intros Ht Hmap. split; [|done].
  intros i d H. vm_compute in H. injection H as <- <-. left. simpl. congruence.
Defined.

(** C2 as the specification states it does not hold: when loading a song
    throws, the exception leaves [UpdateArchiveFile] before [Close]; the
    archive was opened once and is never closed. *)
Lemma C2_counterexample :
  r_completion (UpdateArchiveFile ex_storage_throws ex_walk "" ex_music
                  "mods.zip" (mkInfo 9) ex_plugin) = Thrown ∧
  opens (trace (r_walk (UpdateArchiveFile ex_storage_throws ex_walk "" ex_music
                          "mods.zip" (mkInfo 9) ex_plugin))) = 1 ∧
  closes (trace (r_walk (UpdateArchiveFile ex_storage_throws ex_walk "" ex_music
                           "mods.zip" (mkInfo 9) ex_plugin))) = 0.
Proof. by vm_compute. Qed.

Lemma C2_witness :
  r_completion (UpdateArchiveFile ex_storage_null ex_walk "" ex_music
                  "mods.zip" (mkInfo 9) ex_plugin) = Returned.
Proof.
  apply (C2_archive_closed_when_visit_returns ex_storage_null ex_walk ""
           ex_music "mods.zip" (mkInfo 9) ex_plugin "/music/mods.zip" ex_file).
  - apply ex_music_reaches_open; [lia|reflexivity].
  - reflexivity.
  - intros dp e. simpl. discriminate.
Defined.

Lemma C3_witness :
  UpdateArchiveFile ex_storage ex_walk "" ex_music "mods.zip" (mkInfo 7) ex_plugin
    = mkResult ex_walk ex_music Returned.
Proof.
  apply (C3_unchanged_archive_is_skipped ex_storage ex_walk "" ex_music
           "mods.zip" (mkInfo 7) ex_plugin 1
           (mkDirectory "mods.zip" 7 DEVICE_INARCHIVE [] [mkSong "old.mod" ()]));
    reflexivity.
Defined.

Lemma C4_witness :
  r_dir (UpdateArchiveFile ex_storage ex_walk "" ex_music "mods.zip" (mkInfo 9)
           ex_plugin_fails) =
  mkDirectory "" 0 (DeviceId 1) [mkDirectory "albums" 3 (DeviceId 1) [] []] [].
Proof.
  apply (proj1 (C4_open_failure_deletes_the_subtree ex_storage ex_walk ""
                  ex_music "mods.zip" (mkInfo 9) ex_plugin_fails) 1
           (mkDirectory "mods.zip" 7 DEVICE_INARCHIVE [] [mkSong "old.mod" ()])
           "/music/mods.zip").
  - reflexivity.
  - apply ex_music_reaches_open; [lia|reflexivity].
  - reflexivity.
Defined.

Lemma C5_witness :
  has_chain (r_dir (UpdateArchiveTree ex_storage ex_walk "mods.zip" ex_root
                      "sub/inner/track.it"))
            ["sub"; "inner"; "track.it"].
Proof.
  apply (C5_entry_path_becomes_a_chain ex_storage ex_walk "mods.zip" ex_root
           "sub/inner/track.it" ()).
  - vm_compute. discriminate.
  - reflexivity.
Defined.

(** C6 as stated for every entry path does not hold: an entry whose song
    cannot be loaded leaves no song behind, however often it is visited. *)
Lemma C6_counterexample :
  descend (r_dir (UpdateArchiveTree ex_storage_null ex_walk "mods.zip"
             (r_dir (UpdateArchiveTree ex_storage_null ex_walk "mods.zip"
                       ex_root "d.mod")) "d.mod"))
          (dirs_of (split_slash "d.mod")) = Some ex_root ∧
  count_songs ex_root "d.mod" = 0.
Proof. by vm_compute. Qed.

Lemma C6_witness :
  (∃ dfin,
     descend (r_dir (UpdateArchiveTree ex_storage ex_walk "mods.zip"
                (r_dir (UpdateArchiveTree ex_storage ex_walk "mods.zip"
                          ex_root "a/b.it")) "a/b.it"))
             ["a"] = Some dfin ∧
     count_songs dfin "b.it" = 1) ∧
  modified (r_walk (UpdateArchiveTree ex_storage ex_walk "mods.zip"
              (r_dir (UpdateArchiveTree ex_storage_null ex_walk "mods.zip"
                        ex_root "d.mod")) "d.mod")) = true.
Proof.
  split.
  - destruct (C6_second_visit_changes_nothing ex_storage ex_storage ex_walk ex_walk
                "mods.zip" ex_root "a/b.it") as (dfin & Hdesc & _ & _ & Hone).
    destruct (Hone ()) as [Hcount Hsame].
    + repeat constructor.
    + vm_compute. discriminate.
    + reflexivity.
    + exists dfin. rewrite Hsame. by split.
  - destruct (C6_second_visit_changes_nothing ex_storage_null ex_storage ex_walk
                ex_walk "mods.zip" ex_root "d.mod") as (dfin & Hdesc & _ & Hadd & _).
    vm_compute in Hdesc. injection Hdesc as <-.
    destruct (Hadd ()) as [Hmod _]; [| | |exact Hmod].
    + vm_compute. discriminate.
    + reflexivity.
    + reflexivity.
Defined.

(** A song that did not load at the first visit is loaded at the second:
    the second visit then does change the tree and sets [modified]. *)
Example revisit_after_failed_load :
  count_songs (r_dir (UpdateArchiveTree ex_storage_null ex_walk "mods.zip"
                        ex_root "d.mod")) "d.mod" = 0 ∧
  count_songs (r_dir (UpdateArchiveTree ex_storage ex_walk "mods.zip"
                 (r_dir (UpdateArchiveTree ex_storage_null ex_walk "mods.zip"
                           ex_root "d.mod")) "d.mod")) "d.mod" = 1 ∧
  modified (r_walk (UpdateArchiveTree ex_storage ex_walk "mods.zip"
                 (r_dir (UpdateArchiveTree ex_storage_null ex_walk "mods.zip"
                           ex_root "d.mod")) "d.mod")) = true.
Proof. by vm_compute. Qed.

Lemma C7_witness :
  UpdateArchiveFile ex_storage_remote ex_walk "" ex_music "mods.zip" (mkInfo 9)
    ex_plugin = mkResult ex_walk ex_music Returned.
Proof.
  apply (C7_not_local_is_skipped ex_storage_remote ex_walk "" ex_music
           "mods.zip" (mkInfo 9) ex_plugin).
  reflexivity.
Defined.

Lemma C8_witness :
  ∃ d',
    r_dir (UpdateArchiveFile ex_storage ex_walk "" ex_music "mods.zip" (mkInfo 9)
             ex_plugin) = put_child ex_music 1 d' ∧
    LockFindChild (put_child ex_music 1 d') "mods.zip" = Some (1, d') ∧
    mtime d' = 9%Z ∧ GetName d' = "mods.zip" ∧ device d' = DEVICE_INARCHIVE ∧
    extends (mkDirectory "mods.zip" 7 DEVICE_INARCHIVE [] [mkSong "old.mod" ()]) d'.
Proof.
  apply (proj1 (C8_changed_archive_reuses_its_directory ex_storage ex_walk ""
                  ex_music "mods.zip" (mkInfo 9) ex_plugin "/music/mods.zip"
                  ex_file eq_refl eq_refl) 1
           (mkDirectory "mods.zip" 7 DEVICE_INARCHIVE [] [mkSong "old.mod" ()])).
  - reflexivity.
  - simpl. lia.
Defined.

(** Scenario D of the spec, run: the old song is still there, the songs of
    the archive are added, the modification time is the file's. *)
Example scenario_D :
  r_dir (UpdateArchiveFile ex_storage ex_walk "" ex_music "mods.zip" (mkInfo 9)
           ex_plugin) =
  mkDirectory "" 0 (DeviceId 1)
    [mkDirectory "albums" 3 (DeviceId 1) [] [];
     mkDirectory "mods.zip" 9 DEVICE_INARCHIVE
       [mkDirectory "a" 0 DEVICE_INARCHIVE [] [mkSong "b.it" (); mkSong "c.it" ()]]
       [mkSong "old.mod" (); mkSong "d.mod" ()]]
    [].
Proof. by vm_compute. Qed.

End ArchiveProofs.

(** ** Init.cxx *)

Module UpnpProofs.
Import Upnp.

Local Open Scope Z_scope.

Lemma inits_init code cs : inits (GlobalInit code :: cs) = 1 + inits cs.
Proof. unfold inits. rewrite filter_cons_True by done. simpl length. lia. Qed.

Lemma inits_finish cs : inits (GlobalFinish :: cs) = inits cs.
Proof. unfold inits. rewrite filter_cons_False by (simpl; tauto). done. Qed.

Lemma finishes_init code cs : finishes (GlobalInit code :: cs) = finishes cs.
Proof. unfold finishes. rewrite filter_cons_False by (simpl; tauto). done. Qed.

Lemma finishes_finish cs : finishes (GlobalFinish :: cs) = 1 + finishes cs.
Proof. unfold finishes. rewrite filter_cons_True by done. simpl length. lia. Qed.

Lemma inits_nonneg cs : 0 ≤ inits cs.
Proof. unfold inits. lia. Qed.

Lemma wrap_small z : 0 ≤ z < UINT_MODULUS → wrap z = z.
Proof. apply Z.mod_small. Qed.

Lemma lib_initialized_snoc b cs c :
  lib_initialized b (cs ++ [c]) =
  match c with
  | UpnpInit code => if code =? UPNP_E_SUCCESS then true else lib_initialized b cs
  | UpnpFinish => false
  | _ => lib_initialized b cs
  end.
Proof. unfold lib_initialized. by rewrite foldl_app. Qed.

Lemma UpnpGlobalInit_step s :
  consistent s → upnp_ref s + 1 < UINT_MODULUS →
  ∃ s', UpnpGlobalInit UPNP_E_SUCCESS s = Returned s' ∧
        upnp_ref s' = upnp_ref s + 1 ∧ consistent s'.
Proof.
  intros [[Hlo Hhi] Hlib] Hroom. unfold UpnpGlobalInit, DoInit.
  destruct (upnp_ref s =? 0) eqn:E.
  - apply Z.eqb_eq in E. simpl. eexists. split; [done|]. simpl.
    rewrite E, wrap_small by (unfold UINT_MODULUS; lia). split; [done|].
    split; [unfold valid, UINT_MODULUS; simpl; lia|]. simpl.
    rewrite !lib_initialized_snoc. simpl. split; [lia|done].
  - apply Z.eqb_neq in E. eexists. split; [done|]. simpl.
    rewrite wrap_small by lia. split; [done|].
    split; [unfold valid; simpl; lia|]. simpl. rewrite Hlib. lia.
Qed.

Lemma UpnpGlobalFinish_step s :
  consistent s → 0 < upnp_ref s →
  ∃ s', UpnpGlobalFinish s = Returned s' ∧
        upnp_ref s' = upnp_ref s - 1 ∧ consistent s'.
Proof.
  intros [[Hlo Hhi] Hlib] Hpos. unfold UpnpGlobalFinish.
  assert ((0 <? upnp_ref s) = true) as -> by (by apply Z.ltb_lt).
  simpl. rewrite wrap_small by lia.
  destruct (upnp_ref s - 1 =? 0) eqn:E.
  - apply Z.eqb_eq in E. eexists. split; [done|]. simpl. split; [done|].
    split; [unfold valid; simpl; lia|]. simpl.
    rewrite lib_initialized_snoc. split; [done|lia].
  - apply Z.eqb_neq in E. eexists. split; [done|]. simpl. split; [done|].
    split; [unfold valid; simpl; lia|]. simpl. rewrite Hlib. lia.
Qed.

Lemma run_counts cs : ∀ s,
  consistent s → all_succeed cs →
  (∀ k, finishes (take k cs) ≤ upnp_ref s + inits (take k cs)) →
  (∀ k, upnp_ref s + inits (take k cs) - finishes (take k cs) < UINT_MODULUS) →
  ∃ s', run cs s = Some s' ∧
        upnp_ref s' = upnp_ref s + inits cs - finishes cs ∧ consistent s'.
Proof.
  induction cs as [|c cs IH]; intros s Hs Hok Hbal Hroom.
  - exists s. split; [done|]. split; [|done]. unfold inits, finishes. simpl. lia.
  - assert (all_succeed cs) as Hok' by (intros code Hin; apply Hok; by right).
    destruct c as [code|].
    + assert (code = UPNP_E_SUCCESS) as -> by (apply Hok; by left).
      pose proof (Hroom 1%nat) as H1. simpl take in H1.
      rewrite take_0, finishes_init, inits_init in H1.
      unfold inits, finishes in H1. simpl in H1.
      destruct (UpnpGlobalInit_step s Hs) as (s1 & Hstep & Href & Hs1); [lia|].
      destruct (IH s1 Hs1 Hok') as (s' & Hrun & Href' & Hs').
      * intros k. specialize (Hbal (S k)). simpl take in Hbal.
        rewrite finishes_init, inits_init in Hbal. lia.
      * intros k. specialize (Hroom (S k)). simpl take in Hroom.
        rewrite finishes_init, inits_init in Hroom. lia.
      * exists s'. simpl. rewrite Hstep, inits_init, finishes_init.
        split; [done|]. split; [lia|done].
    + pose proof (Hbal 1%nat) as H1. simpl take in H1.
      rewrite take_0, finishes_finish, inits_finish in H1.
      unfold inits, finishes in H1. simpl in H1.
      destruct (UpnpGlobalFinish_step s Hs) as (s1 & Hstep & Href & Hs1); [lia|].
      destruct (IH s1 Hs1 Hok') as (s' & Hrun & Href' & Hs').
      * intros k. specialize (Hbal (S k)). simpl take in Hbal.
        rewrite finishes_finish, inits_finish in Hbal. lia.
      * intros k. specialize (Hroom (S k)). simpl take in Hroom.
        rewrite finishes_finish, inits_finish in Hroom. lia.
      * exists s'. simpl. rewrite Hstep, inits_finish, finishes_finish.
        split; [done|]. split; [lia|done].
Qed.

Lemma invoked_snoc c s cs :
  invoked c s (mkState (upnp_ref s) (calls s ++ cs)) ↔ c ∈ cs.
Proof. unfold invoked. simpl. by rewrite drop_app_length. Qed.

(** *** What one call does *)

Lemma UpnpGlobalInit_returned s code s' :
  valid s → UpnpGlobalInit code s = Returned s' →
  (invoked (UpnpInit code) s s' ↔ upnp_ref s = 0) ∧
  (upnp_ref s = 0 → upnp_ref s' = 1).
Proof.
  intros [Hlo Hhi]. unfold UpnpGlobalInit, DoInit.
  destruct (upnp_ref s =? 0) eqn:E.
  - apply Z.eqb_eq in E. destruct (code =? UPNP_E_SUCCESS); simpl; [|done].
    intros [= <-]. simpl. rewrite E. split; [|done]. split; [done|]. intros _.
    unfold call. simpl. rewrite <- !app_assoc.
    apply (invoked_snoc _ (mkState (upnp_ref s) (calls s))). simpl. by left.
  - apply Z.eqb_neq in E. intros [= <-]. split; [|done].
    unfold invoked. simpl. rewrite drop_all. split; [by intros ?%elem_of_nil|done].
Qed.

Lemma UpnpGlobalInit_thrown s code s' :
  UpnpGlobalInit code s = Thrown s' →
  invoked (UpnpInit code) s s' ∧
  upnp_ref s = 0 ∧ upnp_ref s' = 0 ∧ code ≠ UPNP_E_SUCCESS.
Proof.
  unfold UpnpGlobalInit, DoInit.
  destruct (upnp_ref s =? 0) eqn:E; [|done]. apply Z.eqb_eq in E.
  destruct (code =? UPNP_E_SUCCESS) eqn:Hc; simpl; [done|].
  intros [= <-]. simpl. apply Z.eqb_neq in Hc. split; [|done].
  apply (invoked_snoc _ (mkState (upnp_ref s) (calls s))). by left.
Qed.

Lemma UpnpGlobalFinish_returned s s' :
  valid s → UpnpGlobalFinish s = Returned s' →
  (invoked UpnpFinish s s' ↔ upnp_ref s = 1) ∧
  (upnp_ref s = 1 → upnp_ref s' = 0).
Proof.
  intros [Hlo Hhi]. unfold UpnpGlobalFinish.
  destruct (0 <? upnp_ref s) eqn:Hpos; simpl; [|done]. apply Z.ltb_lt in Hpos.
  rewrite wrap_small by lia. destruct (upnp_ref s - 1 =? 0) eqn:E.
  - apply Z.eqb_eq in E. intros [= <-]. simpl. split; [|lia]. split; [lia|].
    intros _. apply (invoked_snoc _ (mkState _ (calls s))). by left.
  - apply Z.eqb_neq in E. intros [= <-]. simpl. split; [|lia].
    unfold invoked. simpl. rewrite drop_all. split; [by intros ?%elem_of_nil|lia].
Qed.

Lemma UpnpGlobalFinish_asserts s :
  upnp_ref s = 0 → UpnpGlobalFinish s = AssertionFailed.
Proof. intros Hzero. unfold UpnpGlobalFinish. by rewrite Hzero. Qed.

(** C9 (as amended): for a balanced sequence of calls in which every
    [UpnpInit] succeeds and the inits never outnumber the finishes by
    [2^32] or more, no assertion fails, the counter ends as the number of
    inits minus the number of finishes, and libupnp is initialized exactly
    when the counter is positive.  [UpnpInit] is called by [UpnpGlobalInit]
    exactly when the counter is [0] on entry (the call then makes it [1],
    or [UpnpInit] fails and the call throws and leaves it [0]),
    [UpnpFinish] by [UpnpGlobalFinish] exactly when it is [1] on entry, and
    the assertion of [UpnpGlobalFinish] fails on a counter of [0]. *)
Theorem C9_reference_counter cs :
  all_succeed cs → balanced cs →
  (∀ k, inits (take k cs) - finishes (take k cs) < UINT_MODULUS) →
  (∃ s, run cs initial = Some s ∧
        upnp_ref s = inits cs - finishes cs ∧
        (lib_initialized false (calls s) = true ↔ 0 < upnp_ref s)) ∧
  (∀ s code s',
     valid s → UpnpGlobalInit code s = Returned s' →
     (invoked (UpnpInit code) s s' ↔ upnp_ref s = 0) ∧
     (upnp_ref s = 0 → upnp_ref s' = 1)) ∧
  (∀ s code s',
     UpnpGlobalInit code s = Thrown s' →
     invoked (UpnpInit code) s s' ∧
     upnp_ref s = 0 ∧ upnp_ref s' = 0 ∧ code ≠ UPNP_E_SUCCESS) ∧
  (∀ s s',
     valid s → UpnpGlobalFinish s = Returned s' →
     (invoked UpnpFinish s s' ↔ upnp_ref s = 1) ∧
     (upnp_ref s = 1 → upnp_ref s' = 0)) ∧
  (∀ s, upnp_ref s = 0 → UpnpGlobalFinish s = AssertionFailed).
Proof.
  intros Hok Hbal Hroom.
  split_and!; [|apply UpnpGlobalInit_returned|apply UpnpGlobalInit_thrown
               |apply UpnpGlobalFinish_returned|apply UpnpGlobalFinish_asserts].
  assert (consistent initial) as Hinit.
  { split; [unfold valid, UINT_MODULUS; simpl; lia|]. simpl. split; [done|lia]. }
  destruct (run_counts cs initial Hinit Hok) as (s & Hrun & Href & _ & Hlib).
  - intros k. simpl. apply (Hbal k).
  - intros k. simpl. apply (Hroom k).
  - exists s. simpl in Href. split; [done|]. split; [lia|done].
Qed.

(** C9 as stated for every balanced sequence does not hold:
    [UpnpGlobalInit] throws when [UpnpInit] fails, before it counts; after
    this one call the counter is [0], not [1 - 0]. *)
Lemma C9_counterexample :
  balanced [GlobalInit (-117)] ∧
  ∃ s, run [GlobalInit (-117)] initial = Some s ∧
       upnp_ref s = 0 ∧
       inits [GlobalInit (-117)] - finishes [GlobalInit (-117)] = 1.
Proof.
  split.
  - intros [|[|k]]; by vm_compute.
  - eexists. by vm_compute.
Qed.

(** The counter is an [unsigned]: at its largest value one more
    [UpnpGlobalInit] wraps it to [0] while libupnp stays initialized. *)
Example counter_wraps :
  UpnpGlobalInit UPNP_E_SUCCESS (mkState (UINT_MODULUS - 1) [UpnpInit 0]) =
  Returned (mkState 0 [UpnpInit 0]).
Proof. by vm_compute. Qed.

Lemma C9_witness :
  ∃ s, run [GlobalInit 0; GlobalInit 0; GlobalFinish] initial = Some s ∧
       upnp_ref s = 1 ∧
       (lib_initialized false (calls s) = true ↔ 0 < upnp_ref s).
Proof.
  apply (C9_reference_counter [GlobalInit 0; GlobalInit 0; GlobalFinish]).
  - intros code Hin. repeat (apply elem_of_cons in Hin as [Hin|Hin]; [by inversion Hin|]).
    by apply elem_of_nil in Hin.
  - intros [|[|[|[|k]]]]; by vm_compute.
  - intros [|[|[|[|k]]]]; by vm_compute.
Defined.

End UpnpProofs.

(** ** XmpDecoderPlugin.cxx *)

Module XmpProofs.
Import Xmp.

Lemma load_module_loop_unfold input buffer chunk input' :
  decoder_read input 8192 = (chunk, input') →
  load_module_loop input buffer =
  match chunk with
  | [] =>
      if LockIsEOF input' then (Ok buffer, input')
      else (Throw "i/o error while reading file", input')
  | b :: chunk' =>
      if (LIBXMP_FILE_LIMIT <? Z.of_nat (length (buffer ++ b :: chunk')))%Z
      then (Throw "file is too large", input')
      else load_module_loop input' (buffer ++ b :: chunk')
  end.
Proof.
  intros Hread. rewrite load_module_loop_equation_1. unfold inspect.
  generalize (@eq_refl _ (decoder_read input 8192)).
  generalize (decoder_read input 8192) at 2 4.
  intros [c i] e. assert (c = chunk ∧ i = input') as [-> ->] by (split; congruence).
  destruct chunk; reflexivity.
Qed.

Lemma load_module_loop_too_large input buffer :
  (Z.of_nat (length buffer) ≤ LIBXMP_FILE_LIMIT)%Z →
  (LIBXMP_FILE_LIMIT < Z.of_nat (length buffer + length (content input)))%Z →
  (load_module_loop input buffer).1 = Throw "file is too large" ∨
  (load_module_loop input buffer).1 = Throw "i/o error while reading file".
Proof.
  remember (length (content input)) as n eqn:Hn. revert input buffer Hn.
  induction n as [n IH] using lt_wf_ind. intros input buffer -> Hbuf Hlarge.
  destruct (decoder_read input 8192) as [chunk input'] eqn:Hread.
  rewrite (load_module_loop_unfold _ _ _ _ Hread).
  pose proof (decoder_read_content _ _ _ _ Hread) as Hcontent.
  destruct chunk as [|b chunk'].
  - simpl in Hcontent. unfold LockIsEOF. rewrite <- Hcontent.
    destruct (content input); [simpl in Hlarge; lia|]. by right.
  - destruct (LIBXMP_FILE_LIMIT <? Z.of_nat (length (buffer ++ b :: chunk')))%Z eqn:E;
      [by left|].
    apply Z.ltb_ge in E.
    apply (IH (length (content input'))); [|done|done|].
    + rewrite Hcontent, length_app. simpl. lia.
    + rewrite Hcontent in Hlarge. rewrite !length_app in *. simpl in *. lia.
Qed.

Lemma load_module_too_large input :
  (LIBXMP_FILE_LIMIT < Z.of_nat (length (content input)))%Z →
  ∃ what, (load_module input).1 = Throw what.
Proof.
  intros Hlarge. unfold load_module.
  destruct (load_module_loop_too_large input []) as [->| ->]; eauto.
  unfold LIBXMP_FILE_LIMIT. simpl. lia.
Qed.

Lemma Xmp_new_too_large lib input :
  (LIBXMP_FILE_LIMIT < Z.of_nat (length (content input)))%Z →
  ∃ what, (Xmp_new lib input).1 = Throw what.
Proof.
  intros [what Hload]%load_module_too_large. unfold Xmp_new.
  destruct (create_context_ok lib); simpl; [|by eauto].
  destruct (load_module input) as [[buffer|what'] input']; [done|]. by eauto.
Qed.

(** C10: on a stream that holds more than [LIBXMP_FILE_LIMIT] bytes,
    [Xmp::load_module] does not return a buffer, it throws; so
    [libxmp_scan_stream] returns [false], and [libxmp_stream_decode] logs
    one warning and neither initializes the decoder nor feeds it data. *)
Theorem C10_oversized_stream_is_rejected lib commands input :
  (LIBXMP_FILE_LIMIT < Z.of_nat (length (content input)))%Z →
  (∃ what, (load_module input).1 = Throw what) ∧
  (libxmp_scan_stream lib input).1 = false ∧
  (∃ what, libxmp_stream_decode lib commands input = [LogWarning what]) ∧
  filter (λ e, is_output e) (libxmp_stream_decode lib commands input) = [].
Proof.
  intros Hlarge. split; [by apply load_module_too_large|].
  destruct (Xmp_new_too_large lib input Hlarge) as [what Hnew].
  unfold libxmp_scan_stream, libxmp_stream_decode.
  destruct (Xmp_new lib input) as [[buffer|what'] input']; [done|].
  split_and!; [done|by eauto|done].
Qed.

Lemma ex_stream_length n : length (content (ex_stream n)) = n.
Proof. unfold ex_stream. cbn [content]. apply length_replicate. Qed.

Lemma C10_witness :
  (libxmp_scan_stream ex_lib
     (ex_stream (Z.to_nat (LIBXMP_FILE_LIMIT + 1)))).1 = false.
Proof.
  apply (C10_oversized_stream_is_rejected ex_lib []
           (ex_stream (Z.to_nat (LIBXMP_FILE_LIMIT + 1)))).
  rewrite ex_stream_length, Z2Nat.id; unfold LIBXMP_FILE_LIMIT; lia.
Defined.

(** A module of admissible size is read whole, whatever the sizes of the
    single reads. *)
Example load_two_reads :
  (load_module (mkStream [Byte.x4d; Byte.x2e; Byte.x4b; Byte.x2e] [3; 8192]%Z)).1 =
  Ok [Byte.x4d; Byte.x2e; Byte.x4b; Byte.x2e].
Proof. by vm_compute. Qed.

End XmpProofs.

(** ** Archive.cxx: invariants and composition *)

Module ArchiveExtras.
Import Archive ArchiveMore ArchiveProofs.

Local Open Scope nat_scope.

Section Extras.
Context {Tag : Type} (storage : @Storage Tag).
Implicit Types (d c : @Directory Tag) (w walk : UpdateWalk) (n name dpath : string).

(** *** No two siblings share a name *)

Lemma wf_put_child d i c c' :
  wf_directory d → children d !! i = Some c → GetName c' = GetName c →
  wf_directory c' → wf_directory (put_child d i c').
Proof.
  intros [d0 Hs Hn Hc] Hi Hname Hc'. constructor; simpl; [done| |].
  - rewrite list_fmap_insert, Hname. rewrite list_insert_id; [done|].
    by rewrite list_lookup_fmap, Hi.
  - by apply Forall_insert.
Qed.

Lemma wf_append_child d c :
  wf_directory d → FindChild d (GetName c) = None → wf_directory c →
  wf_directory (set_children d (children d ++ [c])).
Proof.
  intros [d0 Hs Hn Hc] Hnone Hwf. constructor; simpl; [done| |].
  - rewrite fmap_app. apply NoDup_app. split_and!; [done| |by apply NoDup_singleton].
    intros x Hx ->%list_elem_of_singleton.
    apply list_elem_of_fmap in Hx as (y & Hy & Hin).
    apply FindChild_None in Hnone. rewrite Forall_forall in Hnone.
    by apply (Hnone y).
  - apply Forall_app. split; [done|]. by constructor.
Qed.

Lemma wf_AddSong d s :
  wf_directory d → FindSong d (uri s) = None → wf_directory (AddSong d s).
Proof.
  intros [d0 Hs Hn Hc] Hnone. constructor; simpl; [|done..].
  rewrite fmap_app. apply NoDup_app. split_and!; [done| |by apply NoDup_singleton].
  intros x Hx ->%list_elem_of_singleton.
  apply list_elem_of_fmap in Hx as (y & Hy & Hin).
  apply FindSong_None in Hnone. rewrite Forall_forall in Hnone.
  by apply (Hnone y).
Qed.

Lemma wf_set_mtime d t : wf_directory d → wf_directory (set_mtime d t).
Proof. intros [d' ? ? ?]. by constructor. Qed.

Lemma wf_child d i c : wf_directory d → children d !! i = Some c → wf_directory c.
Proof. intros [d' _ _ Hc] Hi. by eapply Forall_lookup_1 in Hc. Qed.

Lemma UpdateArchiveTree_wf walk dpath d name :
  wf_directory d →
  wf_directory (r_dir (UpdateArchiveTree storage walk dpath d name)).
Proof.
  revert walk dpath d. induction name as [name E|name tmp E IH] using slash_ind;
    intros walk dpath d Hwf.
  - rewrite (UpdateArchiveTree_leaf _ _ _ _ _ E).
    destruct (StringIsEmpty name); [done|].
    destruct (LockFindSong d name) eqn:Hfind; [done|].
    unfold Song_LoadFile. destruct (load_tag storage dpath name); simpl; [|done..].
    by apply wf_AddSong.
  - destruct (UpdateArchiveTree_child storage walk dpath d name tmp E)
      as (i & c & d1 & Hmk & Hf & ->).
    cbv zeta. cbn [r_dir].
    pose proof Hf as (Hi & Hc & _)%FindChild_Some.
    pose proof (UpdateArchiveTree_fields storage walk
      (path_build dpath (str_take tmp name))
      (set_device c DEVICE_INARCHIVE) (str_drop (S tmp) name)) as (Hn & _ & _).
    assert (wf_directory d1) as Hwf1.
    { unfold MakeChild in Hmk. destruct (FindChild d (str_take tmp name))
        as [[i' c']|] eqn:Hfind.
      - by injection Hmk as <- _ _.
      - injection Hmk as <- _ _. apply wf_append_child; [done|done|].
        apply wf_new_directory. }
    eapply wf_put_child; [done|done|done|].
    apply IH, wf_set_device. by eapply wf_child.
Qed.

Lemma Visit_wf paths walk dpath d :
  wf_directory d → wf_directory (r_dir (Visit storage paths walk dpath d)).
Proof.
  revert walk d. induction paths as [|p paths IH]; intros walk d Hwf; simpl; [done|].
  destruct (r_completion _); [apply IH|]; by apply UpdateArchiveTree_wf.
Qed.

Lemma NoDup_delete {A} (l : list A) i : NoDup l → NoDup (delete i l).
Proof. intros Hnd. eapply sublist_NoDup; [done|apply sublist_delete]. Qed.

(** X1: the sync keeps the invariant of the tree: if no two sibling
    directories and no two sibling songs share a name before
    [UpdateArchiveFile], none do after it, whichever way the call ends. *)
Theorem UpdateArchiveFile_keeps_names_unique walk ppath parent n info plugin :
  wf_directory parent →
  wf_directory (r_dir (UpdateArchiveFile storage walk ppath parent n info plugin)).
Proof.
  intros Hwf. unfold UpdateArchiveFile.
  destruct (LockFindChild parent n) as [[i d]|] eqn:Hfind.
  - destruct ((mtime d =? info_mtime info)%Z && negb (walk_discard walk)); [done|].
    destruct (MapChildFS storage ppath n) as [path_fs|]; [|done].
    pose proof Hfind as (Hi & Hd & _)%FindChild_Some.
    destruct (archive_file_open plugin path_fs) as [file|].
    + cbv zeta.
      assert (wf_directory (put_child parent i (r_dir (Visit storage (entries file)
        (emit (emit walk (ArchiveOpen path_fs))
              (LogDebug ("archive " ++ path_fs ++ " opened")))
        (path_build ppath n) (set_mtime d (info_mtime info)))))) as H.
      { eapply wf_put_child; [done|done| |].
        - by destruct (Visit_fields storage (entries file)
            (emit (emit walk (ArchiveOpen path_fs))
                  (LogDebug ("archive " ++ path_fs ++ " opened")))
            (path_build ppath n) (set_mtime d (info_mtime info))) as (-> & _).
        - apply Visit_wf, wf_set_mtime. by eapply wf_child. }
      by destruct (r_completion _).
    + cbn [r_dir LockDeleteDirectory]. destruct Hwf as [p Hs Hn Hc].
      constructor; simpl; [done| |].
      * rewrite list_fmap_delete. by apply NoDup_delete.
      * by apply Forall_delete.
  - simpl. destruct (MapChildFS storage ppath n) as [path_fs|]; [|done].
    destruct (archive_file_open plugin path_fs) as [file|]; [|done].
    cbv zeta. cbn [CreateChild].
    match goal with |- context [Visit storage ?ps ?w ?dp ?d0] =>
      pose proof (Visit_fields storage ps w dp d0) as (Hn & _);
      pose proof (Visit_wf ps w dp d0) as Hv;
      assert (wf_directory (put_child
        (set_children parent (children parent ++ [new_directory n]))
        (length (children parent)) (r_dir (Visit storage ps w dp d0)))) as H
    end.
    { eapply (wf_put_child _ _ (new_directory n)).
      - apply wf_append_child; [done|done|apply wf_new_directory].
      - simpl. by rewrite lookup_app_r, Nat.sub_diag.
      - done.
      - apply Hv, wf_set_mtime, wf_set_device, wf_new_directory. }
    by destruct (r_completion _).
Qed.

(** *** Directories of an archive are marked *)

Lemma all_in_archive_same d d' :
  children d' = children d → all_in_archive d → all_in_archive d'.
Proof.
  intros Hc Hd. revert Hc. destruct Hd as [d0 H1 H2]. intros Hc.
  constructor; by rewrite Hc.
Qed.

Lemma all_in_archive_new n : all_in_archive (new_directory (Tag:=Tag) n).
Proof. constructor; simpl; constructor. Qed.

Lemma all_in_archive_put_child d i c' :
  all_in_archive d → device c' = DEVICE_INARCHIVE → all_in_archive c' →
  all_in_archive (put_child d i c').
Proof.
  intros [d0 H1 H2] Hdev Hc'. constructor; simpl; by apply Forall_insert.
Qed.

Lemma all_in_archive_child d i c :
  all_in_archive d → children d !! i = Some c → all_in_archive c.
Proof. intros [d' _ Hc] Hi. by eapply Forall_lookup_1 in Hc. Qed.

Lemma put_child_append d c x :
  put_child (set_children d (children d ++ [c])) (length (children d)) x =
  set_children d (children d ++ [x]).
Proof.
  unfold put_child. cbn [set_children children GetName mtime device songs].
  by rewrite insert_app_r_alt, Nat.sub_diag.
Qed.

Lemma UpdateArchiveTree_marks walk dpath d name :
  all_in_archive d →
  all_in_archive (r_dir (UpdateArchiveTree storage walk dpath d name)).
Proof.
  revert walk dpath d. induction name as [name E|name tmp E IH] using slash_ind;
    intros walk dpath d Hd.
  - rewrite (UpdateArchiveTree_leaf _ _ _ _ _ E).
    destruct (StringIsEmpty name); [done|].
    destruct (LockFindSong d name); [done|].
    destruct (Song_LoadFile storage name dpath); simpl; [|done..].
    by apply (all_in_archive_same d).
  - rewrite (UpdateArchiveTree_dir _ _ _ _ _ _ E). cbv zeta. cbn [r_dir].
    pose proof (UpdateArchiveTree_fields storage walk
      (path_build dpath (str_take tmp name))
      (set_device (LockMakeChild d (str_take tmp name)).2 DEVICE_INARCHIVE)
      (str_drop (S tmp) name)) as (_ & _ & Hdev).
    unfold LockMakeChild, MakeChild in *.
    destruct (FindChild d (str_take tmp name)) as [[i c]|] eqn:Hfind;
      cbn [fst snd CreateChild] in *.
    + apply FindChild_Some in Hfind as (Hi & _ & _).
      apply all_in_archive_put_child; [done|done|].
      apply IH. apply (all_in_archive_same c); [done|]. by eapply all_in_archive_child.
    + rewrite put_child_append. destruct Hd as [d0 H1 H2].
      constructor; simpl; (apply Forall_app; split; [done|]).
      * by constructor.
      * constructor; [|done]. apply IH.
        apply (all_in_archive_same (new_directory (str_take tmp name))); [done|].
        apply all_in_archive_new.
Qed.

Lemma Visit_marks paths walk dpath d :
  all_in_archive d → all_in_archive (r_dir (Visit storage paths walk dpath d)).
Proof.
  revert walk d. induction paths as [|p paths IH]; intros walk d Hd; simpl; [done|].
  destruct (r_completion _); [apply IH|]; by apply UpdateArchiveTree_marks.
Qed.

(** *** The shape of a sync that opened the archive *)

Lemma UpdateArchiveFile_opened walk ppath parent n info plugin path_fs file :
  reaches_open storage walk ppath parent n info path_fs →
  archive_file_open plugin path_fs = Some file →
  ∃ i d0 w0,
    ((LockFindChild parent n = Some (i, d0) ∧
      r_dir (UpdateArchiveFile storage walk ppath parent n info plugin) =
        put_child parent i
          (r_dir (Visit storage (entries file) w0 (path_build ppath n)
                    (set_mtime d0 (info_mtime info))))) ∨
     (LockFindChild parent n = None ∧
      d0 = set_device (new_directory n) DEVICE_INARCHIVE ∧
      r_dir (UpdateArchiveFile storage walk ppath parent n info plugin) =
        set_children parent
          (children parent ++
           [r_dir (Visit storage (entries file) w0 (path_build ppath n)
                     (set_mtime d0 (info_mtime info)))]))) ∧
    GetName d0 = n ∧
    modified w0 = modified walk ∧
    LockFindChild (r_dir (UpdateArchiveFile storage walk ppath parent n info plugin)) n
      = Some (i, r_dir (Visit storage (entries file) w0 (path_build ppath n)
                          (set_mtime d0 (info_mtime info)))) ∧
    r_completion (UpdateArchiveFile storage walk ppath parent n info plugin)
      = r_completion (Visit storage (entries file) w0 (path_build ppath n)
                        (set_mtime d0 (info_mtime info))) ∧
    modified (r_walk (UpdateArchiveFile storage walk ppath parent n info plugin))
      = modified (r_walk (Visit storage (entries file) w0 (path_build ppath n)
                            (set_mtime d0 (info_mtime info)))).
Proof.
  intros Hreach Hopen.
  destruct (LockFindChild parent n) as [[i d]|] eqn:Hfind.
  - rewrite (UpdateArchiveFile_reuse _ _ _ _ _ _ _ _ _ _ _ Hreach Hopen Hfind).
    cbv zeta. cbn [r_dir r_completion r_walk].
    eexists i, d, _. split_and!; [by left|by apply FindChild_Some in Hfind as (_ & ? & _)
                                 |done| |done|by destruct (r_completion _)].
    apply (FindChild_put_child parent n i d); [done|].
    match goal with |- context [Visit storage ?ps ?w ?dp ?d0] =>
      destruct (Visit_fields storage ps w dp d0) as (-> & _) end.
    simpl. by apply FindChild_Some in Hfind as (_ & ? & _).
  - rewrite (UpdateArchiveFile_create _ _ _ _ _ _ _ _ _ Hreach Hopen Hfind).
    cbv zeta. cbn [r_dir r_completion r_walk]. rewrite put_child_append.
    eexists (length (children parent)), _, _.
    split_and!; [right; split_and!; done|done|done| |done|by destruct (r_completion _)].
    apply FindChild_Some. simpl. split_and!.
    + by rewrite lookup_app_r, Nat.sub_diag.
    + match goal with |- context [Visit storage ?ps ?w ?dp ?d0] =>
        by destruct (Visit_fields storage ps w dp d0) as (-> & _) end.
    + intros j y Hj Hlt. rewrite lookup_app_l in Hj by done.
      apply FindChild_None in Hfind. by eapply Forall_lookup_1 in Hfind.
Qed.


(** X3: the directory that [UpdateArchiveFile] creates for a new archive
    is marked [DEVICE_INARCHIVE] itself, and so is every directory below
    it after the visit, also when the visit ends in an exception. *)
Theorem UpdateArchiveFile_new_archive_is_marked
  walk ppath parent n info plugin path_fs file :
  LockFindChild parent n = None →
  MapChildFS storage ppath n = Some path_fs →
  archive_file_open plugin path_fs = Some file →
  ∃ i d',
    LockFindChild (r_dir (UpdateArchiveFile storage walk ppath parent n info plugin)) n
      = Some (i, d') ∧
    device d' = DEVICE_INARCHIVE ∧ all_in_archive d'.
Proof.
  intros Hfind Hmap Hopen.
  assert (reaches_open storage walk ppath parent n info path_fs) as Hreach.
  { split; [|done]. intros i' d'. by rewrite Hfind. }
  destruct (UpdateArchiveFile_opened walk ppath parent n info plugin path_fs file
              Hreach Hopen) as (i & d0 & w0 & Hcase & _ & _ & Hres & _).
  destruct Hcase as [[Hsome _]|(_ & -> & _)]; [congruence|].
  eexists _, _. split; [done|]. split.
  - by destruct (Visit_fields storage (entries file) w0 (path_build ppath n)
      (set_mtime (set_device (new_directory n) DEVICE_INARCHIVE) (info_mtime info)))
      as (_ & _ & ->).
  - apply Visit_marks. constructor; simpl; constructor.
Qed.

(** *** Every entry of the archive ends up in the tree *)

Lemma has_chain_step d d' segs :
  (∀ s, s ∈ songs d → s ∈ songs d') →
  (∀ j c0 rest, children d !! j = Some c0 → device c0 = DEVICE_INARCHIVE →
     has_chain c0 rest →
     ∃ c1, children d' !! j = Some c1 ∧ GetName c1 = GetName c0 ∧
           device c1 = DEVICE_INARCHIVE ∧ has_chain c1 rest) →
  has_chain d segs → has_chain d' segs.
Proof.
  intros Hs Hc. destruct segs as [|seg [|seg' rest]]; [done|..].
  - intros (s & Hin & Hn). exists s. auto.
  - intros (j & c0 & Hj & Hn & Hdev & Hchain).
    destruct (Hc j c0 (seg' :: rest) Hj Hdev Hchain) as (c1 & Hj1 & Hn1 & Hd1 & Hch1).
    exists j, c1. split_and!; [done|congruence|done..].
Qed.

Lemma UpdateArchiveTree_keeps_chain walk dpath d name segs :
  has_chain d segs →
  has_chain (r_dir (UpdateArchiveTree storage walk dpath d name)) segs.
Proof.
  revert walk dpath d segs.
  induction name as [name E|name tmp E IH] using slash_ind; intros walk dpath d segs.
  - rewrite (UpdateArchiveTree_leaf _ _ _ _ _ E).
    destruct (StringIsEmpty name); [done|].
    destruct (LockFindSong d name); [done|].
    destruct (Song_LoadFile storage name dpath); simpl; [|done..].
    apply has_chain_step; simpl.
    + intros s0 Hs0. apply elem_of_app. by left.
    + intros j c0 rest Hj Hdev Hch. by exists c0.
  - destruct (UpdateArchiveTree_child storage walk dpath d name tmp E)
      as (i & c & d1 & Hmk & Hf & ->).
    cbv zeta. cbn [r_dir]. pose proof Hf as (Hi & Hc & _)%FindChild_Some.
    pose proof (UpdateArchiveTree_fields storage walk
      (path_build dpath (str_take tmp name))
      (set_device c DEVICE_INARCHIVE) (str_drop (S tmp) name)) as (Hn & _ & Hdev').
    assert (songs d1 = songs d ∧
            ∀ j c0, children d !! j = Some c0 → children d1 !! j = Some c0)
      as [Hsongs Hkeep].
    { unfold MakeChild in Hmk.
      destruct (FindChild d (str_take tmp name)) as [[i' c']|];
        injection Hmk as <- _ _; simpl; [done|].
      split; [done|]. intros j c0 Hj. by apply lookup_app_l_Some. }
    apply has_chain_step; simpl.
    + intros s0. by rewrite Hsongs.
    + intros j c0 rest Hj Hdev Hch. apply Hkeep in Hj.
      destruct (decide (i = j)) as [<-|Hne].
      * rewrite list_lookup_insert_eq by (by eapply lookup_lt_Some).
        eexists. split; [done|]. assert (c0 = c) as -> by congruence.
        split_and!; [done|done|]. apply IH.
        revert Hch. apply has_chain_step; simpl; [done|]. eauto.
      * rewrite list_lookup_insert_ne by done. eauto.
Qed.

Lemma UpdateArchiveTree_makes_chain walk dpath d p t :
  leaf_of (split_slash p) ≠ "" →
  load_tag storage (path_under dpath (dirs_of (split_slash p)))
                   (leaf_of (split_slash p)) = LoadSong t →
  has_chain (r_dir (UpdateArchiveTree storage walk dpath d p)) (split_slash p).
Proof.
  revert walk dpath d. induction p as [p E|p tmp E IH] using slash_ind;
    intros walk dpath d.
  - rewrite (split_slash_None _ E). cbn [leaf_of dirs_of path_under foldl has_chain].
    intros Hne Hload. rewrite (UpdateArchiveTree_leaf _ _ _ _ _ E).
    destruct p as [|a p]; [done|]. cbn [StringIsEmpty].
    destruct (LockFindSong d (String a p)) as [s|] eqn:Hfind.
    + exists s. by apply FindSong_Some.
    + unfold Song_LoadFile. rewrite Hload.
      exists (mkSong (String a p) t). split; [|done]. simpl.
      apply elem_of_app. right. by apply list_elem_of_singleton.
  - rewrite (split_slash_Some _ _ E).
    pose proof (split_slash_not_nil (str_drop (S tmp) p)) as Hnil.
    rewrite dirs_of_cons, leaf_of_cons, has_chain_cons by done.
    cbn [path_under foldl]. intros Hne Hload.
    destruct (UpdateArchiveTree_child storage walk dpath d p tmp E)
      as (i & c & d1 & _ & Hf & ->).
    cbv zeta. cbn [r_dir].
    pose proof (UpdateArchiveTree_fields storage walk (path_build dpath (str_take tmp p))
      (set_device c DEVICE_INARCHIVE) (str_drop (S tmp) p)) as (Hn & _ & Hd).
    apply FindChild_Some in Hf as (Hi & Hc & _).
    eexists i, _. split_and!; [|by rewrite Hn|by rewrite Hd|by apply IH].
    simpl. apply list_lookup_insert_eq. by eapply lookup_lt_Some.
Qed.

Lemma Visit_keeps_chain paths walk dpath d segs :
  has_chain d segs → has_chain (r_dir (Visit storage paths walk dpath d)) segs.
Proof.
  revert walk d. induction paths as [|p paths IH]; intros walk d Hd; simpl; [done|].
  destruct (r_completion _); [apply IH|]; by apply UpdateArchiveTree_keeps_chain.
Qed.

Lemma Visit_makes_chains paths walk dpath d p t :
  (∀ dp e, load_tag storage dp e ≠ LoadThrows) →
  p ∈ paths →
  leaf_of (split_slash p) ≠ "" →
  load_tag storage (path_under dpath (dirs_of (split_slash p)))
                   (leaf_of (split_slash p)) = LoadSong t →
  has_chain (r_dir (Visit storage paths walk dpath d)) (split_slash p).
Proof.
  intros Hthrow Hin Hne Hload. revert walk d.
  induction paths as [|q paths IH]; intros walk d; [by apply elem_of_nil in Hin|].
  simpl. rewrite UpdateArchiveTree_returns by done.
  apply elem_of_cons in Hin as [<-|Hin].
  - apply Visit_keeps_chain. by eapply UpdateArchiveTree_makes_chain.
  - by apply IH.
Qed.

(** X4: after a sync in which the archive opens and no song load throws,
    every entry the archive reports whose last segment is not empty and
    whose song loads is in the database: the archive's name leads to a
    directory under which the entry's directories, all marked, lead to its
    song. *)
Theorem UpdateArchiveFile_stores_every_entry
  walk ppath parent n info plugin path_fs file p t :
  reaches_open storage walk ppath parent n info path_fs →
  archive_file_open plugin path_fs = Some file →
  (∀ dp e, load_tag storage dp e ≠ LoadThrows) →
  p ∈ entries file →
  leaf_of (split_slash p) ≠ "" →
  load_tag storage (path_under (path_build ppath n) (dirs_of (split_slash p)))
                   (leaf_of (split_slash p)) = LoadSong t →
  ∃ i d',
    LockFindChild (r_dir (UpdateArchiveFile storage walk ppath parent n info plugin)) n
      = Some (i, d') ∧
    has_chain d' (split_slash p).
Proof.
  intros Hreach Hopen Hthrow Hin Hne Hload.
  destruct (UpdateArchiveFile_opened walk ppath parent n info plugin path_fs file
              Hreach Hopen) as (i & d0 & w0 & _ & _ & _ & Hres & _).
  eexists _, _. split; [done|]. by eapply Visit_makes_chains.
Qed.

(** X5: a sync that opened the archive is not repeated.  The modification
    time is stored before the entries are visited, so the next call for the
    same file information, with [walk_discard] off, returns at once with
    the tree as it is, also when the first visit was ended by an
    exception. *)
Theorem UpdateArchiveFile_second_sync_is_skipped
  walk walk2 ppath parent n info plugin plugin2 path_fs file :
  reaches_open storage walk ppath parent n info path_fs →
  archive_file_open plugin path_fs = Some file →
  walk_discard walk2 = false →
  UpdateArchiveFile storage walk2 ppath
    (r_dir (UpdateArchiveFile storage walk ppath parent n info plugin))
    n info plugin2 =
  mkResult walk2
    (r_dir (UpdateArchiveFile storage walk ppath parent n info plugin)) Returned.
Proof.
  intros Hreach Hopen Hdiscard.
  destruct (UpdateArchiveFile_opened walk ppath parent n info plugin path_fs file
              Hreach Hopen) as (i & d0 & w0 & _ & _ & _ & Hres & _).
  unfold UpdateArchiveFile at 1. rewrite Hres, Hdiscard.
  destruct (Visit_fields storage (entries file) w0 (path_build ppath n)
              (set_mtime d0 (info_mtime info))) as (_ & -> & _).
  simpl. by rewrite Z.eqb_refl.
Qed.

(** *** The [modified] flag *)

Lemma song_count_unfold d :
  song_count d = length (songs d) + sum_list_with song_count (children d).
Proof.
  by destruct d.
Qed.

Lemma sum_list_with_insert {A} (f : A → nat) (l : list A) i x y :
  l !! i = Some x →
  sum_list_with f (<[i:=y]> l) + f x = sum_list_with f l + f y.
Proof.
  revert i. induction l as [|a l IH]; intros [|i] Hi; simplify_eq/=; [lia|].
  specialize (IH i Hi). lia.
Qed.

Lemma sum_list_with_delete {A} (f : A → nat) (l : list A) i :
  sum_list_with f (delete i l) ≤ sum_list_with f l.
Proof.
  revert i. induction l as [|a l IH]; intros [|i]; simpl; [done..|lia|].
  specialize (IH i). lia.
Qed.

Lemma song_count_put_child d i c c' :
  children d !! i = Some c →
  song_count (put_child d i c') + song_count c = song_count d + song_count c'.
Proof.
  intros Hi. rewrite (song_count_unfold (put_child d i c')), (song_count_unfold d).
  simpl. pose proof (sum_list_with_insert song_count (children d) i c c' Hi). lia.
Qed.

Lemma song_count_append d c :
  song_count (set_children d (children d ++ [c])) = song_count d + song_count c.
Proof.
  rewrite (song_count_unfold (set_children _ _)), (song_count_unfold d). simpl.
  rewrite sum_list_with_app. simpl. lia.
Qed.

Lemma song_count_same d d' :
  songs d' = songs d → children d' = children d → song_count d' = song_count d.
Proof. intros Hs Hc. by rewrite (song_count_unfold d'), (song_count_unfold d), Hs, Hc. Qed.

Lemma song_count_new n : song_count (new_directory (Tag:=Tag) n) = 0.
Proof. done. Qed.

Lemma grew_trans (x y z : nat) :
  x ≤ y → y ≤ z → (x <? z) = (x <? y) || (y <? z).
Proof.
  intros Hxy Hyz.
  destruct (Nat.ltb_spec x z), (Nat.ltb_spec x y), (Nat.ltb_spec y z); simpl; lia.
Qed.

Lemma UpdateArchiveTree_modified walk dpath d name :
  song_count d ≤ song_count (r_dir (UpdateArchiveTree storage walk dpath d name)) ∧
  modified (r_walk (UpdateArchiveTree storage walk dpath d name)) =
    modified walk ||
    (song_count d <? song_count (r_dir (UpdateArchiveTree storage walk dpath d name))).
Proof.
  revert walk dpath d. induction name as [name E|name tmp E IH] using slash_ind;
    intros walk dpath d.
  - rewrite (UpdateArchiveTree_leaf _ _ _ _ _ E).
    assert (∀ w, song_count d ≤ song_count d ∧
                 modified w = modified w || (song_count d <? song_count d)) as Hsame.
    { intros w. by rewrite Nat.ltb_irrefl, orb_false_r. }
    destruct (StringIsEmpty name); [apply (Hsame walk)|].
    destruct (LockFindSong d name); [apply (Hsame walk)|].
    destruct (Song_LoadFile storage name dpath); [|apply (Hsame walk)..].
    cbn [r_dir r_walk]. rewrite (song_count_unfold (AddSong d s)), (song_count_unfold d).
    simpl. rewrite length_app. simpl. split; [lia|].
    match goal with |- _ = _ || (?a <? ?b) =>
      assert ((a <? b) = true) as -> by (apply Nat.ltb_lt; lia) end.
    by rewrite orb_true_r.
  - destruct (UpdateArchiveTree_child storage walk dpath d name tmp E)
      as (i & c & d1 & Hmk & Hf & ->).
    cbv zeta. cbn [r_dir r_walk]. pose proof Hf as (Hi & _ & _)%FindChild_Some.
    destruct (IH walk (path_build dpath (str_take tmp name))
                 (set_device c DEVICE_INARCHIVE)) as [Hle Hmod].
    rewrite (song_count_same c (set_device c DEVICE_INARCHIVE)) in Hle, Hmod by done.
    pose proof (song_count_put_child d1 i c
      (r_dir (UpdateArchiveTree storage walk (path_build dpath (str_take tmp name))
                (set_device c DEVICE_INARCHIVE) (str_drop (S tmp) name))) Hi) as Hput.
    assert (song_count d1 = song_count d) as Hd1.
    { unfold MakeChild in Hmk.
      destruct (FindChild d (str_take tmp name)) as [[i' c']|];
        injection Hmk as <- _ _; [done|]. by rewrite song_count_append. }
    rewrite Hmod. split; [lia|]. f_equal.
    match goal with |- (?a <? ?b) = (?x <? ?y) =>
      destruct (Nat.ltb_spec a b), (Nat.ltb_spec x y) end; lia.
Qed.

Lemma Visit_modified paths walk dpath d :
  song_count d ≤ song_count (r_dir (Visit storage paths walk dpath d)) ∧
  modified (r_walk (Visit storage paths walk dpath d)) =
    modified walk || (song_count d <? song_count (r_dir (Visit storage paths walk dpath d))).
Proof.
  revert walk d. induction paths as [|p paths IH]; intros walk d; simpl.
  - by rewrite Nat.ltb_irrefl, orb_false_r.
  - pose proof (UpdateArchiveTree_modified
      (emit walk (LogDebug ("adding archive file: " ++ p))) dpath d p) as [Hle Hmod].
    simpl in Hmod. destruct (r_completion _); [|done].
    match goal with |- context [Visit storage paths ?w dpath ?d1] =>
      destruct (IH w d1) as [Hle2 Hmod2] end.
    split; [lia|]. rewrite Hmod2, Hmod, <- orb_assoc. f_equal.
    symmetry. by apply grew_trans.
Qed.

(** X7: [UpdateArchiveFile] raises the [modified] flag exactly when the
    tree holds more songs after the call than before, and never clears it.
    Creating directories, storing the modification time and deleting the
    subtree of an archive that no longer opens do not raise it. *)
Theorem UpdateArchiveFile_modified_iff_songs_added
  walk ppath parent n info plugin :
  modified (r_walk (UpdateArchiveFile storage walk ppath parent n info plugin)) =
  modified walk ||
  (song_count parent <?
   song_count (r_dir (UpdateArchiveFile storage walk ppath parent n info plugin))).
Proof.
  assert (∀ w, modified w = modified w || (song_count parent <? song_count parent))
    as Hsame by (intros w; by rewrite Nat.ltb_irrefl, orb_false_r).
  destruct (LockFindChild parent n) as [[i d]|] eqn:Hfind.
  - destruct ((mtime d =? info_mtime info)%Z && negb (walk_discard walk)) eqn:Hskip.
    { unfold UpdateArchiveFile. rewrite Hfind, Hskip. apply Hsame. }
    destruct (MapChildFS storage ppath n) as [path_fs|] eqn:Hmap.
    2: { unfold UpdateArchiveFile. rewrite Hfind, Hskip, Hmap. apply Hsame. }
    assert (reaches_open storage walk ppath parent n info path_fs) as Hreach.
    { split; [|done]. intros i' d'. rewrite Hfind. intros [= <- <-].
      apply andb_false_iff in Hskip as [Hne|Hd].
      - left. by apply Z.eqb_neq.
      - right. by apply negb_false_iff. }
    destruct (archive_file_open plugin path_fs) as [file|] eqn:Hopen.
    + destruct (UpdateArchiveFile_opened walk ppath parent n info plugin path_fs file
                  Hreach Hopen) as (i0 & d0 & w0 & Hcase & _ & Hw0 & _ & _ & Hmod).
      destruct Hcase as [[Hsome Hdir]|(Hnone & _)]; [|congruence].
      assert (i0 = i ∧ d0 = d) as [-> ->] by (split; congruence).
      rewrite Hmod, Hdir.
      destruct (Visit_modified (entries file) w0 (path_build ppath n)
                  (set_mtime d (info_mtime info))) as [Hle ->].
      rewrite (song_count_same d (set_mtime d (info_mtime info))) in * by done.
      apply FindChild_Some in Hfind as (Hi & _ & _).
      pose proof (song_count_put_child parent i d
        (r_dir (Visit storage (entries file) w0 (path_build ppath n)
                  (set_mtime d (info_mtime info)))) Hi) as Hput.
      rewrite Hw0. f_equal.
      match goal with |- (?a <? ?b) = (?x <? ?y) =>
        destruct (Nat.ltb_spec a b), (Nat.ltb_spec x y) end; lia.
    + unfold UpdateArchiveFile. rewrite Hfind, Hskip, Hmap, Hopen. cbn [r_walk r_dir].
      rewrite (song_count_unfold (LockDeleteDirectory parent i)),
        (song_count_unfold parent). simpl.
      pose proof (sum_list_with_delete song_count (children parent) i) as Hdel.
      match goal with |- _ = _ || (?a <? ?b) =>
        assert ((a <? b) = false) as -> by (apply Nat.ltb_ge; lia) end.
      by rewrite orb_false_r.
  - destruct (MapChildFS storage ppath n) as [path_fs|] eqn:Hmap.
    2: { unfold UpdateArchiveFile. rewrite Hfind, Hmap. apply Hsame. }
    destruct (archive_file_open plugin path_fs) as [file|] eqn:Hopen.
    2: { unfold UpdateArchiveFile. rewrite Hfind, Hmap, Hopen. apply (Hsame walk). }
    assert (reaches_open storage walk ppath parent n info path_fs) as Hreach.
    { split; [|done]. intros i' d'. by rewrite Hfind. }
    destruct (UpdateArchiveFile_opened walk ppath parent n info plugin path_fs file
                Hreach Hopen) as (i0 & d0 & w0 & Hcase & _ & Hw0 & _ & _ & Hmod).
    destruct Hcase as [[Hsome _]|(_ & -> & Hdir)]; [congruence|].
    rewrite Hmod, Hdir, song_count_append.
    destruct (Visit_modified (entries file) w0 (path_build ppath n)
                (set_mtime (set_device (new_directory n) DEVICE_INARCHIVE)
                           (info_mtime info))) as [Hle ->].
    rewrite Hw0. f_equal.
    match goal with |- (?a <? ?b) = (?x <? ?y) =>
      destruct (Nat.ltb_spec a b), (Nat.ltb_spec x y) end; simpl in *; lia.
Qed.

End Extras.

Lemma ex_music_wf : wf_directory ex_music.
Proof.
  constructor; simpl.
  - apply NoDup_nil_2.
  - apply NoDup_cons. split; [|apply NoDup_singleton].
    intros Hin%list_elem_of_singleton. discriminate.
  - constructor; [|constructor; [|constructor]].
    + constructor; simpl; [apply NoDup_nil_2..|constructor].
    + constructor; simpl; [apply NoDup_singleton|apply NoDup_nil_2|constructor].
Qed.

Lemma UpdateArchiveFile_keeps_names_unique_witness :
  wf_directory (r_dir (UpdateArchiveFile ex_storage ex_walk "" ex_music
                         "mods.zip" (mkInfo 9) ex_plugin)).
Proof.
  apply (UpdateArchiveFile_keeps_names_unique ex_storage ex_walk "" ex_music
           "mods.zip" (mkInfo 9) ex_plugin).
  apply ex_music_wf.
Defined.


Lemma UpdateArchiveFile_new_archive_is_marked_witness :
  ∃ i d',
    LockFindChild (r_dir (UpdateArchiveFile ex_storage ex_walk "" ex_music
                            "new.zip" (mkInfo 9) ex_plugin)) "new.zip"
      = Some (i, d') ∧
    device d' = DEVICE_INARCHIVE ∧ all_in_archive d'.
Proof.
  apply (UpdateArchiveFile_new_archive_is_marked ex_storage ex_walk "" ex_music
           "new.zip" (mkInfo 9) ex_plugin "/music/mods.zip" ex_file);
    reflexivity.
Defined.

Lemma UpdateArchiveFile_stores_every_entry_witness :
  ∃ i d',
    LockFindChild (r_dir (UpdateArchiveFile ex_storage ex_walk "" ex_music
                            "mods.zip" (mkInfo 9) ex_plugin)) "mods.zip"
      = Some (i, d') ∧
    has_chain d' ["a"; "c.it"].
Proof.
  apply (UpdateArchiveFile_stores_every_entry ex_storage ex_walk "" ex_music
           "mods.zip" (mkInfo 9) ex_plugin "/music/mods.zip" ex_file "a/c.it" ()).
  - apply ex_music_reaches_open; [lia|reflexivity].
  - reflexivity.
  - intros dp e. simpl. discriminate.
  - simpl. apply list_elem_of_further, list_elem_of_here.
  - vm_compute. discriminate.
  - reflexivity.
Defined.

Lemma UpdateArchiveFile_second_sync_is_skipped_witness :
  UpdateArchiveFile ex_storage_throws ex_walk ""
    (r_dir (UpdateArchiveFile ex_storage_throws ex_walk "" ex_music "mods.zip"
              (mkInfo 9) ex_plugin))
    "mods.zip" (mkInfo 9) ex_plugin =
  mkResult ex_walk
    (r_dir (UpdateArchiveFile ex_storage_throws ex_walk "" ex_music "mods.zip"
              (mkInfo 9) ex_plugin)) Returned.
Proof.
  apply (UpdateArchiveFile_second_sync_is_skipped ex_storage_throws ex_walk
           ex_walk "" ex_music "mods.zip" (mkInfo 9) ex_plugin ex_plugin
           "/music/mods.zip" ex_file).
  - apply ex_music_reaches_open; [lia|reflexivity].
  - reflexivity.
  - reflexivity.
Defined.

(** Directories alone do not raise [modified]: the entry ["x/"] creates a
    directory and leaves the flag down. *)
Example directory_only_leaves_modified_down :
  modified (r_walk (Visit ex_storage ["x/"] ex_walk "mods.zip" ex_root)) = false ∧
  children (r_dir (Visit ex_storage ["x/"] ex_walk "mods.zip" ex_root)) ≠ [].
Proof. split; [by vm_compute|]. vm_compute. discriminate. Qed.

End ArchiveExtras.

(** ** Init.cxx: any sequence of calls *)

Module UpnpExtras.
Import Upnp UpnpMore UpnpProofs.

Local Open Scope Z_scope.

Lemma orderly_app up cs1 cs2 :
  orderly up (cs1 ++ cs2) = orderly up cs1 && orderly (lib_initialized up cs1) cs2.
Proof.
  revert up. induction cs1 as [|c cs1 IH]; intros up; [done|].
  destruct c as [code| | |]; simpl; rewrite IH; unfold lib_initialized; simpl.
  - destruct up; [done|]. by destruct (code =? UPNP_E_SUCCESS).
  - by rewrite andb_assoc.
  - by rewrite andb_assoc.
  - by rewrite andb_assoc.
Qed.

Lemma lib_initialized_bool s :
  consistent s → lib_initialized false (calls s) = (0 <? upnp_ref s).
Proof.
  intros [_ Hlib]. destruct (Z.ltb_spec 0 (upnp_ref s)) as [Hpos|Hneg].
  - by apply Hlib.
  - destruct (lib_initialized false (calls s)) eqn:E; [|done].
    assert (0 < upnp_ref s) by (by apply Hlib). lia.
Qed.

Lemma UpnpGlobalInit_sound code s :
  sound s → upnp_ref s + 1 < UINT_MODULUS →
  match UpnpGlobalInit code s with
  | Returned s' => sound s' ∧ upnp_ref s' = upnp_ref s + 1
  | Thrown s' => sound s' ∧ upnp_ref s' = upnp_ref s
  | AssertionFailed => False
  end.
Proof.
  intros [Hs Hord] Hroom. pose proof (lib_initialized_bool s Hs) as Hup.
  destruct Hs as [[Hlo Hhi] Hlib]. unfold UpnpGlobalInit, DoInit.
  destruct (upnp_ref s =? 0) eqn:E.
  - apply Z.eqb_eq in E. rewrite E in Hup. simpl in Hup.
    destruct (code =? UPNP_E_SUCCESS) eqn:Hc; simpl.
    + rewrite E, wrap_small by (unfold UINT_MODULUS; lia).
      split; [|done]. split; [split|].
      * unfold valid, UINT_MODULUS. simpl. lia.
      * simpl. rewrite !lib_initialized_snoc, Hc. simpl. split; [lia|done].
      * simpl. rewrite <- !app_assoc, orderly_app, Hord, Hup. simpl. by rewrite Hc.
    + split; [|done]. split; [split|].
      * unfold valid. simpl. lia.
      * simpl. rewrite lib_initialized_snoc, Hc. done.
      * simpl. by rewrite orderly_app, Hord, Hup.
  - apply Z.eqb_neq in E. simpl. rewrite wrap_small by lia.
    split; [|done]. split; [split|done].
    + unfold valid. simpl. lia.
    + simpl. rewrite Hlib. lia.
Qed.

Lemma UpnpGlobalFinish_sound s :
  sound s →
  match UpnpGlobalFinish s with
  | Returned s' => sound s' ∧ upnp_ref s' = upnp_ref s - 1 ∧ 0 < upnp_ref s
  | Thrown _ => False
  | AssertionFailed => upnp_ref s = 0
  end.
Proof.
  intros [Hs Hord]. pose proof (lib_initialized_bool s Hs) as Hup.
  destruct Hs as [[Hlo Hhi] Hlib]. unfold UpnpGlobalFinish.
  destruct (0 <? upnp_ref s) eqn:Hpos; simpl; [|apply Z.ltb_ge in Hpos; lia].
  apply Z.ltb_lt in Hpos. rewrite wrap_small by lia.
  destruct (upnp_ref s - 1 =? 0) eqn:E; simpl.
  - apply Z.eqb_eq in E. split; [|lia]. split; [split|].
    + unfold valid. simpl. lia.
    + simpl. rewrite lib_initialized_snoc. split; [done|lia].
    + simpl. by rewrite orderly_app, Hord, Hup.
  - apply Z.eqb_neq in E. split; [|lia]. split; [split|done].
    + unfold valid. simpl. lia.
    + simpl. rewrite Hlib. lia.
Qed.

Lemma run_sound cs : ∀ s s',
  sound s → upnp_ref s + inits cs < UINT_MODULUS →
  run cs s = Some s' →
  sound s' ∧
  upnp_ref s' ≤ upnp_ref s + inits cs - finishes cs ∧
  ∀ k, finishes (take k cs) ≤ upnp_ref s + inits (take k cs).
Proof.
  induction cs as [|c cs IH]; intros s s' Hs Hroom Hrun.
  - injection Hrun as <-. split; [done|]. split.
    + unfold inits, finishes. simpl. lia.
    + intros k. rewrite take_nil. unfold inits, finishes. simpl.
      destruct Hs as [[[? ?] _] _]. lia.
  - pose proof (inits_nonneg cs) as Hnn.
    assert (0 ≤ upnp_ref s) as Hlo by (by destruct Hs as [[[? ?] _] _]).
    destruct c as [code|]; simpl in Hrun.
    + rewrite inits_init in Hroom.
      pose proof (UpnpGlobalInit_sound code s Hs ltac:(lia)) as Hstep.
      assert (∃ s1, run cs s1 = Some s' ∧ sound s1 ∧ upnp_ref s1 ≤ upnp_ref s + 1)
        as (s1 & Hrun1 & Hs1 & Href).
      { destruct (UpnpGlobalInit code s) as [s1|s1|]; [| |done];
          destruct Hstep as [Hs1 Href]; exists s1;
          (split; [done|]); (split; [done|lia]). }
      destruct (IH s1 s' Hs1) as (Hs' & Hle & Hbal); [lia|done|].
      split; [done|]. rewrite inits_init, finishes_init. split; [lia|].
      intros [|k]; simpl take.
      * unfold inits, finishes. simpl. lia.
      * rewrite inits_init, finishes_init. specialize (Hbal k). lia.
    + rewrite inits_finish in Hroom.
      pose proof (UpnpGlobalFinish_sound s Hs) as Hstep.
      destruct (UpnpGlobalFinish s) as [s1|s1|]; [|done..].
      destruct Hstep as (Hs1 & Href & Hpos).
      destruct (IH s1 s' Hs1) as (Hs' & Hle & Hbal); [lia|done|].
      split; [done|]. rewrite inits_finish, finishes_finish. split; [lia|].
      intros [|k]; simpl take.
      * unfold inits, finishes. simpl. lia.
      * rewrite inits_finish, finishes_finish. specialize (Hbal k). lia.
Qed.

Lemma initial_sound : sound initial.
Proof.
  split; [|done]. split; [unfold valid, UINT_MODULUS; simpl; lia|].
  simpl. split; [done|lia].
Qed.

(** X8: libupnp is used in order, whatever the program does.  After any
    sequence of [UpnpGlobalInit] and [UpnpGlobalFinish] calls that ran
    without a failed assertion, with [UpnpInit] failing wherever it may
    and fewer than [2^32] calls of [UpnpGlobalInit]: [UpnpInit] was never
    called on an initialized library, [UpnpFinish] and the two settings
    never on one that was not, and the library is initialized exactly when
    the counter is positive. *)
Theorem run_uses_libupnp_in_order cs s :
  inits cs < UINT_MODULUS →
  run cs initial = Some s →
  orderly false (calls s) = true ∧
  lib_initialized false (calls s) = (0 <? upnp_ref s).
Proof.
  intros Hroom Hrun.
  destruct (run_sound cs initial s initial_sound) as ([Hs Hord] & _); [done..|].
  split; [done|]. by apply lib_initialized_bool.
Qed.

(** X9: an unbalanced sequence of calls runs into the assertion.  If a
    sequence with fewer than [2^32] calls of [UpnpGlobalInit] ran without a
    failed assertion, then at no point were there more finishes than
    inits, and the counter is at most the inits minus the finishes (less
    when an [UpnpInit] failed). *)
Theorem run_without_assertion_is_balanced cs s :
  inits cs < UINT_MODULUS →
  run cs initial = Some s →
  balanced cs ∧ upnp_ref s ≤ inits cs - finishes cs.
Proof.
  intros Hroom Hrun.
  destruct (run_sound cs initial s initial_sound) as (_ & Hle & Hbal); [done..|].
  split; [|by simpl in Hle]. intros k. apply (Hbal k).
Qed.

Lemma run_uses_libupnp_in_order_witness :
  orderly false [UpnpInit (-117); UpnpInit 0; UpnpSetMaxContentLength 2048000;
                 ixmlRelaxParser 1; UpnpFinish] = true.
Proof.
  apply (run_uses_libupnp_in_order
           [GlobalInit (-117); GlobalInit 0; GlobalInit 0; GlobalFinish; GlobalFinish]
           (mkState 0 [UpnpInit (-117); UpnpInit 0; UpnpSetMaxContentLength 2048000;
                       ixmlRelaxParser 1; UpnpFinish])).
  - by vm_compute.
  - by vm_compute.
Defined.

Lemma run_without_assertion_is_balanced_witness :
  balanced [GlobalInit 0; GlobalFinish; GlobalInit 0].
Proof.
  apply (run_without_assertion_is_balanced [GlobalInit 0; GlobalFinish; GlobalInit 0]
           (mkState 1 [UpnpInit 0; UpnpSetMaxContentLength 2048000; ixmlRelaxParser 1;
                       UpnpFinish; UpnpInit 0; UpnpSetMaxContentLength 2048000;
                       ixmlRelaxParser 1])).
  - by vm_compute.
  - by vm_compute.
Defined.

(** A finish too many fails the assertion. *)
Example one_finish_too_many :
  run [GlobalInit 0; GlobalFinish; GlobalFinish] initial = None.
Proof. by vm_compute. Qed.

End UpnpExtras.

(** ** XmpDecoderPlugin.cxx: loading and playing *)

Module XmpExtras.
Import Xmp XmpMore XmpProofs.

Local Open Scope Z_scope.

Lemma load_module_loop_sound input buffer b :
  (load_module_loop input buffer).1 = Ok b →
  Z.of_nat (length buffer) ≤ LIBXMP_FILE_LIMIT →
  b = buffer ++ content input ∧
  Z.of_nat (length b) ≤ LIBXMP_FILE_LIMIT ∧
  content (load_module_loop input buffer).2 = [].
Proof.
  remember (length (content input)) as n eqn:Hn. revert input buffer Hn.
  induction n as [n IH] using lt_wf_ind. intros input buffer -> Hok Hbuf.
  destruct (decoder_read input 8192) as [chunk input'] eqn:Hread.
  rewrite (load_module_loop_unfold _ _ _ _ Hread) in Hok |- *.
  pose proof (decoder_read_content _ _ _ _ Hread) as Hcontent.
  destruct chunk as [|c chunk'].
  - simpl in Hcontent. unfold LockIsEOF in *. rewrite Hcontent.
    destruct (content input') eqn:Hend; [|done]. simpl in Hok.
    injection Hok as <-. by rewrite app_nil_r.
  - destruct (LIBXMP_FILE_LIMIT <? Z.of_nat (length (buffer ++ c :: chunk'))) eqn:E;
      [done|].
    apply Z.ltb_ge in E.
    destruct (IH (length (content input'))) with (input := input')
      (buffer := buffer ++ c :: chunk') as (-> & Hlen & Heof); [|done..|].
    + rewrite Hcontent, length_app. simpl. lia.
    + split; [|done]. by rewrite Hcontent, <- app_assoc.
Qed.

Lemma load_module_loop_complete input buffer :
  Forall (λ cap, 0 < cap) (transport input) →
  Z.of_nat (length buffer + length (content input)) ≤ LIBXMP_FILE_LIMIT →
  (load_module_loop input buffer).1 = Ok (buffer ++ content input).
Proof.
  remember (length (content input)) as n eqn:Hn. revert input buffer Hn.
  induction n as [n IH] using lt_wf_ind. intros input buffer -> Hcaps Hfits.
  destruct (decoder_read input 8192) as [chunk input'] eqn:Hread.
  rewrite (load_module_loop_unfold _ _ _ _ Hread).
  pose proof (decoder_read_content _ _ _ _ Hread) as Hcontent.
  assert (Forall (λ cap, 0 < cap) (transport input')) as Hcaps'.
  { unfold decoder_read in Hread. injection Hread as _ <-. simpl.
    destruct Hcaps; [done|]. done. }
  destruct chunk as [|c chunk'].
  - assert (content input = []) as Hnil.
    { unfold decoder_read in Hread. injection Hread as Htake _.
      destruct (content input) as [|x l]; [done|]. exfalso.
      assert (∃ m, Z.to_nat match transport input with
                            | [] => 8192
                            | cap :: _ => 8192 `min` cap
                            end = S m) as [m Hm].
      { destruct Hcaps as [|cap caps Hcap _].
        - exists (Z.to_nat 8191). lia.
        - exists (Z.to_nat (8192 `min` cap - 1)). lia. }
      rewrite Hm in Htake. done. }
    simpl in Hcontent. unfold LockIsEOF. rewrite <- Hcontent, Hnil.
    simpl. by rewrite app_nil_r.
  - rewrite Hcontent in Hfits. rewrite length_app in Hfits.
    assert ((LIBXMP_FILE_LIMIT <? Z.of_nat (length (buffer ++ c :: chunk'))) = false)
      as -> by (apply Z.ltb_ge; rewrite length_app; lia).
    rewrite (IH (length (content input'))); [|..|done|done|].
    + by rewrite Hcontent, <- app_assoc.
    + rewrite Hcontent, length_app. simpl. lia.
    + rewrite length_app. lia.
Qed.

(** X10: what [Xmp::load_module] returns is the whole stream.  When it
    returns a buffer, however the transport cut the reads, the buffer is
    the content of the stream from its first byte to its last, it is no
    longer than [LIBXMP_FILE_LIMIT], and the stream is at its end. *)
Theorem load_module_returns_the_whole_stream input b :
  (load_module input).1 = Ok b →
  b = content input ∧
  Z.of_nat (length b) ≤ LIBXMP_FILE_LIMIT ∧
  LockIsEOF (load_module input).2 = true.
Proof.
  intros Hok. unfold load_module in *.
  destruct (load_module_loop_sound input [] b Hok) as (-> & Hlen & Heof).
  { by vm_compute. }
  split; [done|]. split; [done|]. unfold LockIsEOF. by rewrite Heof.
Qed.

(** X11: [Xmp::load_module] loads every stream that fits.  If no read
    fails or is interrupted (every read hands over at least one byte while
    there is one) and the stream is no longer than [LIBXMP_FILE_LIMIT],
    the whole stream is returned, in however small pieces it arrives. *)
Theorem load_module_loads_what_fits input :
  Forall (λ cap, 0 < cap) (transport input) →
  Z.of_nat (length (content input)) ≤ LIBXMP_FILE_LIMIT →
  (load_module input).1 = Ok (content input).
Proof.
  intros Hcaps Hfits. unfold load_module.
  by rewrite load_module_loop_complete.
Qed.

Lemma play_cons fi frames commands :
  play (fi :: frames) commands =
  if frame_n (play_frame (Some fi)) =? 0 then []
  else decoder_data (frame_n (play_frame (Some fi))) ::
       match default NONE (head commands) with
       | STOP => []
       | SEEK => xmp_seek :: decoder_command_finished :: play frames (tail commands)
       | _ => play frames (tail commands)
       end.
Proof. reflexivity. Qed.

Lemma play_frame_playable fi :
  (frame_n (play_frame (Some fi)) =? 0) = negb (playable fi) ∧
  (playable fi = true → frame_n (play_frame (Some fi)) = buffer_size fi).
Proof.
  unfold play_frame, playable.
  destruct (play_code fi =? 0); simpl; [|done].
  destruct (0 <? loop_count fi); simpl; [done|].
  by rewrite negb_involutive.
Qed.

Lemma play_is_playing frames : ∀ commands,
  Forall (λ e, is_playing e = true) (play frames commands).
Proof.
  induction frames as [|fi frames IH]; intros commands; [done|].
  rewrite play_cons.
  destruct (frame_n (play_frame (Some fi)) =? 0) eqn:E; [done|].
  constructor; [unfold is_playing; by rewrite E|].
  destruct (default NONE (head commands)); try apply IH; [done|].
  by repeat constructor.
Qed.

Lemma data_count_cons n l :
  length (filter (λ e, is_data e = true) (decoder_data n :: l)) =
  S (length (filter (λ e, is_data e = true) l)).
Proof. by rewrite filter_cons_True. Qed.

(** X13: nothing is played after the decoder says stop.  If the answer to
    the frame number [k] (counting from 0) is [STOP], at most [k + 1]
    frames are handed over, and when that many are, handing over the last
    of them is the last thing the loop does. *)
Theorem play_stops frames : ∀ commands k,
  commands !! k = Some STOP →
  (length (filter (λ e, is_data e = true) (play frames commands)) ≤ S k)%nat ∧
  (length (filter (λ e, is_data e = true) (play frames commands)) = S k →
   ∃ n, last (play frames commands) = Some (decoder_data n)).
Proof.
  induction frames as [|fi frames IH]; intros commands k Hk.
  - simpl. split; [lia|done].
  - rewrite play_cons. destruct (frame_n (play_frame (Some fi)) =? 0) eqn:E.
    { simpl. split; [lia|done]. }
    destruct commands as [|c commands]; [done|]. simpl head. simpl tail.
    destruct k as [|k].
    + injection Hk as ->. simpl default. cbv iota. rewrite data_count_cons.
      simpl. split; [done|]. intros _. by eexists.
    + simpl in Hk. destruct (IH commands k Hk) as [Hlen Hlast].
      assert (∀ l, l = play frames commands →
                last (decoder_data (frame_n (play_frame (Some fi))) :: l) = last l
                ∨ l = []) as Hl.
      { intros [|e l] _; [by right|by left]. }
      destruct c; simpl default; cbv iota; rewrite data_count_cons.
      * split; [lia|]. intros [= Hn]. destruct (Hlast Hn) as [n Hn'].
        destruct (play frames commands) as [|e l]; [done|]. by exists n.
      * split; [lia|]. intros [= Hn]. destruct (Hlast Hn) as [n Hn'].
        destruct (play frames commands) as [|e l]; [done|]. by exists n.
      * simpl. split; [lia|]. intros [=].
      * rewrite !filter_cons_False by (simpl; done).
        split; [lia|]. intros [= Hn]. destruct (Hlast Hn) as [n Hn'].
        destruct (play frames commands) as [|e l]; [done|]. by exists n.
Qed.

(** X14: left alone, the loop plays the module once, up to its first
    loop.  When no answer of [decoder_data] is [STOP] or [SEEK], the frames
    handed over are, one for one and in order, the frames the player
    delivers before the first at which [xmp_play_frame] fails, the module
    has looped or the frame is empty; nothing else happens. *)
Theorem play_undisturbed frames : ∀ commands,
  Forall (λ c, is_calm c = true) commands →
  play frames commands = (λ fi, decoder_data (buffer_size fi)) <$> played frames.
Proof.
  induction frames as [|fi frames IH]; intros commands Hcalm; [done|].
  rewrite play_cons. destruct (play_frame_playable fi) as [-> Hn]. simpl played.
  destruct (playable fi); simpl negb; cbv iota; [|done].
  rewrite Hn, fmap_cons by done. f_equal.
  destruct Hcalm as [|c commands Hc Hcalm]; simpl head; simpl tail; simpl default.
  - by apply IH.
  - destruct c; try done; by apply IH.
Qed.

Lemma answered_cons commands d ds :
  answered commands (d :: ds) =
  (d :: if is_SEEK (default NONE (head commands))
        then [xmp_seek; decoder_command_finished] else []) ++
  answered (tail commands) ds.
Proof.
  unfold answered. rewrite imap_cons. simpl mjoin. rewrite head_lookup.
  simpl. do 3 f_equal. apply imap_ext. intros i x _. simpl.
  by rewrite lookup_tail.
Qed.

Lemma play_answered frames : ∀ commands,
  play frames commands =
  answered commands (filter (λ e, is_data e = true) (play frames commands)).
Proof.
  induction frames as [|fi frames IH]; intros commands; [done|].
  rewrite play_cons.
  destruct (frame_n (play_frame (Some fi)) =? 0); [done|].
  rewrite filter_cons_True by done. rewrite answered_cons.
  destruct (default NONE (head commands)); simpl is_SEEK; cbv iota.
  - simpl. f_equal. apply IH.
  - simpl. f_equal. apply IH.
  - done.
  - rewrite !filter_cons_False by (simpl; done). simpl. do 3 f_equal. apply IH.
Qed.

(** X12: the decoder is initialized before anything is played, and every
    seek is answered where it is asked for.  [libxmp_stream_decode] either
    only logs one warning; or it first calls [decoder_initialized], once,
    with 44100 Hz and 2 channels, and what it does afterwards is exactly:
    for each frame it hands over, none of them empty, the frame and, when
    the answer to that frame is [SEEK], right after it the seek and
    [decoder_command_finished]. *)
Theorem libxmp_stream_decode_shape lib commands input :
  (∃ what, libxmp_stream_decode lib commands input = [LogWarning what]) ∨
  (∃ ms rest,
     libxmp_stream_decode lib commands input =
       decoder_initialized 44100 2 ms :: rest ∧
     Forall (λ e, is_playing e = true) rest ∧
     rest = answered commands (filter (λ e, is_data e = true) rest)).
Proof.
  unfold libxmp_stream_decode.
  destruct (Xmp_new lib input) as [[b|what] input'].
  - right. eexists _, _. split; [done|].
    split; [apply play_is_playing|apply play_answered].
  - left. by exists what.
Qed.

Lemma load_module_loop_fits input buffer :
  Z.of_nat (length buffer + length (content input)) ≤ LIBXMP_FILE_LIMIT →
  (load_module_loop input buffer).1 = Ok (buffer ++ content input) ∨
  (load_module_loop input buffer).1 = Throw "i/o error while reading file".
Proof.
  remember (length (content input)) as n eqn:Hn. revert input buffer Hn.
  induction n as [n IH] using lt_wf_ind. intros input buffer -> Hfits.
  destruct (decoder_read input 8192) as [chunk input'] eqn:Hread.
  rewrite (load_module_loop_unfold _ _ _ _ Hread).
  pose proof (decoder_read_content _ _ _ _ Hread) as Hcontent.
  destruct chunk as [|c chunk'].
  - simpl in Hcontent. unfold LockIsEOF. rewrite <- Hcontent.
    destruct (content input); [|by right]. left. by rewrite app_nil_r.
  - rewrite Hcontent in Hfits. rewrite length_app in Hfits.
    assert ((LIBXMP_FILE_LIMIT <? Z.of_nat (length (buffer ++ c :: chunk'))) = false)
      as -> by (apply Z.ltb_ge; rewrite length_app; lia).
    destruct (IH (length (content input'))) with (input := input')
      (buffer := buffer ++ c :: chunk') as [H|H]; [|done| |left|by right].
    + rewrite Hcontent, length_app. simpl. lia.
    + rewrite length_app. lia.
    + by rewrite H, Hcontent, <- app_assoc.
Qed.

Lemma Xmp_new_Ok lib input b :
  (Xmp_new lib input).1 = Ok b →
  create_context_ok lib = true ∧ (load_module input).1 = Ok b ∧
  load_module_from_memory lib b = 0 ∧ start_player lib = 0.
Proof.
  unfold Xmp_new. destruct (create_context_ok lib); [|done]. simpl.
  destruct (load_module input) as [[b'|what] input']; [|done].
  destruct (load_module_from_memory lib b' =? 0) eqn:Hl; [|done].
  destruct (start_player lib =? 0) eqn:Hs; [|done]. simpl.
  intros [= <-]. apply Z.eqb_eq in Hl, Hs. done.
Qed.

Lemma Xmp_new_accepts lib input b :
  create_context_ok lib = true → (load_module input).1 = Ok b →
  load_module_from_memory lib b = 0 → start_player lib = 0 →
  (Xmp_new lib input).1 = Ok b.
Proof.
  intros Hc Hload Hl Hs. unfold Xmp_new. rewrite Hc. simpl.
  destruct (load_module input) as [[b'|what] input']; [|done].
  simpl in Hload. injection Hload as ->. by rewrite Hl, Hs.
Qed.

(** X19: a stream that is played also scans.  If
    [libxmp_stream_decode] initialized the decoder for a stream, then
    [libxmp_scan_stream] returns true for a stream of the same bytes,
    provided that none of its reads fails and that libxmp answers the same
    to these bytes; however the reads of the decode were cut.  (The decode
    reads through the decoder, the scan does not: the same bytes may fail
    to decode when a read is interrupted and still scan.) *)
Theorem scan_accepts_what_decode_plays lib lib' commands input input' ms rest :
  libxmp_stream_decode lib commands input =
    decoder_initialized 44100 2 ms :: rest →
  content input' = content input →
  Forall (λ cap, 0 < cap) (transport input') →
  same_answer lib lib' (content input) →
  (libxmp_scan_stream lib' input').1 = true.
Proof.
  intros Hdecode Hsame Hcaps (Hc & Hl & Hs).
  assert (∃ b, (Xmp_new lib input).1 = Ok b) as [b Hb].
  { unfold libxmp_stream_decode in Hdecode.
    destruct (Xmp_new lib input) as [[b|what] i]; [by exists b|done]. }
  apply Xmp_new_Ok in Hb as (Hc0 & Hload & Hl0 & Hs0).
  unfold load_module in Hload.
  destruct (load_module_loop_sound input [] b Hload) as (-> & Hlen & _);
    [by vm_compute|].
  simpl in Hlen, Hl0.
  assert ((Xmp_new lib' input').1 = Ok (content input)) as Hnew.
  { apply Xmp_new_accepts; [congruence| |congruence|congruence].
    unfold load_module. rewrite load_module_loop_complete; [|done|].
    - by rewrite Hsame.
    - simpl. by rewrite Hsame. }
  unfold libxmp_scan_stream.
  by destruct (Xmp_new lib' input') as [[b'|what] i].
Qed.

Lemma load_module_returns_the_whole_stream_witness :
  (load_module (mkStream [Byte.x01; Byte.x02; Byte.x03] [1; 5])).1 =
    Ok [Byte.x01; Byte.x02; Byte.x03] ∧
  Z.of_nat (length [Byte.x01; Byte.x02; Byte.x03]) ≤ LIBXMP_FILE_LIMIT.
Proof.
  assert ((load_module (mkStream [Byte.x01; Byte.x02; Byte.x03] [1; 5])).1 =
            Ok [Byte.x01; Byte.x02; Byte.x03]) as H.
  { unfold load_module.
    rewrite (load_module_loop_unfold _ _ [Byte.x01]
               (mkStream [Byte.x02; Byte.x03] [5])) by reflexivity.
    simpl.
    rewrite (load_module_loop_unfold _ _ [Byte.x02; Byte.x03]
               (mkStream [] [])) by reflexivity.
    simpl.
    by rewrite (load_module_loop_unfold _ _ [] (mkStream [] [])) by reflexivity. }
  split; [done|].
  by destruct (load_module_returns_the_whole_stream _ _ H) as (_ & Hlen & _).
Defined.

Lemma load_module_loads_what_fits_witness :
  (load_module (mkStream [Byte.x01; Byte.x02; Byte.x03] [1; 5])).1 =
    Ok [Byte.x01; Byte.x02; Byte.x03].
Proof.
  apply (load_module_loads_what_fits (mkStream [Byte.x01; Byte.x02; Byte.x03] [1; 5])).
  - simpl. repeat constructor.
  - by vm_compute.
Defined.

Lemma play_stops_witness :
  (length (filter (λ e, is_data e = true)
             (play (player_frames ex_lib) [STOP])) ≤ 1)%nat.
Proof.
  by destruct (play_stops (player_frames ex_lib) [STOP] 0 eq_refl) as [H _].
Defined.

Lemma play_undisturbed_witness :
  play (player_frames ex_lib) [NONE; START] = [decoder_data 4; decoder_data 4].
Proof.
  apply (play_undisturbed (player_frames ex_lib) [NONE; START]).
  by repeat constructor.
Defined.

(** A stream whose second read is interrupted is not loaded. *)
Example load_interrupted :
  (load_module (mkStream [Byte.x01; Byte.x02] [1; 0])).1 =
    Throw "i/o error while reading file".
Proof.
  unfold load_module.
  rewrite (load_module_loop_unfold _ _ [Byte.x01] (mkStream [Byte.x02] [0]))
    by reflexivity.
  simpl.
  by rewrite (load_module_loop_unfold _ _ [] (mkStream [Byte.x02] []))
    by reflexivity.
Qed.

Lemma load_interrupted_stream :
  load_module (mkStream [Byte.x01; Byte.x02; Byte.x03] [1; 0; 5]) =
  (Throw "i/o error while reading file", mkStream [Byte.x02; Byte.x03] [5]).
Proof.
  unfold load_module.
  rewrite (load_module_loop_unfold _ _ [Byte.x01]
             (mkStream [Byte.x02; Byte.x03] [0; 5])) by reflexivity.
  simpl.
  by rewrite (load_module_loop_unfold _ _ [] (mkStream [Byte.x02; Byte.x03] [5]))
    by reflexivity.
Qed.

Lemma load_cut_stream :
  load_module (mkStream [Byte.x01; Byte.x02; Byte.x03] [1; 5]) =
  (Ok [Byte.x01; Byte.x02; Byte.x03], mkStream [] []).
Proof.
  unfold load_module.
  rewrite (load_module_loop_unfold _ _ [Byte.x01]
             (mkStream [Byte.x02; Byte.x03] [5])) by reflexivity.
  simpl.
  rewrite (load_module_loop_unfold _ _ [Byte.x02; Byte.x03]
             (mkStream [] [])) by reflexivity.
  simpl.
  by rewrite (load_module_loop_unfold _ _ [] (mkStream [] [])) by reflexivity.
Qed.

Lemma scan_accepts_what_decode_plays_witness :
  (libxmp_scan_stream ex_lib (mkStream [Byte.x01; Byte.x02; Byte.x03] [])).1 = true.
Proof.
  apply (scan_accepts_what_decode_plays ex_lib ex_lib [SEEK]
           (mkStream [Byte.x01; Byte.x02; Byte.x03] [1; 5])
           (mkStream [Byte.x01; Byte.x02; Byte.x03] []) 1000
           [decoder_data 4; xmp_seek; decoder_command_finished; decoder_data 4]).
  - unfold libxmp_stream_decode, Xmp_new. by rewrite load_cut_stream.
  - done.
  - done.
  - done.
Defined.

(** The same bytes: a decode whose second read is interrupted only logs a
    warning, a scan that reads them without hindrance returns true. *)
Example interrupted_decode_but_scan :
  libxmp_stream_decode ex_lib []
    (mkStream [Byte.x01; Byte.x02; Byte.x03] [1; 0; 5]) =
    [LogWarning "i/o error while reading file"] ∧
  (libxmp_scan_stream ex_lib (mkStream [Byte.x01; Byte.x02; Byte.x03] [1; 5])).1 = true.
Proof.
  unfold libxmp_stream_decode, libxmp_scan_stream, Xmp_new.
  by rewrite load_interrupted_stream, load_cut_stream.
Qed.

Example seek_is_answered :
  play (player_frames ex_lib) [SEEK; NONE] =
  [decoder_data 4; xmp_seek; decoder_command_finished; decoder_data 4].
Proof. reflexivity. Qed.

End XmpExtras.

(** ** OptimfrogDecoderPlugin.cxx: reading samples *)

Module OptimfrogExtras.
Import Optimfrog.

Local Open Scope Z_scope.

Lemma convert_loop_unfold bytes n i overlay :
  convert_loop bytes n i overlay =
  if decide (i < n) then
    if decide (0 ≤ i < Z.of_nat (length overlay) ∧ 0 < bytes) then
      convert_loop bytes n (i + bytes)
        (alter (λ b, Z.lxor b 0x80) (Z.to_nat i) overlay)
    else None
  else Some overlay.
Proof.
  rewrite convert_loop_equation_1.
  destruct (decide (i < n)); [|done]. simpl.
  by destruct (decide (0 ≤ i < Z.of_nat (length overlay) ∧ 0 < bytes)).
Qed.

(** What the loop leaves in the buffer: from [i] on and before [n], every
    byte a multiple of [bytes] away from [i] has its top bit flipped. *)
Lemma convert_loop_lookup bytes n i overlay :
  0 < bytes → 0 ≤ i → n ≤ Z.of_nat (length overlay) →
  ∃ overlay',
    convert_loop bytes n i overlay = Some overlay' ∧
    length overlay' = length overlay ∧
    ∀ p : nat,
      overlay' !! p =
      if decide (i ≤ Z.of_nat p < n ∧ (Z.of_nat p - i) `mod` bytes = 0)
      then (λ b, Z.lxor b 0x80) <$> overlay !! p
      else overlay !! p.
Proof.
  intros Hbytes. remember (Z.to_nat (n - i)) as m eqn:Hm.
  revert i overlay Hm. induction m as [m IH] using lt_wf_ind.
  intros i overlay -> Hi Hn. rewrite convert_loop_unfold.
  destruct (decide (i < n)) as [Hlt|Hge].
  - rewrite decide_True by lia.
    destruct (IH (Z.to_nat (n - (i + bytes)))) with (i := i + bytes)
      (overlay := alter (λ b, Z.lxor b 0x80) (Z.to_nat i) overlay)
      as (overlay' & -> & Hlen & Hlook); [lia|done|lia|by rewrite length_alter|].
    exists overlay'. split; [done|]. rewrite Hlen, length_alter. split; [done|].
    intros p. rewrite Hlook. destruct (decide (Z.of_nat p = i)) as [Hp|Hp].
    + rewrite decide_False by lia.
      rewrite decide_True by (split; [lia|]; by replace (Z.of_nat p - i) with 0 by lia).
      replace (Z.to_nat i) with p by lia. by rewrite list_lookup_alter_eq.
    + rewrite list_lookup_alter_ne by lia.
      replace (Z.of_nat p - (i + bytes)) with (Z.of_nat p - i + (-1) * bytes) by lia.
      rewrite Z_mod_plus_full.
      destruct (decide (i + bytes ≤ Z.of_nat p < n ∧ (Z.of_nat p - i) `mod` bytes = 0))
        as [[H1 H2]|Hno].
      * by rewrite decide_True by lia.
      * rewrite decide_False; [done|]. intros [H1 H2]. apply Hno. split; [|done].
        destruct (decide (Z.of_nat p < i + bytes)); [|lia].
        rewrite Z.mod_small in H2 by lia. lia.
  - exists overlay. split; [done|]. split; [done|]. intros p.
    by rewrite decide_False by lia.
Qed.

Lemma lxor_top_bit b :
  is_byte b → Z.lxor b 0x80 = if b <? 128 then b + 128 else b - 128.
Proof.
  assert (∀ c, 0 ≤ c < 128 → Z.lxor c 128 = c + 128) as Hlow.
  { intros c Hc. symmetry. apply Z.add_nocarry_lxor. apply Z.bits_inj'.
    intros k Hk. rewrite Z.land_spec, Z.bits_0.
    change 128 with (2 ^ 7). rewrite Z.pow2_bits_eqb by lia.
    destruct (Z.eqb_spec 7 k) as [<-|Hne]; [|by rewrite andb_false_r].
    rewrite andb_true_r. destruct (decide (c = 0)) as [->|Hnz]; [done|].
    apply Z.bits_above_log2; [lia|]. apply Z.log2_lt_pow2; lia. }
  intros [Hlo Hhi]. destruct (Z.ltb_spec b 128) as [Hb|Hb].
  - apply Hlow. lia.
  - replace b with (b - 128 + 128) at 1 by lia.
    rewrite <- (Hlow (b - 128)) by lia.
    by rewrite Z.lxor_assoc, Z.lxor_nilpotent, Z.lxor_0_r.
Qed.

Lemma le_unsigned_snoc l b :
  le_unsigned (l ++ [b]) = le_unsigned l + 256 ^ Z.of_nat (length l) * b.
Proof.
  induction l as [|a l IH]; simpl le_unsigned.
  - simpl. lia.
  - rewrite IH. simpl length. rewrite Nat2Z.inj_succ, Z.pow_succ_r by lia. lia.
Qed.

Lemma le_unsigned_range l :
  Forall is_byte l → 0 ≤ le_unsigned l < 256 ^ Z.of_nat (length l).
Proof.
  induction 1 as [|a l [Ha1 Ha2] _ IH]; simpl le_unsigned.
  - simpl. lia.
  - simpl length. rewrite Nat2Z.inj_succ, Z.pow_succ_r by lia. lia.
Qed.

(** Flipping the top bit of the last byte turns offset binary into two's
    complement. *)
Lemma le_signed_flip l b :
  Forall is_byte l → is_byte b →
  le_signed (l ++ [Z.lxor b 0x80]) =
  le_unsigned (l ++ [b]) - 256 ^ Z.of_nat (length (l ++ [b])) / 2.
Proof.
  intros Hl Hb. pose proof (le_unsigned_range l Hl) as HU.
  unfold le_signed. rewrite !le_unsigned_snoc, !length_app. simpl length.
  replace (Z.of_nat (length l + 1)) with (Z.succ (Z.of_nat (length l))) by lia.
  rewrite Z.pow_succ_r by lia.
  set (W := 256 ^ Z.of_nat (length l)) in *. set (U := le_unsigned l) in *.
  replace (256 * W / 2) with (128 * W)
    by (replace (256 * W) with (128 * W * 2) by lia; by rewrite Z.div_mul).
  rewrite (lxor_top_bit b Hb). destruct Hb as [Hb1 Hb2].
  destruct (Z.ltb_spec b 128) as [Hlt|Hge].
  - destruct (Z.ltb_spec (U + W * (b + 128)) (128 * W)); nia.
  - destruct (Z.ltb_spec (U + W * (b - 128)) (128 * W)); nia.
Qed.

Lemma sample_lookup bytes k buffer j :
  sample bytes k buffer !! j =
  if decide (j < Z.to_nat bytes)%nat then buffer !! (k * Z.to_nat bytes + j)%nat
  else None.
Proof. unfold sample. by rewrite lookup_take, lookup_drop. Qed.

Lemma sample_length bytes k buffer :
  ((k + 1) * Z.to_nat bytes ≤ length buffer)%nat →
  length (sample bytes k buffer) = Z.to_nat bytes.
Proof.
  intros Hk. unfold sample. rewrite length_take_le; [done|].
  rewrite length_drop. lia.
Qed.

Lemma snoc_lookup (s : list Z) (B : nat) b j :
  length s = B → (0 < B)%nat →
  (take (B - 1) s ++ [b]) !! j =
  if decide (j = B - 1)%nat then Some b
  else if decide (j < B)%nat then s !! j else None.
Proof.
  intros Hlen HB.
  assert (length (take (B - 1) s) = (B - 1)%nat) as Hl
    by (rewrite length_take_le; lia).
  destruct (decide (j = B - 1)%nat) as [->|Hj].
  - rewrite lookup_app_r by lia. rewrite Hl.
    replace (B - 1 - (B - 1))%nat with 0%nat by lia. done.
  - destruct (decide (j < B)%nat).
    + rewrite lookup_app_l by lia. by rewrite lookup_take_lt by lia.
    + rewrite lookup_app_r by lia. rewrite Hl.
      destruct (j - (B - 1))%nat eqn:E; [lia|done].
Qed.

(** After the loop the sample number [k] differs from what it was in the
    top bit of its last byte. *)
Lemma converted_sample (B : nat) n (overlay overlay' : list Z) k :
  (0 < B)%nat →
  (∀ p : nat,
     overlay' !! p =
     if decide (Z.of_nat B - 1 ≤ Z.of_nat p < n ∧
                (Z.of_nat p - (Z.of_nat B - 1)) `mod` Z.of_nat B = 0)
     then (λ b, Z.lxor b 0x80) <$> overlay !! p
     else overlay !! p) →
  length overlay' = length overlay →
  (Z.of_nat k + 1) * Z.of_nat B ≤ n → n ≤ Z.of_nat (length overlay) →
  ∃ l b, sample (Z.of_nat B) k overlay = l ++ [b] ∧
         sample (Z.of_nat B) k overlay' = l ++ [Z.lxor b 0x80].
Proof.
  intros HB Hlook Hlen Hk Hn.
  assert (((k + 1) * B ≤ length overlay)%nat) as Hk' by nia.
  assert (is_Some (overlay !! (k * B + (B - 1))%nat)) as [b Hb]
    by (apply lookup_lt_is_Some; nia).
  pose proof (sample_length (Z.of_nat B) k overlay) as Hs.
  rewrite Nat2Z.id in Hs. specialize (Hs Hk').
  exists (take (B - 1) (sample (Z.of_nat B) k overlay)), b.
  assert (∀ j : nat, (j < B)%nat →
            (Z.of_nat (k * B + j) - (Z.of_nat B - 1)) `mod` Z.of_nat B =
            (Z.of_nat j + 1) `mod` Z.of_nat B) as Hmod.
  { intros j Hj.
    replace (Z.of_nat (k * B + j) - (Z.of_nat B - 1))
      with (Z.of_nat j + 1 + (Z.of_nat k - 1) * Z.of_nat B) by nia.
    by rewrite Z_mod_plus_full. }
  split; apply list_eq; intros j; rewrite (snoc_lookup _ B) by done;
    rewrite sample_lookup, Nat2Z.id.
  - destruct (decide (j = B - 1)%nat) as [->|Hj].
    + by rewrite decide_True by lia.
    + by destruct (decide (j < B)%nat).
  - destruct (decide (j = B - 1)%nat) as [->|Hj].
    + rewrite decide_True by lia. rewrite Hlook, decide_True, Hb; [done|].
      split; [nia|]. rewrite Hmod by lia.
      replace (Z.of_nat (B - 1) + 1) with (Z.of_nat B) by lia.
      apply Z_mod_same_full.
    + destruct (decide (j < B)%nat); [|done].
      rewrite sample_lookup, Nat2Z.id, decide_True by done.
      rewrite Hlook, decide_False; [done|].
      intros [_ H0]. rewrite Hmod in H0 by done.
      rewrite Z.mod_small in H0 by lia. lia.
Qed.

Lemma convert_loop_length bytes n i overlay overlay' :
  convert_loop bytes n i overlay = Some overlay' →
  length overlay' = length overlay.
Proof.
  remember (Z.to_nat (n - i)) as m eqn:Hm.
  revert i overlay Hm. induction m as [m IH] using lt_wf_ind.
  intros i overlay ->. rewrite convert_loop_unfold.
  destruct (decide (i < n)) as [Hlt|Hge]; [|by intros [= <-]].
  destruct (decide (0 ≤ i < Z.of_nat (length overlay) ∧ 0 < bytes)) as [Hin|];
    [|done].
  intros Hrec. eapply IH in Hrec; [|..|done]; [|lia].
  by rewrite Hrec, length_alter.
Qed.

Lemma read_length ofr OptimFROG_read buffer r buffer' :
  read ofr OptimFROG_read buffer = Some (r, buffer') →
  length buffer' = length buffer.
Proof.
  unfold read.
  destruct (negb _); [done|]. destruct (_ =? 0); [done|].
  destruct (OptimFROG_read _) as [n written].
  destruct (Nat.ltb_spec (length buffer) (length written)) as [|Hw]; [done|].
  assert (length (written ++ drop (length written) buffer) = length buffer) as Hl
    by (rewrite length_app, length_drop; lia).
  destruct (_ && _); [done|].
  destruct (negb (is_signed ofr)).
  - destruct (convert_loop _ _ _ _) as [overlay|] eqn:E; [|done].
    intros [= _ <-]. apply convert_loop_length in E. by rewrite E.
  - by intros [= _ <-].
Qed.

Lemma quot_8 d : 8 ≤ d → 1 ≤ d ÷ 8.
Proof.
  intros Hd. rewrite Z.quot_div_nonneg by lia.
  apply Z.div_le_lower_bound; lia.
Qed.

(** X15: [OFR::read] turns unsigned samples into signed ones.  For a
    stream of unsigned samples of at least 8 bits, when [OptimFROG_read]
    returns [n > 0] points and has written their bytes, the call returns
    the number of bytes written, leaves the buffer behind them as it was,
    and every sample, read as a little-endian number in two's complement,
    is the unsigned sample the library wrote minus half the range. *)
Theorem read_converts_unsigned ofr OptimFROG_read buffer n written :
  is_signed ofr = false →
  8 ≤ depth ofr → 0 < channels ofr →
  Z.of_nat (length buffer) < 2 ^ 31 →
  OptimFROG_read (Z.of_nat (length buffer) / (depth ofr ÷ 8 * channels ofr))
    = (n, written) →
  0 < n →
  Z.of_nat (length written) = n * (depth ofr ÷ 8 * channels ofr) →
  n * (depth ofr ÷ 8 * channels ofr) ≤ Z.of_nat (length buffer) →
  Forall is_byte written →
  ∃ overlay,
    read ofr OptimFROG_read buffer =
      Some (n * (depth ofr ÷ 8 * channels ofr), overlay) ∧
    length overlay = length buffer ∧
    drop (length written) overlay = drop (length written) buffer ∧
    ∀ k : nat, Z.of_nat k < n * channels ofr →
      le_signed (sample (depth ofr ÷ 8) k overlay) =
      le_unsigned (sample (depth ofr ÷ 8) k written) - 256 ^ (depth ofr ÷ 8) / 2.
Proof.
  intros Hsigned Hdepth Hch Hsize Hread Hn Hwritten Hroom Hbytes.
  pose proof (quot_8 _ Hdepth) as Hb. unfold read.
  set (bytes := depth ofr ÷ 8) in *. set (pc := bytes * channels ofr) in *.
  assert (0 < pc) as Hpc by (unfold pc; nia).
  assert (bytes ≤ pc) as Hbpc by (unfold pc; nia).
  assert (pc ≤ n * pc) as Hnpc by nia.
  assert (fits_sInt32 bytes = true) as ->
    by (unfold fits_sInt32; apply andb_true_iff; split;
        [apply Z.leb_le|apply Z.ltb_lt]; lia).
  assert (fits_sInt32 pc = true) as ->
    by (unfold fits_sInt32; apply andb_true_iff; split;
        [apply Z.leb_le|apply Z.ltb_lt]; lia).
  simpl negb. cbv iota.
  assert ((pc =? 0) = false) as -> by (apply Z.eqb_neq; lia).
  rewrite (Z.mod_small pc) by lia. rewrite Hread.
  assert ((length buffer <? length written)%nat = false) as ->
    by (apply Nat.ltb_ge; lia).
  assert ((0 <? n) = true) as -> by (apply Z.ltb_lt; lia).
  assert (fits_sInt32 (n * pc) = true) as ->
    by (unfold fits_sInt32; apply andb_true_iff; split;
        [apply Z.leb_le|apply Z.ltb_lt]; lia).
  rewrite Hsigned. simpl.
  set (filled := written ++ drop (length written) buffer).
  assert (length filled = length buffer) as Hfilled
    by (unfold filled; rewrite length_app, length_drop; lia).
  destruct (convert_loop_lookup bytes (n * pc) (bytes - 1) filled)
    as (overlay & -> & Hlen & Hlook); [lia..|].
  exists overlay. split; [done|]. split; [congruence|]. split.
  - apply list_eq. intros j. rewrite !lookup_drop, Hlook.
    rewrite decide_False by lia. unfold filled.
    rewrite lookup_app_r by lia. rewrite lookup_drop. f_equal. lia.
  - intros k Hk.
    assert (bytes = Z.of_nat (Z.to_nat bytes)) as HB by lia.
    assert ((Z.of_nat k + 1) * bytes ≤ n * pc) as Hk' by (unfold pc; nia).
    destruct (converted_sample (Z.to_nat bytes) (n * pc) filled overlay k)
      as (l & b & Hs & Hs'); [lia| |done|lia|lia|].
    { intros p. rewrite <- HB. apply Hlook. }
    rewrite <- HB in Hs, Hs'.
    assert (sample bytes k written = sample bytes k filled) as Hsame.
    { unfold sample, filled. rewrite drop_app_le by nia.
      rewrite take_app_le; [done|]. rewrite length_drop. nia. }
    assert (length (l ++ [b]) = Z.to_nat bytes) as Hlb.
    { rewrite <- Hs. apply sample_length. nia. }
    assert (Forall is_byte (l ++ [b])) as Hlbytes.
    { rewrite <- Hs, <- Hsame. unfold sample.
      by apply Forall_take, Forall_drop. }
    apply Forall_app in Hlbytes as [Hl Hb']. inversion_clear Hb' as [|? ? Hb'' _].
    rewrite Hs', Hsame, Hs, le_signed_flip by done.
    rewrite Hlb. by rewrite <- HB.
Qed.

Lemma fits_sInt32_true z : - 2 ^ 31 ≤ z < 2 ^ 31 → fits_sInt32 z = true.
Proof.
  intros Hz. unfold fits_sInt32. apply andb_true_iff.
  split; [apply Z.leb_le|apply Z.ltb_lt]; lia.
Qed.

(** X16: [OFR::read] returns 0 exactly when the library has nothing, be
    it the end of the file or an error.  For samples of at least 8 bits,
    signed or not, when [OptimFROG_read] stays inside the buffer, the call
    is defined, keeps the size of the buffer, returns a number of bytes
    between 0 and that size, and returns 0 exactly when [OptimFROG_read]
    returned 0 or less; a signed stream is handed on as written. *)
Theorem read_returns_zero_at_the_end_or_on_error ofr OptimFROG_read buffer n written :
  8 ≤ depth ofr → 0 < channels ofr →
  depth ofr ÷ 8 * channels ofr < 2 ^ 31 →
  Z.of_nat (length buffer) < 2 ^ 31 →
  OptimFROG_read (Z.of_nat (length buffer) / (depth ofr ÷ 8 * channels ofr))
    = (n, written) →
  (length written ≤ length buffer)%nat →
  (0 < n → n * (depth ofr ÷ 8 * channels ofr) ≤ Z.of_nat (length buffer)) →
  ∃ r buffer',
    read ofr OptimFROG_read buffer = Some (r, buffer') ∧
    length buffer' = length buffer ∧
    0 ≤ r ≤ Z.of_nat (length buffer) ∧
    (r = 0 ↔ n ≤ 0) ∧
    (is_signed ofr = true → buffer' = written ++ drop (length written) buffer).
Proof.
  intros Hdepth Hch Hpc31 Hsize Hread Hwritten Hroom.
  pose proof (quot_8 _ Hdepth) as Hb.
  assert (∃ r buffer',
            read ofr OptimFROG_read buffer = Some (r, buffer') ∧
            r = (if 0 <? n then n * (depth ofr ÷ 8 * channels ofr) else 0) ∧
            (is_signed ofr = true →
             buffer' = written ++ drop (length written) buffer))
    as (r & buffer' & Hr & -> & Hsame).
  { unfold read.
    set (bytes := depth ofr ÷ 8) in *. set (pc := bytes * channels ofr) in *.
    assert (0 < pc) as Hpc by (unfold pc; nia).
    assert (bytes ≤ pc) as Hbpc by (unfold pc; nia).
    rewrite (fits_sInt32_true bytes), (fits_sInt32_true pc) by lia.
    simpl negb. cbv iota.
    assert ((pc =? 0) = false) as -> by (apply Z.eqb_neq; lia).
    rewrite (Z.mod_small pc) by lia. rewrite Hread.
    assert ((length buffer <? length written)%nat = false) as ->
      by (apply Nat.ltb_ge; lia).
    set (filled := written ++ drop (length written) buffer).
    assert (length filled = length buffer) as Hfilled
      by (unfold filled; rewrite length_app, length_drop; lia).
    assert (((0 <? n) && negb (fits_sInt32 (n * pc))) = false) as ->.
    { destruct (Z.ltb_spec 0 n) as [Hn|Hn]; [|done].
      rewrite fits_sInt32_true; [done|]. specialize (Hroom Hn). nia. }
    destruct (is_signed ofr); simpl.
    - by eexists _, _.
    - destruct (convert_loop_lookup bytes (if 0 <? n then n * pc else 0)
                  (bytes - 1) filled) as (overlay & -> & _); [lia..| |].
      + destruct (Z.ltb_spec 0 n) as [Hn|Hn]; [specialize (Hroom Hn)|]; lia.
      + by eexists _, _. }
  eexists _, buffer'. split; [done|]. split; [by eapply read_length|].
  assert (0 < depth ofr ÷ 8 * channels ofr) by nia.
  destruct (Z.ltb_spec 0 n) as [Hn|Hn].
  - specialize (Hroom Hn). split; [nia|]. split; [nia|done].
  - split; [lia|]. split; [lia|done].
Qed.

Lemma decode_loop_data ofr reads : ∀ commands events data,
  decode_loop ofr reads commands = Some events →
  decoder_data data ∈ events →
  length data = length fresh_buffer.
Proof.
  induction reads as [|OptimFROG_read reads IH]; intros commands events data; simpl.
  - destruct (read _ _ _); [|done]. intros [= <-] Hin. by apply elem_of_nil in Hin.
  - destruct (read ofr OptimFROG_read fresh_buffer) as [[r buffer]|] eqn:Hread;
      [|done].
    apply read_length in Hread.
    destruct (r =? 0); [intros [= <-] Hin; by apply elem_of_nil in Hin|].
    destruct (default NONE (head commands));
      try (destruct (decode_loop ofr reads (tail commands)) as [es|] eqn:Hes;
           [|done]; simpl; intros [= <-] Hin).
    + apply elem_of_cons in Hin as [[= ->]|Hin]; [done|]. by eapply IH.
    + apply elem_of_cons in Hin as [[= ->]|Hin]; [done|]. by eapply IH.
    + intros [= <-] Hin. apply list_elem_of_singleton in Hin. by injection Hin as ->.
    + apply elem_of_cons in Hin as [[= ->]|Hin]; [done|].
      apply elem_of_cons in Hin as [[=]|Hin].
      apply elem_of_cons in Hin as [[=]|Hin]. by eapply IH.
Qed.

(** X17: [optimfrog_decode] always hands over whole buffers.  Whatever the
    library reads and the decoder answers, every call of [decoder_data] is
    given 16384 bytes, also when [OFR::read] returned fewer: the bytes
    behind those are handed over with them. *)
Theorem optimfrog_decode_hands_over_whole_buffers
    instance opened got reads commands events data :
  optimfrog_decode instance opened got reads commands = Some events →
  decoder_data data ∈ events →
  Z.of_nat (length data) = 16384.
Proof.
  unfold optimfrog_decode. destruct (OFR_new instance opened got) as [ofr|what].
  - destruct (decode_loop ofr reads commands) as [es|] eqn:Hes; [|done].
    simpl. intros [= <-] Hin. apply elem_of_cons in Hin as [[=]|Hin].
    rewrite (decode_loop_data _ _ _ _ _ Hes Hin).
    unfold fresh_buffer. rewrite length_replicate. lia.
  - intros [= <-] Hin. by apply list_elem_of_singleton in Hin.
Qed.

(** X18: which streams [OFR] takes for signed.  A constructed [OFR] has a
    depth of at most 16 bits, the depth of the stream unless that is more,
    and it treats the samples as signed exactly when the sample type
    starts with SINT, as unsigned exactly when it starts with UINT. *)
Theorem OFR_new_signedness instance opened got ofr :
  OFR_new instance opened got = Ok ofr →
  depth ofr = bitspersample got `min` 16 ∧
  (is_signed ofr = true ↔ String.prefix "SINT" (sampleType got) = true) ∧
  (is_signed ofr = false ↔ String.prefix "UINT" (sampleType got) = true).
Proof.
  unfold OFR_new. destruct instance; [|done]. destruct opened; [|done]. simpl.
  assert (sampleType (if 16 <? bitspersample got
                      then mkInfo (info_channels got) (samplerate got) 16
                             (length_ms got) (sampleType got)
                      else got) = sampleType got) as ->
    by (by destruct (16 <? bitspersample got)).
  unfold strncmp4_differs.
  assert (∀ a t, String.prefix (String a t) (sampleType got) = true →
                 ∃ s, sampleType got = String a s) as Hhead.
  { intros a t. destruct (sampleType got) as [|c s]; simpl; [done|].
    destruct (Ascii.ascii_dec a c) as [<-|]; [|done]. by exists s. }
  destruct (String.prefix "SINT" (sampleType got)) eqn:HS;
    destruct (String.prefix "UINT" (sampleType got)) eqn:HU; simpl; [| | |done].
  - apply Hhead in HS as [s Hs]. apply Hhead in HU as [u Hu]. congruence.
  - intros [= <-]. unfold depth. simpl.
    split; [destruct (Z.ltb_spec 16 (bitspersample got)); simpl; lia|].
    apply Hhead in HS as [s ->]. done.
  - intros [= <-]. unfold depth. simpl.
    split; [destruct (Z.ltb_spec 16 (bitspersample got)); simpl; lia|].
    apply Hhead in HU as [s ->]. done.
Qed.

Lemma read_converts_unsigned_witness :
  ∃ overlay,
    read ex_ofr ex_read [7; 7; 7; 7; 7; 7] = Some (4, overlay) ∧
    le_signed (sample 2 0 overlay) = 0 ∧
    le_signed (sample 2 1 overlay) = 32767 ∧
    drop 4 overlay = [7; 7].
Proof.
  destruct (read_converts_unsigned ex_ofr ex_read [7; 7; 7; 7; 7; 7] 1
              [0; 128; 255; 255]) as (overlay & Hread & _ & Hrest & Hs);
    [done|by vm_compute|done|done|done|done|done|by vm_compute| |].
  { repeat constructor; by vm_compute. }
  exists overlay. split; [exact Hread|].
  split; [exact (Hs 0%nat eq_refl)|]. split; [exact (Hs 1%nat eq_refl)|exact Hrest].
Defined.

Lemma read_returns_zero_at_the_end_or_on_error_witness :
  ∃ buffer', read ex_ofr (λ _, (-1, [])) [7; 7; 7; 7] = Some (0, buffer').
Proof.
  destruct (read_returns_zero_at_the_end_or_on_error ex_ofr (λ _, (-1, []))
              [7; 7; 7; 7] (-1) [])
    as (r & buffer' & Hread & _ & _ & [_ Hzero] & _);
    [by vm_compute|done|done|done|done|simpl; lia|lia|].
  exists buffer'. rewrite Hread. by rewrite Hzero by lia.
Defined.

Lemma optimfrog_decode_hands_over_whole_buffers_witness :
  Z.of_nat (length ([5] ++ drop 1 fresh_buffer)) = 16384.
Proof.
  apply (optimfrog_decode_hands_over_whole_buffers true true ex_info_signed
           [λ _, (1, [5])] []
           [decoder_initialized 8000 S8 1 1000;
            decoder_data ([5] ++ drop 1 fresh_buffer)]).
  - by vm_compute.
  - apply elem_of_cons. right. apply elem_of_cons. by left.
Defined.

Lemma OFR_new_signedness_witness :
  is_signed ex_ofr = false ↔ String.prefix "UINT" "UINT16" = true.
Proof.
  by destruct (OFR_new_signedness true true ex_info ex_ofr eq_refl) as (_ & _ & H).
Defined.

End OptimfrogExtras.
